(** * image-humanizer: prompt scoring and prompt transformation

    A shallow embedding of [src/patterns.js], [src/modifiers.js] and
    [src/transformer.js].

    - A JavaScript string is its sequence of UTF-16 code units ([jsstring]).
    - Regular expressions are a small syntax tree with a backtracking matcher
      that follows the ECMAScript matching order (alternatives left to right,
      greedy quantifiers, leftmost match).
    - The mutable parts of the program are gathered in a [Store]: the
      [lastIndex] of the RegExp objects held by the rule table, the arrays of
      the vocabulary tables (which [Array.prototype.sort] reorders in place),
      and the outcomes of the random draws still to come.
    - A call either completes normally or throws; the store survives both. *)

From Stdlib Require Import String Ascii List Bool Arith NArith ZArith Lia Permutation.
Import ListNotations.
Open Scope string_scope.
Open Scope list_scope.

Set Implicit Arguments.

(** ** Strings *)

Definition jsstring := list N.

(** A literal of the source text, character by character. *)
Fixpoint js (s : string) : jsstring :=
  match s with
  | EmptyString => []
  | String a s' => N_of_ascii a :: js s'
  end.

Fixpoint jsstring_eqb (a b : jsstring) : bool :=
  match a, b with
  | [], [] => true
  | x :: a', y :: b' => N.eqb x y && jsstring_eqb a' b'
  | _, _ => false
  end.

(** [Array.prototype.join]. *)
Fixpoint join (sep : jsstring) (parts : list jsstring) : jsstring :=
  match parts with
  | [] => []
  | [p] => p
  | p :: rest => p ++ sep ++ join sep rest
  end.

(** ** Character classes of the pattern language *)

Definition in_range (lo hi c : N) : bool := N.leb lo c && N.leb c hi.

(** [\d] *)
Definition is_digit (c : N) : bool := in_range 48 57 c.

(** [\w]: the basic word characters [A-Za-z0-9_]. *)
Definition is_word (c : N) : bool :=
  in_range 48 57 c || in_range 65 90 c || N.eqb c 95 || in_range 97 122 c.

(** [\s]: WhiteSpace and LineTerminator code points. *)
Definition is_space (c : N) : bool :=
  in_range 9 13 c || N.eqb c 32 || N.eqb c 160 || N.eqb c 5760
  || in_range 8192 8202 c || N.eqb c 8232 || N.eqb c 8233
  || N.eqb c 8239 || N.eqb c 8287 || N.eqb c 12288 || N.eqb c 65279.

(** [[- ]] *)
Definition is_dash_or_space (c : N) : bool := N.eqb c 45 || N.eqb c 32.

(** [[,\s]] *)
Definition is_comma_or_space (c : N) : bool := N.eqb c 44 || is_space c.

(** Canonicalize of a pattern character under the [i] flag without the [u]
    flag.  Every literal of the rule set is ASCII; a code unit from 128 on
    never canonicalizes to an ASCII one, so upper-casing the ASCII letters is
    all that can make two characters meet. *)
Definition canonicalize (c : N) : N :=
  if in_range 97 122 c then (c - 32)%N else c.

Definition char_eqb (ignoreCase : bool) (p c : N) : bool :=
  if ignoreCase then N.eqb (canonicalize p) (canonicalize c) else N.eqb p c.

Definition word_before (prev : option N) : bool :=
  match prev with Some c => is_word c | None => false end.

Definition word_after (s : jsstring) : bool :=
  match s with c :: _ => is_word c | [] => false end.

(** ** Regular expressions *)

Inductive regex : Type :=
| Eps                              (* the empty pattern *)
| Chr (p : N)                      (* a literal character *)
| Cls (f : N -> bool)              (* a character class *)
| Seq (a b : regex)
| Alt (a b : regex)                (* a|b *)
| Opt (a : regex)                  (* a? *)
| Star (f : N -> bool)             (* [class]*, greedy *)
| Bnd                              (* \b *)
| Bol                              (* ^ *)
| Eol                              (* $ *)
| NegLA (a : regex).               (* (?!a) *)

Declare Scope regex_scope.
Delimit Scope regex_scope with re.
Bind Scope regex_scope with regex.
Notation "a >> b" := (Seq a b) (at level 61, right associativity) : regex_scope.

Fixpoint lit_chars (cs : jsstring) : regex :=
  match cs with
  | [] => Eps
  | [c] => Chr c
  | c :: cs' => Seq (Chr c) (lit_chars cs')
  end.

Definition lit (s : string) : regex := lit_chars (js s).

Fixpoint alts (rs : list regex) : regex :=
  match rs with
  | [] => Eps
  | [r] => r
  | r :: rs' => Alt r (alts rs')
  end.

(** A group of alternative literal phrases, [(w1|w2|...)]. *)
Definition words (ws : list string) : regex := alts (map lit ws).

(** [class]+ *)
Definition plus (f : N -> bool) : regex := Seq (Cls f) (Star f).

(** Greedy repetition of a class: take as many characters as possible, then
    give them back one at a time while the continuation fails. *)
Fixpoint star_match (A : Type) (f : N -> bool) (prev : option N) (s : jsstring)
    (k : option N -> jsstring -> option A) : option A :=
  match s with
  | c :: s' =>
      if f c then
        match star_match f (Some c) s' k with
        | Some x => Some x
        | None => k prev s
        end
      else k prev s
  | [] => k prev s
  end.

(** The backtracking matcher.  [prev] is the code unit just before the
    current position ([None] at index 0), [s] the input from the current
    position on, [k] the continuation that matches whatever follows. *)
Fixpoint rmatch (ic : bool) (r : regex) (A : Type) (prev : option N) (s : jsstring)
    (k : option N -> jsstring -> option A) {struct r} : option A :=
  match r with
  | Eps => k prev s
  | Chr p =>
      match s with
      | c :: s' => if char_eqb ic p c then k (Some c) s' else None
      | [] => None
      end
  | Cls f =>
      match s with
      | c :: s' => if f c then k (Some c) s' else None
      | [] => None
      end
  | Seq a b => rmatch ic a prev s (fun prev' s' => rmatch ic b prev' s' k)
  | Alt a b =>
      match rmatch ic a prev s k with
      | Some x => Some x
      | None => rmatch ic b prev s k
      end
  | Opt a =>
      match rmatch ic a prev s k with
      | Some x => Some x
      | None => k prev s
      end
  | Star f => star_match f prev s k
  | Bnd => if xorb (word_before prev) (word_after s) then k prev s else None
  | Bol => match prev with None => k prev s | Some _ => None end
  | Eol => match s with [] => k prev s | _ :: _ => None end
  | NegLA a =>
      match rmatch ic a prev s (fun _ _ => Some tt) with
      | Some _ => None
      | None => k prev s
      end
  end.

(** Length of the match that starts exactly at the current position. *)
Definition match_here (ic : bool) (r : regex) (prev : option N) (s : jsstring)
  : option nat :=
  rmatch ic r prev s (fun _ s' => Some (length s - length s')).

(** Leftmost match at or after the current position: offset and length. *)
Fixpoint search (ic : bool) (r : regex) (prev : option N) (s : jsstring)
  : option (nat * nat) :=
  match match_here ic r prev s with
  | Some len => Some (0, len)
  | None =>
      match s with
      | [] => None
      | c :: s' =>
          match search ic r (Some c) s' with
          | Some (i, len) => Some (S i, len)
          | None => None
          end
      end
  end.

(** A RegExp object, without its [lastIndex] (which lives in the store). *)
Record RegExp : Type := mkRegExp {
  source : regex;
  ignoreCase : bool;
  global : bool
}.

Definition prev_at (i : nat) (s : jsstring) : option N :=
  match i with 0 => None | S n => nth_error s n end.

(** [RegExp.prototype.test]: the answer and the new [lastIndex].  Only a
    global RegExp reads and writes [lastIndex]. *)
Definition regexp_test (R : RegExp) (lastIndex : nat) (s : jsstring) : bool * nat :=
  if global R then
    if Nat.ltb (length s) lastIndex then (false, 0)
    else
      match search (ignoreCase R) (source R) (prev_at lastIndex s) (skipn lastIndex s) with
      | Some (i, len) => (true, lastIndex + i + len)
      | None => (false, 0)
      end
  else
    match search (ignoreCase R) (source R) None s with
    | Some _ => (true, lastIndex)
    | None => (false, lastIndex)
    end.

(** One step of a global scan ([String.prototype.replace] and
    [String.prototype.match] with the [g] flag): the input is cut into the
    characters left alone and the matches, from left to right.  After an
    empty match the scan moves on by one code unit. *)
Inductive segment : Type :=
| Keep (c : N)
| Hit (matched : jsstring).

Fixpoint segments (ic : bool) (r : regex) (prev : option N) (s : jsstring)
    (skip : nat) {struct s} : list segment :=
  match skip with
  | S n =>
      match s with
      | c :: s' => segments ic r (Some c) s' n
      | [] => []
      end
  | 0 =>
      match match_here ic r prev s with
      | Some len =>
          Hit (firstn len s) ::
          match s with
          | [] => []
          | c :: s' =>
              match len with
              | 0 => Keep c :: segments ic r (Some c) s' 0
              | S l => segments ic r (Some c) s' l
              end
          end
      | None =>
          match s with
          | [] => []
          | c :: s' => Keep c :: segments ic r (Some c) s' 0
          end
      end
  end.

Definition scan (R : RegExp) (s : jsstring) : list segment :=
  segments (ignoreCase R) (source R) None s 0.

(** [s.match(R)] for a global [R]: the matched substrings ([null] is the
    empty list here; the callers only take [|| []] and the length). *)
Fixpoint hits (segs : list segment) : list jsstring :=
  match segs with
  | [] => []
  | Keep _ :: rest => hits rest
  | Hit m :: rest => m :: hits rest
  end.

Definition match_all (R : RegExp) (s : jsstring) : list jsstring := hits (scan R s).

(** [s.replace(R, text)] for a global [R] and a replacement text without
    [$] patterns. *)
Fixpoint render (text : jsstring) (segs : list segment) : jsstring :=
  match segs with
  | [] => []
  | Keep c :: rest => c :: render text rest
  | Hit _ :: rest => text ++ render text rest
  end.

Definition replace_all (R : RegExp) (text : jsstring) (s : jsstring) : jsstring :=
  render text (scan R s).

(** ** Values, the store and the completion of a call *)

(** The values a caller can pass where a prompt is expected.  A Number is
    carried as the text [ToString] renders for it; objects, whose
    conversion runs code of their own, are left out. *)
Inductive jsval : Type :=
| VUndefined
| VNull
| VBool (b : bool)
| VNumber (rendered : jsstring)
| VString (s : jsstring).

Definition ToString (v : jsval) : jsstring :=
  match v with
  | VUndefined => js "undefined"
  | VNull => js "null"
  | VBool true => js "true"
  | VBool false => js "false"
  | VNumber rendered => rendered
  | VString s => s
  end.

Definition is_string (v : jsval) : bool :=
  match v with VString _ => true | _ => false end.

(** The arrays of [modifiers.js]; a category object such as [CAMERAS] is the
    list of its arrays. *)
Inductive Table : Type :=
| CAMERAS_film | CAMERAS_professional | CAMERAS_modern
| LENSES
| LIGHTING_natural | LIGHTING_artificial | LIGHTING_moody
| IMPERFECTIONS_film | IMPERFECTIONS_focus | IMPERFECTIONS_physical
| IMPERFECTIONS_surface
| HUMAN_DETAILS
| COMPOSITION_natural | COMPOSITION_angles | COMPOSITION_distance
| ENVIRONMENT_clutter | ENVIRONMENT_atmosphere | ENVIRONMENT_time
| STYLES.

Definition Table_eq_dec (a b : Table) : {a = b} + {a <> b}.
Proof. decide equality. Defined.

Record Store : Type := mkStore {
  (** [lastIndex] of the RegExp of each rule of [AI_PRONE_PATTERNS], by rule id *)
  lastIndex : string -> nat;
  (** current contents of each vocabulary array *)
  arrays : Table -> list jsstring;
  (** outcomes of the random operations still to come, one entry each *)
  chance : list nat
}.

Inductive Error : Type :=
| TypeError (message : string).

Inductive Completion (A : Type) : Type :=
| Normal (a : A)
| Throw (e : Error).
Arguments Throw {A} e.

Definition M (A : Type) : Type := Store -> Completion A * Store.

Definition ret {A : Type} (a : A) : M A := fun st => (Normal a, st).

Definition throw {A : Type} (e : Error) : M A := fun st => (Throw e, st).

Definition bind {A B : Type} (c : M A) (f : A -> M B) : M B :=
  fun st =>
    match c st with
    | (Normal a, st') => f a st'
    | (Throw e, st') => (Throw e, st')
    end.

Definition lift {A : Type} (c : Completion A) : M A := fun st => (c, st).

Notation "x <- c ;; k" := (bind c (fun x => k))
  (at level 100, c at next level, right associativity).

Definition set_lastIndex (id : string) (i : nat) (st : Store) : Store :=
  mkStore (fun id' => if String.eqb id' id then i else lastIndex st id')
          (arrays st) (chance st).

Definition set_array (t : Table) (items : list jsstring) (st : Store) : Store :=
  mkStore (lastIndex st)
          (fun t' => if Table_eq_dec t' t then items else arrays st t')
          (chance st).

(** The next random outcome; the supply falls back on 0 when exhausted. *)
Definition draw : M nat :=
  fun st =>
    match chance st with
    | [] => (Normal 0, st)
    | x :: rest => (Normal x, mkStore (lastIndex st) (arrays st) rest)
    end.

(** [Math.floor(Math.random() * n)] *)
Definition random_index (n : nat) : M nat :=
  x <- draw ;; ret (x mod n).

(** ** patterns.js *)

Module Issue.
Record t : Type := mk {
  id : string;
  name : string;
  description : string;
  weight : Z;
  suggestion : string
}.
End Issue.

Inductive Matcher : Type :=
| Regex (R : RegExp)
| Detect (detect : jsval -> Completion bool).

Module Pattern.
Record t : Type := mk {
  id : string;
  name : string;
  description : string;
  weight : Z;
  matcher : Matcher;
  suggestion : string
}.
End Pattern.

Definition dq : string := String (ascii_of_nat 34) EmptyString.

(** Flags [i] and [gi]. *)
Definition re_i (r : regex) : RegExp := mkRegExp r true false.
Definition re_gi (r : regex) : RegExp := mkRegExp r true true.
Definition re_g (r : regex) : RegExp := mkRegExp r false true.

(** [\b(w1|w2|...)\b] *)
Definition bounded (body : regex) : regex := (Bnd >> body >> Bnd)%re.

Definition style_words : RegExp :=
  re_gi (bounded (words ["style"; "aesthetic"; "vibe"; "mood"; "tone"; "look"; "feel"])).

Definition imperfectionWords : RegExp :=
  re_i (bounded (words ["worn"; "scratched"; "faded"; "dusty"; "dirty"; "messy";
                        "wrinkled"; "weathered"; "aged"; "vintage"; "grain"; "noise";
                        "blur"; "soft focus"; "imperfect"])).

Definition cameraWords : RegExp :=
  re_i (bounded (alts [lit "shot on"; lit "filmed"; lit "captured"; lit "35mm";
                       lit "50mm"; lit "85mm"; (lit "f/" >> Cls is_digit)%re;
                       lit "aperture"; lit "leica"; lit "canon"; lit "nikon";
                       lit "hasselblad"; lit "kodak"; lit "fuji"; lit "portra";
                       lit "ektar"; lit "tri-x"])).

(** [prompt.match(...)] exists on strings only: reading the property of
    [null] or [undefined] throws, and on a Number or Boolean it is
    [undefined], which cannot be called. *)
Definition no_match_method (v : jsval) : Error :=
  match v with
  | VUndefined => TypeError "Cannot read properties of undefined (reading 'match')"
  | VNull => TypeError "Cannot read properties of null (reading 'match')"
  | _ => TypeError "prompt.match is not a function"
  end.

Definition detect_style_stacking (prompt : jsval) : Completion bool :=
  match prompt with
  | VString s =>
      let styleWords := match_all style_words s in
      Normal (Nat.ltb 2 (length styleWords))
  | _ => Throw (no_match_method prompt)
  end.

Definition detect_missing_imperfection (prompt : jsval) : Completion bool :=
  Normal (negb (fst (regexp_test imperfectionWords 0 (ToString prompt)))).

Definition detect_missing_camera (prompt : jsval) : Completion bool :=
  Normal (negb (fst (regexp_test cameraWords 0 (ToString prompt)))).

Definition resolution_words : regex :=
  words ["8k"; "4k"; "hd"; "uhd"; "high resolution"; "highly detailed"].

Definition platform_words : regex :=
  words ["trending on artstation"; "artstation"; "deviantart"; "cgsociety";
         "unreal engine"; "octane render"].

Definition realistic_words : regex :=
  alts [(lit "hyper" >> Opt (Cls is_dash_or_space) >> lit "realistic")%re;
        (lit "ultra" >> Opt (Cls is_dash_or_space) >> lit "realistic")%re;
        (lit "photo" >> Opt (Cls is_dash_or_space) >> lit "realistic")%re].

Definition beauty_words : regex :=
  words ["beautiful"; "stunning"; "gorgeous"; "amazing"; "incredible";
         "breathtaking"; "perfect"].

Definition lighting_words : regex :=
  words ["cinematic lighting"; "dramatic lighting"; "professional lighting";
         "studio lighting"].

Definition AI_PRONE_PATTERNS : list Pattern.t :=
  [ Pattern.mk "generic-subject" "Generic subject"
      "Unspecific subject without distinguishing details" 4
      (Regex (re_i (Bol >> Opt (words ["a "; "an "])
                    >> words ["woman"; "man"; "person"; "girl"; "boy"; "child"; "people"]
                    >> Bnd
                    >> NegLA (lit " " >> words ["with"; "wearing"; "holding"; "in their"; "who"]))%re))
      "Add specific details: age, expression, clothing, action, distinguishing features";
    Pattern.mk "generic-location" "Generic location"
      "Vague location without atmosphere or specifics" 3
      (Regex (re_i (Bnd >> Opt (words ["in a "; "at a "; "at the "])
                    >> words ["coffee shop"; "restaurant"; "office"; "room"; "street";
                              "park"; "beach"; "forest"; "city"]
                    >> Bnd
                    >> NegLA (lit " " >> words ["with"; "where"; "that"; "filled"]))%re))
      "Add atmosphere: time of day, weather, condition (worn, modern, cluttered), specific details";
    Pattern.mk "beautiful-modifier" "Overused beauty modifiers"
      (dq ++ "Beautiful" ++ dq ++ ", " ++ dq ++ "stunning" ++ dq ++ ", " ++ dq
          ++ "gorgeous" ++ dq ++ " lead to over-processed looks")%string 5
      (Regex (re_gi (bounded beauty_words)))
      "Remove or replace with specific qualities: weathered, sun-dappled, candid, lived-in";
    Pattern.mk "hyper-realistic" "Hyper-realistic trap"
      (dq ++ "Hyper-realistic" ++ dq ++ " often produces the opposite effect")%string 4
      (Regex (re_gi (bounded realistic_words)))
      ("Use specific camera/film references instead: " ++ dq ++ "shot on Kodak Portra 400"
          ++ dq ++ ", " ++ dq ++ "Leica M6" ++ dq)%string;
    Pattern.mk "8k-4k" "8K/4K resolution spam"
      "Resolution tags rarely help and can trigger over-sharpening" 3
      (Regex (re_gi (bounded resolution_words)))
      "Remove. Use film grain, lens characteristics instead for quality";
    Pattern.mk "trending-artstation" "Trending/ArtStation clichés"
      "These tags pull toward stylized digital art, not realism" 4
      (Regex (re_gi (bounded platform_words)))
      "Remove for realistic photos. Use photography-specific references instead";
    Pattern.mk "cinematic-lighting" "Generic lighting terms"
      (dq ++ "Cinematic lighting" ++ dq ++ " is vague and overused")%string 3
      (Regex (re_gi (bounded lighting_words)))
      ("Be specific: " ++ dq ++ "golden hour side light" ++ dq ++ ", " ++ dq
          ++ "harsh midday sun" ++ dq ++ ", " ++ dq ++ "overcast soft light" ++ dq
          ++ ", " ++ dq ++ "single bare bulb" ++ dq)%string;
    Pattern.mk "portrait-generic" "Generic portrait terms"
      "Plain portrait terms lack character" 3
      (Regex (re_gi (bounded (words ["portrait of"; "headshot of"; "photo of"]))))
      ("Add context: " ++ dq ++ "candid portrait" ++ dq ++ ", " ++ dq
          ++ "environmental portrait" ++ dq ++ ", " ++ dq ++ "passport-style photo" ++ dq
          ++ ", " ++ dq ++ "caught mid-laugh" ++ dq)%string;
    Pattern.mk "style-stacking" "Style keyword stacking"
      "Too many style keywords fight each other" 3
      (Detect detect_style_stacking)
      "Pick one clear style direction instead of stacking multiple";
    Pattern.mk "missing-imperfection" "No imperfections"
      "Perfectly clean prompts yield AI-smooth results" 4
      (Detect detect_missing_imperfection)
      "Add imperfections: film grain, slight blur, worn surfaces, natural mess";
    Pattern.mk "missing-camera" "No camera/lens reference"
      "Missing photography specs leads to generic rendering" 3
      (Detect detect_missing_camera)
      ("Add camera specs: " ++ dq ++ "shot on 35mm f/1.8" ++ dq ++ ", " ++ dq
          ++ "Kodak Portra 400" ++ dq ++ ", " ++ dq ++ "vintage Polaroid" ++ dq)%string;
    Pattern.mk "symmetry-trap" "Symmetry/centered composition"
      "Centered, symmetrical compositions feel artificial" 2
      (Regex (re_gi (bounded (words ["centered"; "symmetrical"; "perfectly balanced";
                                     "in the middle"; "facing camera directly"]))))
      "Use off-center composition, rule of thirds, candid angles";
    Pattern.mk "direct-gaze" "Direct camera gaze"
      "Subject staring at camera often looks posed/artificial" 2
      (Regex (re_gi (bounded (words ["looking at camera"; "staring at camera"; "eye contact";
                                     "facing forward"; "looking directly"]))))
      ("Try: " ++ dq ++ "looking away" ++ dq ++ ", " ++ dq ++ "caught unaware" ++ dq
          ++ ", " ++ dq ++ "profile view" ++ dq ++ ", " ++ dq ++ "looking down at hands" ++ dq)%string
  ].

Definition REALISM_INDICATORS : list (RegExp * Z) :=
  [ (re_i (bounded (words ["candid"; "unposed"; "caught"; "moment"; "spontaneous"])), 2%Z);
    (re_i (bounded (alts [lit "35mm"; lit "50mm"; lit "85mm";
                          (lit "f/" >> Cls is_digit >> Chr 46 >> Cls is_digit)%re])), 3%Z);
    (re_i (bounded (words ["kodak"; "fuji"; "portra"; "ektar"; "tri-x"; "ilford"])), 3%Z);
    (re_i (bounded (words ["grain"; "noise"; "soft focus"; "slight blur"; "motion blur"])), 2%Z);
    (re_i (bounded (words ["worn"; "weathered"; "aged"; "vintage"; "faded"; "dusty"])), 2%Z);
    (re_i (bounded (words ["golden hour"; "overcast"; "harsh light"; "mixed lighting"])), 2%Z);
    (re_i (bounded (words ["wrinkles"; "pores"; "freckles"; "asymmetric"; "imperfect"])), 2%Z);
    (re_i (bounded (words ["leica"; "hasselblad"; "contax"; "pentax"; "mamiya"])), 2%Z);
    (re_i (bounded (words ["documentary"; "street photography"; "photojournalism"])), 2%Z) ].

Record AnalysisResult : Type := mkAnalysis {
  score : Z;
  aiScore : Z;
  realismScore : Z;
  issues : list Issue.t;
  issueCount : nat
}.

Definition issue_of (pattern : Pattern.t) : Issue.t :=
  Issue.mk (Pattern.id pattern) (Pattern.name pattern) (Pattern.description pattern)
           (Pattern.weight pattern) (Pattern.suggestion pattern).

(** [pattern.regex.test(prompt)] on the RegExp object of the rule [id]. *)
Definition test_rule (id : string) (R : RegExp) (s : jsstring) : M bool :=
  fun st =>
    let (found, i) := regexp_test R (lastIndex st id) s in
    (Normal found, if global R then set_lastIndex id i st else st).

Definition run_matcher (pattern : Pattern.t) (prompt : jsval) : M bool :=
  match Pattern.matcher pattern with
  | Detect detect => lift (detect prompt)
  | Regex R => test_rule (Pattern.id pattern) R (ToString prompt)
  end.

(** The first loop of [analyzePrompt]. *)
Fixpoint check_patterns (patterns : list Pattern.t) (prompt : jsval)
    (issues : list Issue.t) (aiScore : Z) : M (list Issue.t * Z) :=
  match patterns with
  | [] => ret (issues, aiScore)
  | pattern :: rest =>
      matched <- run_matcher pattern prompt ;;
      if (matched : bool)
      then check_patterns rest prompt (issues ++ [issue_of pattern])
                          (aiScore + Pattern.weight pattern)%Z
      else check_patterns rest prompt issues aiScore
  end.

(** The second loop of [analyzePrompt]; its RegExps have no [g] flag. *)
Fixpoint check_indicators (indicators : list (RegExp * Z)) (s : jsstring)
    (realismScore : Z) : Z :=
  match indicators with
  | [] => realismScore
  | (R, w) :: rest =>
      if fst (regexp_test R 0 s)
      then check_indicators rest s (realismScore + w)%Z
      else check_indicators rest s realismScore
  end.

(** [Math.round] on a value that is an integer already. *)
Definition Math_round (z : Z) : Z := z.

Definition analyzePrompt (prompt : jsval) : M AnalysisResult :=
  r <- check_patterns AI_PRONE_PATTERNS prompt [] 0%Z ;;
  let '(issues, aiScore) := r in
  let realismScore := check_indicators REALISM_INDICATORS (ToString prompt) 0%Z in
  let rawScore := Z.max 0 (aiScore - realismScore) in
  let normalizedScore := Z.min 100 (Math_round (rawScore * 5)) in
  ret (mkAnalysis normalizedScore aiScore realismScore issues (length issues)).

(** ** modifiers.js *)

Definition initial_arrays (t : Table) : list jsstring :=
  map js
    match t with
    | CAMERAS_film =>
        ["shot on 35mm film"; "shot on Kodak Portra 400"; "shot on Kodak Ektar 100";
         "shot on Fuji Pro 400H"; "shot on Ilford HP5"; "shot on Kodak Tri-X 400";
         "shot on Cinestill 800T"; "vintage Polaroid"; "instant film photograph";
         "disposable camera photo"]
    | CAMERAS_professional =>
        ["shot on Leica M6"; "shot on Hasselblad 500C"; "shot on Contax T2";
         "shot on Mamiya RB67"; "shot on Canon AE-1"; "shot on Nikon FM2";
         "shot on Pentax K1000"; "medium format film"; "large format photograph"]
    | CAMERAS_modern =>
        ["shot on iPhone"; "smartphone photo"; "DSLR photograph"; "mirrorless camera";
         "point and shoot camera"]
    | LENSES =>
        ["35mm lens"; "50mm f/1.4"; "50mm f/1.8"; "85mm portrait lens"; "24mm wide angle";
         "135mm telephoto"; "f/2.8 aperture"; "f/1.4 shallow depth of field";
         "wide open aperture"; "bokeh background"; "tilt-shift lens";
         "vintage lens with character"]
    | LIGHTING_natural =>
        ["golden hour light"; "blue hour"; "harsh midday sun"; "overcast soft light";
         "window light"; "dappled sunlight through trees"; "backlit silhouette";
         "side lighting"; "natural ambient light"; "cloudy day diffused light"]
    | LIGHTING_artificial =>
        ["single bare bulb"; "fluorescent office lighting"; "tungsten warm light";
         "neon sign glow"; "streetlight at night"; "mixed color temperature";
         "practical lights in frame"; "flash photography"; "harsh camera flash";
         "ring light catchlights"]
    | LIGHTING_moody =>
        ["low key lighting"; "chiaroscuro"; "Rembrandt lighting"; "dramatic shadows";
         "rim light"; "lens flare"; "light leak"]
    | IMPERFECTIONS_film =>
        ["film grain"; "subtle noise"; "light leaks"; "dust and scratches";
         "slight overexposure"; "underexposed shadows"; "color shift"; "halation";
         "vignette"]
    | IMPERFECTIONS_focus =>
        ["slight motion blur"; "soft focus"; "out of focus background";
         "shallow depth of field"; "slightly out of focus"; "focus falloff";
         "subject blur from movement"]
    | IMPERFECTIONS_physical =>
        ["lens distortion"; "chromatic aberration"; "barrel distortion";
         "vintage lens flaws"; "soft corners"; "coma"]
    | IMPERFECTIONS_surface =>
        ["worn surfaces"; "weathered"; "scratched"; "faded colors"; "dusty"; "dirty";
         "water stains"; "patina"; "rust"; "peeling paint"]
    | HUMAN_DETAILS =>
        ["visible pores"; "skin texture"; "natural wrinkles"; "laugh lines"; "freckles";
         "moles"; "under-eye circles"; "stray hairs"; "asymmetric features";
         "natural skin tone variation"; "subtle redness"; "visible veins"; "chapped lips";
         "sweat"; "goosebumps"]
    | COMPOSITION_natural =>
        ["off-center composition"; "rule of thirds"; "negative space"; "candid framing";
         "environmental portrait"; "unposed"; "caught in the moment"; "documentary style";
         "street photography"]
    | COMPOSITION_angles =>
        ["eye level"; "slightly below eye level"; "three-quarter view"; "profile view";
         "over the shoulder"; "from behind"; "birds eye view"; "worms eye view"]
    | COMPOSITION_distance =>
        ["close-up"; "medium shot"; "full body"; "wide establishing shot";
         "intimate distance"; "personal space"]
    | ENVIRONMENT_clutter =>
        ["cluttered background"; "messy desk"; "lived-in space"; "papers scattered";
         "coffee cups"; "personal belongings visible"; "everyday objects"; "natural mess"]
    | ENVIRONMENT_atmosphere =>
        ["hazy atmosphere"; "dusty air"; "steam"; "smoke"; "fog"; "rain";
         "condensation on windows"; "breath visible in cold"]
    | ENVIRONMENT_time =>
        ["early morning"; "late afternoon"; "dusk"; "middle of the night"; "rush hour";
         "quiet Sunday morning"]
    | STYLES =>
        ["documentary photography"; "street photography"; "photojournalism";
         "candid photography"; "snapshot aesthetic"; "vernacular photography";
         "found footage look"; "surveillance camera"; "paparazzi shot";
         "family album photo"; "yearbook photo"; "passport photo"; "ID photo";
         "amateur photography"]
    end.

(** The store of a freshly loaded program. *)
Definition fresh (chance : list nat) : Store :=
  mkStore (fun _ => 0) initial_arrays chance.

(** What [getRandomModifiers] can be handed: one of the arrays; a category
    object (the arrays it holds, in key order); [null], whose [typeof] is
    ['object'] as well; or a value whose [typeof] is not ['object']
    ([undefined], a Boolean, a Number, a string, a function).  Objects other
    than the category objects of [modifiers.js] are left out. *)
Inductive Category : Type :=
| CatArray (t : Table)
| CatObject (ts : list Table)
| CatNull
| CatOther.

Definition CAMERAS : Category :=
  CatObject [CAMERAS_film; CAMERAS_professional; CAMERAS_modern].
Definition LIGHTING : Category :=
  CatObject [LIGHTING_natural; LIGHTING_artificial; LIGHTING_moody].
Definition IMPERFECTIONS : Category :=
  CatObject [IMPERFECTIONS_film; IMPERFECTIONS_focus; IMPERFECTIONS_physical;
             IMPERFECTIONS_surface].
Definition COMPOSITION : Category :=
  CatObject [COMPOSITION_natural; COMPOSITION_angles; COMPOSITION_distance].

Fixpoint take_at {A : Type} (i : nat) (l : list A) : option (A * list A) :=
  match l, i with
  | [], _ => None
  | x :: l', 0 => Some (x, l')
  | x :: l', S j =>
      match take_at j l' with
      | Some (y, r) => Some (y, x :: r)
      | None => None
      end
  end.

Fixpoint arrange {A : Type} (n code : nat) (l : list A) : list A :=
  match n with
  | 0 => l
  | S n' =>
      match take_at (code mod S n') l with
      | Some (x, r) => x :: arrange n' (code / S n') r
      | None => l
      end
  end.

(** [items.sort(() => 0.5 - Math.random())].  The comparator answers at
    random, so the order the sort ends in is up to the engine and the
    draws; one entry of [chance] stands for the whole outcome and is read
    as the code of a rearrangement (entry 0 leaves the order alone, and
    every rearrangement has a code). *)
Definition sort_random (code : nat) (items : list jsstring) : list jsstring :=
  arrange (length items) code items.

Definition get_array (t : Table) : M (list jsstring) :=
  fun st => (Normal (arrays st t), st).

Definition put_array (t : Table) (items : list jsstring) : M unit :=
  fun st => (Normal tt, set_array t items st).

(** [getRandomModifiers(category, count)].  For an array argument [items]
    is the array itself, and [sort] works in place: the sorted order is
    written back to the table.  For a category object [flat()] builds a new
    array, and the tables stay as they are.  For [null] the test
    [typeof category === 'object'] holds too, and [Object.values(null)]
    throws. *)
Definition getRandomModifiers (category : Category) (count : nat) : M (list jsstring) :=
  match category with
  | CatArray t =>
      items <- get_array t ;;
      code <- draw ;;
      let shuffled := sort_random code items in
      _ <- put_array t shuffled ;;
      ret (firstn count shuffled)
  | CatObject ts =>
      st_items <- (fun st => (Normal (flat_map (arrays st) ts), st)) ;;
      code <- draw ;;
      let shuffled := sort_random code st_items in
      ret (firstn count shuffled)
  | CatNull => throw (TypeError "Cannot convert undefined or null to object")
  | CatOther => ret []
  end.

(** ** transformer.js *)

Definition hasHumanSubject (prompt : jsstring) : bool :=
  fst (regexp_test
         (re_i (bounded (words ["woman"; "man"; "person"; "girl"; "boy"; "child";
                                "people"; "portrait"; "face"; "model"; "figure"])))
         0 prompt).

(** [\b(...)\b,?\s*] with flags [gi]. *)
Definition removal (body : regex) : RegExp :=
  re_gi (Bnd >> body >> Bnd >> Opt (Chr 44) >> Star is_space)%re.

Definition commas : RegExp := re_g (Chr 44 >> Star is_space >> Chr 44)%re.
Definition spaces : RegExp := re_g (plus is_space).
Definition edges : RegExp :=
  re_g (Alt (Bol >> plus is_comma_or_space) (plus is_comma_or_space >> Eol))%re.

Definition cleanPrompt (prompt : jsstring) : jsstring :=
  let cleaned := prompt in
  (* Remove resolution spam *)
  let cleaned := replace_all (removal resolution_words) [] cleaned in
  (* Remove trending/platform tags *)
  let cleaned := replace_all (removal platform_words) [] cleaned in
  (* Remove hyper-realistic traps *)
  let cleaned := replace_all (removal realistic_words) [] cleaned in
  (* Remove overused beauty modifiers *)
  let cleaned := replace_all (removal beauty_words) [] cleaned in
  (* Remove generic lighting terms *)
  let cleaned := replace_all (removal lighting_words) [] cleaned in
  (* Clean up multiple commas and spaces *)
  let cleaned := replace_all commas (js ",") cleaned in
  let cleaned := replace_all spaces (js " ") cleaned in
  let cleaned := replace_all edges [] cleaned in
  cleaned.

(** [s.replace(R, callback)] for a global [R]: the callback runs once per
    match, from left to right. *)
Fixpoint render_with (callback : jsstring -> M jsstring) (segs : list segment)
  : M jsstring :=
  match segs with
  | [] => ret []
  | Keep c :: rest =>
      out <- render_with callback rest ;;
      ret (c :: out)
  | Hit matched :: rest =>
      text <- callback matched ;;
      out <- render_with callback rest ;;
      ret (text ++ out)
  end.

Definition replace_with (R : RegExp) (callback : jsstring -> M jsstring)
    (s : jsstring) : M jsstring :=
  render_with callback (scan R s).

(** [list[Math.floor(Math.random() * list.length)]] *)
Definition pick (options : list string) : M jsstring :=
  i <- random_index (length options) ;;
  ret (js (nth i options EmptyString)).

Definition ages : list string :=
  ["in her 30s"; "in his 40s"; "middle-aged"; "elderly"; "young adult"].
Definition details : list string :=
  ["with visible laugh lines"; "with weathered hands"; "with tired eyes";
   "with an asymmetric smile"].
Definition types : list string :=
  ["a tired office worker"; "a weathered farmer"; "a distracted commuter";
   "a street vendor"; "someone caught mid-thought"].

Definition generic_woman_man : RegExp :=
  re_gi (Bnd >> (lit "a " >> words ["woman"; "man"]) >> Bnd
         >> NegLA (lit " " >> words ["with"; "wearing"; "holding"; "in"; "who";
                                     "aged"; "around"]))%re.

Definition generic_person : RegExp :=
  re_gi (Bnd >> lit "a person" >> Bnd
         >> NegLA (lit " " >> words ["with"; "wearing"; "holding"; "in"; "who"]))%re.

(** The callback of the first replacement.  Its second argument, the text
    of group 1, is the match without the two code units of [a ]. *)
Definition describe_subject (matched : jsstring) : M jsstring :=
  let subject := skipn 2 matched in
  age <- pick ages ;;
  detail <- pick details ;;
  ret (js "a " ++ subject ++ js " " ++ age ++ js " " ++ detail).

Definition enhanceSubject (prompt : jsstring) : M jsstring :=
  let enhanced := prompt in
  (* Enhance generic woman/man *)
  enhanced <- replace_with generic_woman_man describe_subject enhanced ;;
  (* Enhance generic person *)
  enhanced <- replace_with generic_person (fun _ => pick types) enhanced ;;
  ret enhanced.

Definition locationEnhancements : list (string * list string) :=
  [ ("coffee shop",
     ["a worn wooden table at a busy coffee shop with steamed windows";
      "a quiet corner of a cluttered independent coffee shop";
      "a formica counter at a 24-hour diner"]);
    ("office",
     ["a fluorescent-lit cubicle with papers everywhere";
      "a messy home office with coffee rings on the desk";
      "a sterile open-plan office with harsh lighting"]);
    ("street",
     ["a rain-slicked city street at dusk";
      "a sun-bleached sidewalk in midday heat";
      "a busy crosswalk during rush hour"]);
    ("park",
     ["a patchy grass park with worn benches";
      "an overgrown corner of an urban park";
      "a muddy path through a city park after rain"]) ].

(** [new RegExp(`\\b(in a|at a|at the) ${generic}\\b`, 'gi')] *)
Definition location_regex (generic : string) : RegExp :=
  re_gi (bounded (words ["in a"; "at a"; "at the"] >> lit " " >> lit generic)%re).

(** The loop of [enhanceLocation], with its [break] after the first family
    that is found. *)
Fixpoint enhance_families (entries : list (string * list string)) (enhanced : jsstring)
  : M jsstring :=
  match entries with
  | [] => ret enhanced
  | (generic, specifics) :: rest =>
      let regex := location_regex generic in
      if fst (regexp_test regex 0 enhanced) then
        specific <- pick specifics ;;
        ret (replace_all regex (js "at " ++ specific) enhanced)
      else enhance_families rest enhanced
  end.

Definition enhanceLocation (prompt : jsstring) : M jsstring :=
  enhance_families locationEnhancements prompt.

(** [array.filter(Boolean)] on an array of strings and [undefined]s. *)
Fixpoint filter_Boolean (parts : list (option jsstring)) : list jsstring :=
  match parts with
  | [] => []
  | Some (c :: s) :: rest => (c :: s) :: filter_Boolean rest
  | _ :: rest => filter_Boolean rest
  end.

(** [getRandomModifiers(category, 1)[0]] *)
Definition first_modifier (category : Category) : M (option jsstring) :=
  chosen <- getRandomModifiers category 1 ;;
  ret (nth_error chosen 0).

Definition default (value : option jsstring) (d : string) : jsstring :=
  match value with Some v => v | None => js d end.

Definition buildTechnicalModifiers (style mood : option jsstring)
  : M (list jsstring) :=
  let style := default style "film" in
  let mood := default mood "natural" in
  (* Camera/film stock *)
  camera <-
    (if jsstring_eqb style (js "film") then first_modifier (CatArray CAMERAS_film)
     else if jsstring_eqb style (js "digital") then first_modifier (CatArray CAMERAS_modern)
     else ret (Some (js "smartphone photo"))) ;;
  (* Lens (not for phone) *)
  lens <-
    (if negb (jsstring_eqb style (js "phone"))
     then (l <- first_modifier (CatArray LENSES) ;; ret [l])
     else ret []) ;;
  (* Lighting based on mood *)
  lighting <-
    (if jsstring_eqb mood (js "moody") then first_modifier (CatArray LIGHTING_moody)
     else if jsstring_eqb mood (js "harsh") then first_modifier (CatArray LIGHTING_artificial)
     else first_modifier (CatArray LIGHTING_natural)) ;;
  ret (filter_Boolean ([camera] ++ lens ++ [lighting])).

Definition buildImperfections (intensity : option jsstring) : M (list jsstring) :=
  let intensity := default intensity "medium" in
  let count :=
    if jsstring_eqb intensity (js "high") then 3
    else if jsstring_eqb intensity (js "low") then 1 else 2 in
  film <- getRandomModifiers (CatArray IMPERFECTIONS_film) 1 ;;
  focus <-
    (if Nat.leb 2 count then getRandomModifiers (CatArray IMPERFECTIONS_focus) 1
     else ret []) ;;
  surface <-
    (if Nat.leb 3 count then getRandomModifiers (CatArray IMPERFECTIONS_surface) 1
     else ret []) ;;
  ret (film ++ focus ++ surface).

Record Options : Type := mkOptions {
  style : option jsstring;
  mood : option jsstring;
  imperfectionLevel : option jsstring;
  preserveOriginal : option bool
}.

Record TransformResult : Type := mkTransform {
  original : jsstring;
  transformed : jsstring;
  originalScore : Z;
  newScore : Z;
  improvement : Z;
  issuesFixed : list string;
  modifiersAdded : list jsstring
}.

(** Strings have [replace]; the other values of [jsval] do not. *)
Definition no_replace_method (v : jsval) : Error :=
  match v with
  | VUndefined => TypeError "Cannot read properties of undefined (reading 'replace')"
  | VNull => TypeError "Cannot read properties of null (reading 'replace')"
  | _ => TypeError "cleaned.replace is not a function"
  end.

Definition nonempty (s : jsstring) : bool :=
  match s with [] => false | _ :: _ => true end.

Definition transformPrompt (prompt : jsval) (options : Options) : M TransformResult :=
  let style := default (style options) "film" in
  let mood := default (mood options) "natural" in
  let imperfectionLevel := default (imperfectionLevel options) "medium" in
  let preserveOriginal :=
    match preserveOriginal options with Some b => b | None => false end in
  (* Analyze original *)
  analysis <- analyzePrompt prompt ;;
  match prompt with
  | VString text =>
      (* Start with cleaned prompt *)
      let transformed := if preserveOriginal then text else cleanPrompt text in
      (* Enhance subjects and locations *)
      let isHuman := hasHumanSubject text in
      transformed <- enhanceSubject transformed ;;
      transformed <- enhanceLocation transformed ;;
      (* Build modifier sections *)
      technical <- buildTechnicalModifiers (Some style) (Some mood) ;;
      imperfections <- buildImperfections (Some imperfectionLevel) ;;
      composition <- getRandomModifiers (CatArray COMPOSITION_natural) 1 ;;
      (* Add human details if applicable *)
      humanDetails <-
        (if isHuman then getRandomModifiers (CatArray HUMAN_DETAILS) 2 else ret []) ;;
      (* Combine everything *)
      let allModifiers :=
        filter nonempty (technical ++ imperfections ++ composition ++ humanDetails) in
      (* Build final prompt *)
      let finalPrompt := join (js ", ") (transformed :: allModifiers) in
      (* Analyze transformed prompt *)
      newAnalysis <- analyzePrompt (VString finalPrompt) ;;
      ret (mkTransform text finalPrompt (score analysis) (score newAnalysis)
             (score analysis - score newAnalysis)%Z
             (map Issue.name (issues analysis)) allModifiers)
  | _ => throw (no_replace_method prompt)
  end.

Definition no_options : Options := mkOptions None None None None.

Definition humanize (prompt : jsval) : M jsstring :=
  result <- transformPrompt prompt no_options ;;
  ret (transformed result).

Record Suggestions : Type := mkSuggestions {
  suggested_issues : list Issue.t;
  suggested_score : Z;
  camera : list jsstring;
  lighting : list jsstring;
  imperfections : list jsstring;
  composition : list jsstring;
  humanDetails : option (list jsstring)
}.

Definition getSuggestions (prompt : jsval) : M Suggestions :=
  analysis <- analyzePrompt prompt ;;
  let isHuman := hasHumanSubject (ToString prompt) in
  camera <- getRandomModifiers (CatArray CAMERAS_film) 2 ;;
  lighting <- getRandomModifiers (CatArray LIGHTING_natural) 2 ;;
  imperfections <- getRandomModifiers (CatArray IMPERFECTIONS_film) 2 ;;
  composition <- getRandomModifiers (CatArray COMPOSITION_natural) 2 ;;
  humanDetails <-
    (if isHuman
     then (h <- getRandomModifiers (CatArray HUMAN_DETAILS) 3 ;; ret (Some h))
     else ret None) ;;
  ret (mkSuggestions (issues analysis) (score analysis)
         camera lighting imperfections composition humanDetails).

(** ** Vocabulary of the statements *)

(** Whether a rule matches a prompt when the call starts in store [st]:
    every rule has a RegExp object of its own, so all that matters of the
    store is the [lastIndex] filed under the rule's id. *)
Definition fired (st : Store) (prompt : jsval) (pattern : Pattern.t) : bool :=
  match fst (run_matcher pattern prompt st) with
  | Normal b => b
  | Throw _ => false
  end.

Definition indicated (s : jsstring) (indicator : RegExp * Z) : bool :=
  fst (regexp_test (fst indicator) 0 s).

Definition sum (ws : list Z) : Z := fold_right Z.add 0%Z ws.

(** The rules before the first one whose predicate throws on [v] are all
    pattern rules. *)
Inductive throws_on (v : jsval) (e : Error) : list Pattern.t -> Prop :=
| throws_here pattern rest detect :
    Pattern.matcher pattern = Detect detect ->
    detect v = Throw e ->
    throws_on v e (pattern :: rest)
| throws_later pattern rest R :
    Pattern.matcher pattern = Regex R ->
    throws_on v e rest ->
    throws_on v e (pattern :: rest).

(** A computation that completes normally from every store that satisfies
    [Pre], with a result and a final store that satisfy [Post]. *)
Definition returns {A : Type} (Pre : Store -> Prop) (c : M A)
    (Post : A -> Store -> Prop) : Prop :=
  forall st, Pre st -> exists a st', c st = (Normal a, st') /\ Post a st'.

(** The tables hold the phrases they were loaded with, in some order. *)
Definition vocabulary_kept (st : Store) : Prop :=
  forall t, Permutation (arrays st t) (initial_arrays t).

(** The store one call of [analyzePrompt] leaves behind. *)
Definition store_after (prompt : string) : Store :=
  snd (analyzePrompt (VString (js prompt)) (fresh [])).

(** The output of a replacement by callback: every kept character stays,
    every match gives way to a text the callback may answer for it. *)
Inductive Rendered (answer : jsstring -> jsstring -> Prop)
  : list segment -> jsstring -> Prop :=
| Rendered_nil : Rendered answer [] []
| Rendered_keep c rest out :
    Rendered answer rest out -> Rendered answer (Keep c :: rest) (c :: out)
| Rendered_hit matched text rest out :
    answer matched text ->
    Rendered answer rest out ->
    Rendered answer (Hit matched :: rest) (text ++ out).

(** The texts the two callbacks of [enhanceSubject] can answer. *)
Definition subject_answer (matched text : jsstring) : Prop :=
  exists age detail,
    In age ages /\ In detail details
    /\ text = js "a " ++ skipn 2 matched ++ js " " ++ js age ++ js " " ++ js detail.

Definition person_answer (matched text : jsstring) : Prop :=
  exists type, In type types /\ text = js type.

(** What [enhanceLocation] can return: the text as it is, or the text with
    one family of locations replaced by one of its alternatives. *)
Definition location_enhanced (text out : jsstring) : Prop :=
  out = text
  \/ exists generic specifics specific,
       In (generic, specifics) locationEnhancements /\ In specific specifics
       /\ out = replace_all (location_regex generic) (js "at " ++ js specific) text.

(** What [enhanceSubject] can return, whatever the draws. *)
Definition subject_enhanced (text out : jsstring) : Prop :=
  exists with_subject,
    Rendered subject_answer (scan generic_woman_man text) with_subject
    /\ Rendered person_answer (scan generic_person with_subject) out.

(** [enhanceSubject] then [enhanceLocation]. *)
Definition enhanced_from (text out : jsstring) : Prop :=
  exists with_person,
    subject_enhanced text with_person /\ location_enhanced with_person out.

(** The phrases [buildTechnicalModifiers] can return. *)
Definition technical_vocabulary : list jsstring :=
  flat_map initial_arrays
    [CAMERAS_film; CAMERAS_modern; LENSES;
     LIGHTING_natural; LIGHTING_artificial; LIGHTING_moody]
  ++ [js "smartphone photo"].



(** The value of [count] in [buildImperfections]. *)
Definition imperfection_count (intensity : jsstring) : nat :=
  if jsstring_eqb intensity (js "high") then 3
  else if jsstring_eqb intensity (js "low") then 1 else 2.

(** One film phrase; from count 2 on a focus phrase; from 3 on a surface
    phrase. *)
Definition imperfections_for (count : nat) (phrases : list jsstring) : Prop :=
  exists film focus surface,
    In film (initial_arrays IMPERFECTIONS_film)
    /\ In focus (initial_arrays IMPERFECTIONS_focus)
    /\ In surface (initial_arrays IMPERFECTIONS_surface)
    /\ phrases = [film] ++ (if Nat.leb 2 count then [focus] else [])
                       ++ (if Nat.leb 3 count then [surface] else []).

Definition resolved_preserve (options : Options) : bool :=
  match preserveOriginal options with Some b => b | None => false end.

Definition resolved_level (options : Options) : jsstring :=
  default (imperfectionLevel options) "medium".

(** A call that returns from every store whose tables are intact, leaves
    them intact, and answers with a value that satisfies [Q]. *)
Definition yields {A : Type} (c : M A) (Q : A -> Prop) : Prop :=
  returns vocabulary_kept c (fun a st' => vocabulary_kept st' /\ Q a).

Definition with_mood (m : option jsstring) (options : Options) : Options :=
  mkOptions (style options) m (imperfectionLevel options) (preserveOriginal options).

Definition with_level (l : option jsstring) (options : Options) : Options :=
  mkOptions (style options) (mood options) l (preserveOriginal options).

(** Every phrase the transformer can append. *)
Definition injectable : list jsstring :=
  technical_vocabulary
  ++ flat_map initial_arrays
       [IMPERFECTIONS_film; IMPERFECTIONS_focus; IMPERFECTIONS_surface;
        COMPOSITION_natural; HUMAN_DETAILS].

(** What a call of [transformPrompt] on the string [text] answers. *)
Definition transform_post (text : jsstring) (options : Options) (r : TransformResult)
  : Prop :=
  original r = text
  /\ exists base technical imps comp human,
       enhanced_from (if resolved_preserve options then text else cleanPrompt text) base
       /\ Forall (fun phrase => In phrase technical_vocabulary) technical
       /\ imperfections_for (imperfection_count (resolved_level options)) imps
       /\ (exists c, comp = [c] /\ In c (initial_arrays COMPOSITION_natural))
       /\ (forall phrase, In phrase human -> In phrase (initial_arrays HUMAN_DETAILS))
       /\ length human = (if hasHumanSubject text then 2 else 0)
       /\ modifiersAdded r = technical ++ imps ++ comp ++ human
       /\ transformed r = join (js ", ") (base :: modifiersAdded r).

(** On a string no rule throws: the pattern rules test it, and the three
    predicates go through [match] and [test], which strings have. *)
Definition string_safe (pattern : Pattern.t) : Prop :=
  match Pattern.matcher pattern with
  | Regex _ => True
  | Detect d => forall s, exists b, d (VString s) = Normal b
  end.

Ltac table_nonempty := let H := fresh in intros H; discriminate H.

Arguments initial_arrays : simpl never.
Arguments AI_PRONE_PATTERNS : simpl never.
Arguments REALISM_INDICATORS : simpl never.
Arguments locationEnhancements : simpl never.

(** ** What a match looks like *)

(** The code unit before the position reached after reading [w]. *)
Definition last_of (prev : option N) (w : jsstring) : option N :=
  fold_left (fun _ c => Some c) w prev.

(** [Matches ic r prev w rest]: the pattern [r] can consume exactly [w]
    when [prev] is the code unit before it and [rest] the input after it.
    (What a lookahead looks at is not recorded: it consumes nothing.) *)
Fixpoint Matches (ic : bool) (r : regex) (prev : option N) (w rest : jsstring) : Prop :=
  match r with
  | Eps => w = []
  | Chr p => exists c, w = [c] /\ char_eqb ic p c = true
  | Cls f => exists c, w = [c] /\ f c = true
  | Seq a b =>
      exists w1 w2,
        w = w1 ++ w2
        /\ Matches ic a prev w1 (w2 ++ rest)
        /\ Matches ic b (last_of prev w1) w2 rest
  | Alt a b => Matches ic a prev w rest \/ Matches ic b prev w rest
  | Opt a => Matches ic a prev w rest \/ w = []
  | Star f => forallb f w = true
  | Bnd => w = [] /\ xorb (word_before prev) (word_after rest) = true
  | Bol => w = [] /\ prev = None
  | Eol => w = [] /\ rest = []
  | NegLA _ => w = []
  end.

(** Every match begins with a word character. *)
Fixpoint first_word (r : regex) : bool :=
  match r with
  | Chr p => is_word p
  | Seq a _ => first_word a
  | Alt a b => first_word a && first_word b
  | _ => false
  end.

(** Every match ends with a word character. *)
Fixpoint last_word (r : regex) : bool :=
  match r with
  | Chr p => is_word p
  | Seq _ b => last_word b
  | Alt a b => last_word a && last_word b
  | _ => false
  end.

Definition is_letter (c : N) : bool := in_range 65 90 c || in_range 97 122 c.

(** Every match is made of letters. *)
Fixpoint letters (r : regex) : bool :=
  match r with
  | Chr p => is_letter p
  | Seq a b => letters a && letters b
  | Alt a b => letters a && letters b
  | _ => false
  end.

(** What may follow the body of a pattern [\b body ...]: a boundary at its
    start, and nothing consumed but commas and white space. *)
Definition tail_ok (tail : regex) : Prop :=
  forall ic prev w rest,
    Matches ic tail prev w rest ->
    xorb (word_before prev) (word_after (w ++ rest)) = true
    /\ forallb is_comma_or_space w = true.

(** ** The standalone token [8k] *)

(** The text holds [8k] as a word of its own, in either case: what
    [/\b8k\b/i.test(text)] answers. *)
Definition standalone_8k : RegExp := re_i (bounded (lit "8k")).

Definition contains_8k (text : jsstring) : bool :=
  fst (regexp_test standalone_8k 0 text).

Definition is_k (c : N) : bool := N.eqb c 107 || N.eqb c 75.

(** The token starts at the current position. *)
Definition occurs_here (prev : option N) (s : jsstring) : bool :=
  negb (word_before prev)
  && match s with
     | c1 :: c2 :: rest => N.eqb c1 56 && is_k c2 && negb (word_after rest)
     | _ => false
     end.

(** The token starts nowhere from the current position on. *)
Fixpoint clean (prev : option N) (s : jsstring) : Prop :=
  occurs_here prev s = false
  /\ match s with
     | [] => True
     | c :: s' => clean (Some c) s'
     end.

(** Reading a text from left to right while looking for the token. *)
Inductive progress : Type :=
| AtBoundary      (* after a character that is not a word character, or at the start *)
| InWord          (* inside a word that is not the token *)
| SeenEight       (* just read [8] at a boundary *)
| SeenEightK      (* just read [8k] at a boundary *)
| Found.          (* the token has been read, with a boundary after it *)

Definition step (q : progress) (c : N) : progress :=
  match q with
  | Found => Found
  | AtBoundary =>
      if N.eqb c 56 then SeenEight else if is_word c then InWord else AtBoundary
  | InWord => if is_word c then InWord else AtBoundary
  | SeenEight =>
      if is_k c then SeenEightK else if is_word c then InWord else AtBoundary
  | SeenEightK => if is_word c then InWord else Found
  end.

Definition run (q : progress) (s : jsstring) : progress := fold_left step s q.

Definition accepting (q : progress) : bool :=
  match q with
  | SeenEightK | Found => true
  | _ => false
  end.

(** How far the reading of the output has come ([q]), against what is
    left of the input ([s], after the code unit [prev]): the output read
    so far cannot grow into the token. *)
Definition Inv (q : progress) (prev : option N) (s : jsstring) : Prop :=
  match s with
  | [] => accepting q = false
  | c :: rest =>
      match q with
      | AtBoundary => word_before prev = false \/ is_word c = false
      | InWord => word_before prev = true
      | SeenEight =>
          word_before prev = true /\ is_k c && negb (word_after rest) = false
      | SeenEightK => word_before prev = true /\ is_word c = true
      | Found => False
      end
  end.

(** The reading state that goes with a position of a text. *)
Definition tracks (q : progress) (prev : option N) : Prop :=
  match q with
  | AtBoundary => word_before prev = false
  | Found => False
  | _ => word_before prev = true
  end.

(** The text does not hold the token. *)
Definition token_free (text : jsstring) : Prop :=
  accepting (run AtBoundary text) = false.

(** The text reads as words of which the last is not the token. *)
Definition reads_as_words (text : jsstring) : bool :=
  match run AtBoundary text with InWord => true | _ => false end.

(** ** Vocabulary of further statements *)

(** The rules whose RegExp carries the [g] flag. *)
Definition is_global_rule (pattern : Pattern.t) : bool :=
  match Pattern.matcher pattern with
  | Regex R => global R
  | Detect _ => false
  end.

Definition global_rule_ids : list string :=
  map Pattern.id (filter is_global_rule AI_PRONE_PATTERNS).

(** Whether a rule matches a prompt, as a property of the text alone: the
    pattern of the rule has a match somewhere in it, or the predicate of the
    rule answers [true] for it.  No [lastIndex] is read. *)
Definition matches_text (s : jsstring) (pattern : Pattern.t) : bool :=
  match Pattern.matcher pattern with
  | Regex R =>
      match search (ignoreCase R) (source R) None s with
      | Some _ => true
      | None => false
      end
  | Detect detect =>
      match detect (VString s) with
      | Normal b => b
      | Throw _ => false
      end
  end.

(** The rules that come before [style-stacking] in the table; all eight
    are pattern rules. *)
Definition rules_before_style_stacking : list Pattern.t :=
  firstn 8 AI_PRONE_PATTERNS.

(** A pattern without lookahead. *)
Fixpoint lookahead_free (r : regex) : bool :=
  match r with
  | NegLA _ => false
  | Seq a b | Alt a b => lookahead_free a && lookahead_free b
  | Opt a => lookahead_free a
  | _ => true
  end.

(** The rules that report a phrase [cleanPrompt] has a removal for, and
    the word lists they share with it, in the order of the removals. *)
Definition removable_rule_ids : list string :=
  ["8k-4k"; "trending-artstation"; "hyper-realistic"; "beautiful-modifier";
   "cinematic-lighting"].

Definition removable_words : list regex :=
  [resolution_words; platform_words; realistic_words; beauty_words; lighting_words].

(** ** More of modifiers.js *)

(** No phrase occurs twice. *)
Fixpoint distinctb (l : list jsstring) : bool :=
  match l with
  | [] => true
  | x :: rest => negb (existsb (jsstring_eqb x) rest) && distinctb rest
  end.

(** The options of [getBalancedModifiers]; a field left out is [None]. *)
Record BalancedOptions : Type := mkBalanced {
  includeCamera : option bool;
  includeLighting : option bool;
  includeImperfections : option bool;
  includeComposition : option bool;
  humanSubject : option bool
}.

Definition flag (value : option bool) (d : bool) : bool :=
  match value with Some b => b | None => d end.

(** [getBalancedModifiers(options)] of [modifiers.js]. *)
Definition getBalancedModifiers (options : BalancedOptions) : M (list jsstring) :=
  let includeCamera := flag (includeCamera options) true in
  let includeLighting := flag (includeLighting options) true in
  let includeImperfections := flag (includeImperfections options) true in
  let includeComposition := flag (includeComposition options) true in
  let humanSubject := flag (humanSubject options) false in
  let modifiers := [] in
  modifiers <-
    (if includeCamera then
       film <- getRandomModifiers (CatArray CAMERAS_film) 1 ;;
       lens <- getRandomModifiers (CatArray LENSES) 1 ;;
       ret (modifiers ++ film ++ lens)
     else ret modifiers) ;;
  modifiers <-
    (if includeLighting then
       light <- getRandomModifiers (CatArray LIGHTING_natural) 1 ;;
       ret (modifiers ++ light)
     else ret modifiers) ;;
  modifiers <-
    (if includeImperfections then
       film <- getRandomModifiers (CatArray IMPERFECTIONS_film) 1 ;;
       focus <- getRandomModifiers (CatArray IMPERFECTIONS_focus) 1 ;;
       ret (modifiers ++ film ++ focus)
     else ret modifiers) ;;
  modifiers <-
    (if includeComposition then
       comp <- getRandomModifiers (CatArray COMPOSITION_natural) 1 ;;
       ret (modifiers ++ comp)
     else ret modifiers) ;;
  modifiers <-
    (if humanSubject then
       human <- getRandomModifiers (CatArray HUMAN_DETAILS) 2 ;;
       ret (modifiers ++ human)
     else ret modifiers) ;;
  ret modifiers.

(** One phrase of a table. *)
Definition one_of (t : Table) (chosen : list jsstring) : Prop :=
  exists phrase, chosen = [phrase] /\ In phrase (initial_arrays t).

(** The table [buildTechnicalModifiers] takes the camera phrase from, if
    any, and the one it takes the lighting phrase from. *)
Definition camera_table (style : jsstring) : option Table :=
  if jsstring_eqb style (js "film") then Some CAMERAS_film
  else if jsstring_eqb style (js "digital") then Some CAMERAS_modern
  else None.

Definition lighting_table (mood : jsstring) : Table :=
  if jsstring_eqb mood (js "moody") then LIGHTING_moody
  else if jsstring_eqb mood (js "harsh") then LIGHTING_artificial
  else LIGHTING_natural.

Definition is_human_detail (phrase : jsstring) : bool :=
  existsb (jsstring_eqb phrase) (initial_arrays HUMAN_DETAILS).

(** [n] different phrases of a table. *)
Definition distinct_of (t : Table) (n : nat) (chosen : list jsstring) : Prop :=
  NoDup chosen /\ length chosen = n
  /\ forall phrase, In phrase chosen -> In phrase (initial_arrays t).

(** ** The steps of a transformation *)

(** A computation that leaves the RegExp objects of the rules alone. *)
Definition rules_untouched {A : Type} (c : M A) : Prop :=
  forall st, lastIndex (snd (c st)) = lastIndex st.

(** The tables hold their phrases and the RegExp objects are in the state
    [li]. *)
Definition tracked (li : string -> nat) (st : Store) : Prop :=
  vocabulary_kept st /\ lastIndex st = li.

(** What [buildTechnicalModifiers] answers for a style and a mood: a camera
    phrase, a lens phrase unless the style is [phone], a lighting phrase. *)
Definition technical_for (style mood : jsstring) (parts : list jsstring) : Prop :=
  exists camera lens lighting,
    match camera_table style with
    | Some t => In camera (initial_arrays t)
    | None => camera = js "smartphone photo"
    end
    /\ In lens (initial_arrays LENSES)
    /\ In lighting (initial_arrays (lighting_table mood))
    /\ parts = [camera] ++ (if jsstring_eqb style (js "phone") then [] else [lens])
                        ++ [lighting].

(** The human details of [transformPrompt]: two different phrases for a
    prompt with a human subject, none otherwise. *)
Definition human_details_for (text : jsstring) (human : list jsstring) : Prop :=
  NoDup human
  /\ (forall phrase, In phrase human -> In phrase (initial_arrays HUMAN_DETAILS))
  /\ length human = if hasHumanSubject text then 2 else 0.

(** The sections of [modifiersAdded], in the order of the code. *)
Definition transform_layout (text : jsstring) (options : Options) (r : TransformResult)
  : Prop :=
  original r = text
  /\ exists base technical imps comp human,
       enhanced_from (if resolved_preserve options then text else cleanPrompt text) base
       /\ technical_for (default (style options) "film")
                        (default (mood options) "natural") technical
       /\ imperfections_for (imperfection_count (resolved_level options)) imps
       /\ one_of COMPOSITION_natural comp
       /\ human_details_for text human
       /\ modifiersAdded r = technical ++ imps ++ comp ++ human
       /\ transformed r = join (js ", ") (base :: modifiersAdded r).

(** The phrases each section of [modifiersAdded] is drawn from. *)
Definition pools (mood : jsstring) : list (list jsstring) :=
  [ initial_arrays CAMERAS_film ++ initial_arrays CAMERAS_modern;
    initial_arrays LENSES;
    initial_arrays (lighting_table mood);
    initial_arrays IMPERFECTIONS_film;
    initial_arrays IMPERFECTIONS_focus;
    initial_arrays IMPERFECTIONS_surface;
    initial_arrays COMPOSITION_natural;
    initial_arrays HUMAN_DETAILS ].

(** ** What the clean-up steps compute *)

(** The longest prefix of [s] taken from a class, and what follows it. *)
Fixpoint leading (f : N -> bool) (s : jsstring) : jsstring :=
  match s with
  | c :: s' => if f c then c :: leading f s' else []
  | [] => []
  end.

Fixpoint after_leading (f : N -> bool) (s : jsstring) : jsstring :=
  match s with
  | c :: s' => if f c then after_leading f s' else s
  | [] => []
  end.

(** Every run of white space as one U+0020; [in_run] tells whether the
    code unit before was white space. *)
Fixpoint squeeze (in_run : bool) (s : jsstring) : jsstring :=
  match s with
  | [] => []
  | c :: s' =>
      if is_space c then (if in_run then squeeze true s' else 32%N :: squeeze true s')
      else c :: squeeze false s'
  end.

(** Without the commas and white space at the end, and at both ends. *)
Fixpoint trim_end (s : jsstring) : jsstring :=
  match s with
  | [] => []
  | c :: s' => if forallb is_comma_or_space (c :: s') then [] else c :: trim_end s'
  end.

Definition trim (s : jsstring) : jsstring :=
  trim_end (after_leading is_comma_or_space s).

(** White space only as single U+0020. *)
Fixpoint single_spaced (in_run : bool) (s : jsstring) : bool :=
  match s with
  | [] => true
  | c :: s' =>
      if is_space c then N.eqb c 32 && negb in_run && single_spaced true s'
      else single_spaced false s'
  end.

(** ** The callers: command line, HTTP server, MCP server *)

(** The badges U+1F7E2, U+1F7E1, U+1F7E0 and U+1F534, as UTF-16. *)
Definition green_circle : jsstring := [55357; 57314]%N.
Definition yellow_circle : jsstring := [55357; 57313]%N.
Definition orange_circle : jsstring := [55357; 57312]%N.
Definition red_circle : jsstring := [55357; 56628]%N.

(** [getBadge(score)] of the command line. *)
Definition getBadge (score : Z) : jsstring :=
  if (score <=? 20)%Z then green_circle
  else if (score <=? 40)%Z then yellow_circle
  else if (score <=? 60)%Z then orange_circle
  else red_circle.

(** [score >= 60 ? ... : score >= 30 ? ... : ...], the badge of the
    [analyze] answers of the HTTP server and of the MCP server. *)
Definition server_badge (score : Z) : jsstring :=
  if (60 <=? score)%Z then red_circle
  else if (30 <=? score)%Z then yellow_circle
  else green_circle.

(** The fields the servers read from a request body or from the arguments
    of a tool call.  [prompt] is any value of [jsval] ([undefined] when the
    field is absent); the three options are strings or absent. *)
Record Fields : Type := mkFields {
  field_prompt : jsval;
  field_style : option jsstring;
  field_mood : option jsstring;
  field_imperfectionLevel : option jsstring
}.

(** [{}] *)
Definition no_fields : Fields := mkFields VUndefined None None None.

(** [value || d] for a value that is a string or absent: the empty string
    is falsy. *)
Definition or_else (value : option jsstring) (d : string) : jsstring :=
  match value with
  | Some (c :: s) => c :: s
  | _ => js d
  end.

(** The options both servers pass to [transformPrompt]. *)
Definition options_of (fields : Fields) : Options :=
  mkOptions (Some (or_else (field_style fields) "film"))
            (Some (or_else (field_mood fields) "natural"))
            (Some (or_else (field_imperfectionLevel fields) "medium"))
            None.

(** ToBoolean. A Number is falsy when it is 0 or NaN. *)
Definition truthy (v : jsval) : bool :=
  match v with
  | VUndefined | VNull => false
  | VBool b => b
  | VNumber rendered =>
      negb (jsstring_eqb rendered (js "0") || jsstring_eqb rendered (js "NaN"))
  | VString s => nonempty s
  end.

Definition message (e : Error) : string :=
  match e with TypeError m => m end.

(** What [json(res, data, status)] sends.  Of an issue the [analyze] answer
    keeps the name ([severity] is [undefined] on every issue and
    [realismIndicators] on every analysis, and [JSON.stringify] leaves
    such fields out). *)
Inductive Payload : Type :=
| ErrorPayload (error : string)
| TransformPayload (original transformed : jsstring)
                   (originalScore newScore improvement : Z)
| AnalysisPayload (score : Z) (badge : jsstring) (issue_names : list string)
| SuggestionsPayload (suggestions : Suggestions).

Record Response : Type := mkResponse {
  status : nat;
  payload : Payload
}.

(** What [parseBody] hands to [handleRequest]: a rejection when
    [JSON.parse] throws; the value [null]; or any other value, of which the
    handler reads the four fields (a Number, a string, a Boolean or an array
    has none of them, and neither has the [{}] of an empty request). *)
Inductive ParsedBody : Type :=
| InvalidJSON
| JsonNull
| JsonFields (fields : Fields).

(** The start of the three routes that read a prompt, inside the [try] of
    [handleRequest]: [const body = await parseBody(req)], then
    [if (!body.prompt) return json(res, ..., 400)].  A rejection of
    [parseBody] and the TypeError of reading [body.prompt] on [null] reach
    the [catch], which answers with status 500 and the message. *)
Definition with_body (parsed : ParsedBody) (st : Store)
    (route : Fields -> Response * Store) : Response * Store :=
  match parsed with
  | InvalidJSON => (mkResponse 500 (ErrorPayload "Invalid JSON"), st)
  | JsonNull =>
      (mkResponse 500
         (ErrorPayload "Cannot read properties of null (reading 'prompt')"), st)
  | JsonFields body =>
      if negb (truthy (field_prompt body))
      then (mkResponse 400 (ErrorPayload "prompt is required"), st)
      else route body
  end.

(** [handleRequest] of the HTTP server on a POST request, from the outcome
    of [parseBody] on.  What the library throws is caught and answered with
    status 500; every path but the three routes is answered with 404, the
    body unread. *)
Definition post (pathname : string) (parsed : ParsedBody) (st : Store)
  : Response * Store :=
  if String.eqb pathname "/api/transform" then
    with_body parsed st (fun body =>
      match transformPrompt (field_prompt body) (options_of body) st with
      | (Normal result, st') =>
          (mkResponse 200
             (TransformPayload (original result) (transformed result)
                (originalScore result) (newScore result) (improvement result)), st')
      | (Throw err, st') => (mkResponse 500 (ErrorPayload (message err)), st')
      end)
  else if String.eqb pathname "/api/analyze" then
    with_body parsed st (fun body =>
      match analyzePrompt (field_prompt body) st with
      | (Normal result, st') =>
          (mkResponse 200
             (AnalysisPayload (score result) (server_badge (score result))
                (map Issue.name (issues result))), st')
      | (Throw err, st') => (mkResponse 500 (ErrorPayload (message err)), st')
      end)
  else if String.eqb pathname "/api/suggest" then
    with_body parsed st (fun body =>
      match getSuggestions (field_prompt body) st with
      | (Normal result, st') => (mkResponse 200 (SuggestionsPayload result), st')
      | (Throw err, st') => (mkResponse 500 (ErrorPayload (message err)), st')
      end)
  else (mkResponse 404 (ErrorPayload "Not found"), st).

(** What [handleTool] of the MCP server returns. *)
Inductive ToolResult : Type :=
| TransformAnswer (original transformed : jsstring)
                  (originalScore newScore improvement : Z)
                  (modifiersAdded : list jsstring)
| AnalysisAnswer (score : Z) (badge : jsstring) (issue_names : list string)
| SuggestionsAnswer (suggestions : Suggestions)
| ModifiersAnswer (listing : list (Table * list jsstring)).

(** What it throws: an error of the library, or its own [new Error]. *)
Inductive Exception : Type :=
| Library (e : Error)
| PlainError (message : string).

Definition message_of (x : Exception) : string :=
  match x with
  | Library e => message e
  | PlainError m => m
  end.

(** The arrays the [modifiers] tool lists ([CAMERAS.vintage] does not
    exist and is left out of the answer). *)
Definition listed_tables : list Table :=
  [CAMERAS_film; CAMERAS_modern; LENSES;
   LIGHTING_natural; LIGHTING_artificial; LIGHTING_moody;
   IMPERFECTIONS_film; IMPERFECTIONS_focus; IMPERFECTIONS_physical;
   IMPERFECTIONS_surface;
   HUMAN_DETAILS;
   COMPOSITION_natural; COMPOSITION_angles; COMPOSITION_distance].

(** [handleTool(name, args)]: no check of [args.prompt]. *)
Definition handleTool (name : string) (args : Fields) (st : Store)
  : (ToolResult + Exception) * Store :=
  if String.eqb name "transform" then
    match transformPrompt (field_prompt args) (options_of args) st with
    | (Normal result, st') =>
        (inl (TransformAnswer (original result) (transformed result)
                (originalScore result) (newScore result) (improvement result)
                (modifiersAdded result)), st')
    | (Throw err, st') => (inr (Library err), st')
    end
  else if String.eqb name "analyze" then
    match analyzePrompt (field_prompt args) st with
    | (Normal result, st') =>
        (inl (AnalysisAnswer (score result) (server_badge (score result))
                (map Issue.name (issues result))), st')
    | (Throw err, st') => (inr (Library err), st')
    end
  else if String.eqb name "suggest" then
    match getSuggestions (field_prompt args) st with
    | (Normal result, st') => (inl (SuggestionsAnswer result), st')
    | (Throw err, st') => (inr (Library err), st')
    end
  else if String.eqb name "modifiers" then
    (inl (ModifiersAnswer (map (fun t => (t, arrays st t)) listed_tables)), st)
  else (inr (PlainError ("Unknown tool: " ++ name)), st).

(** The answer to a [tools/call] message: the result, or a JSON-RPC error
    with code -32000 and the message of what was thrown. *)
Inductive Reply : Type :=
| ResultReply (result : ToolResult)
| ErrorReply (code : Z) (message : string).

(** The [tools/call] branch of [main]; [args || {}]. *)
Definition tools_call (name : string) (args : option Fields) (st : Store)
  : Reply * Store :=
  match handleTool name (match args with Some a => a | None => no_fields end) st with
  | (inl result, st') => (ResultReply result, st')
  | (inr err, st') => (ErrorReply (-32000) (message_of err), st')
  end.

(** * Properties *)

Unset Implicit Arguments.

(** ** The scorer *)

Lemma jsstring_eqb_eq (a b : jsstring) : jsstring_eqb a b = true <-> a = b.
Proof.
  revert b; induction a as [|x a IH]; intros [|y b]; simpl; split; intro H;
    try reflexivity; try discriminate.
  - apply andb_true_iff in H as [Hx Hab]. apply N.eqb_eq in Hx.
    apply IH in Hab. congruence.
  - inversion H; subst. rewrite N.eqb_refl. simpl. now apply IH.
Qed.

Lemma run_matcher_frame pattern prompt st :
  arrays (snd (run_matcher pattern prompt st)) = arrays st /\
  chance (snd (run_matcher pattern prompt st)) = chance st /\
  forall id, id <> Pattern.id pattern ->
    lastIndex (snd (run_matcher pattern prompt st)) id = lastIndex st id.
Proof.
  unfold run_matcher, test_rule, lift.
  destruct (Pattern.matcher pattern) as [R|d]; simpl; auto.
  destruct (regexp_test R _ _) as [b i]; simpl.
  destruct (global R); simpl; repeat split; auto.
  intros id Hid. apply String.eqb_neq in Hid. now rewrite Hid.
Qed.

Lemma fired_lastIndex st st' prompt pattern :
  lastIndex st' (Pattern.id pattern) = lastIndex st (Pattern.id pattern) ->
  fired st' prompt pattern = fired st prompt pattern.
Proof.
  unfold fired, run_matcher, test_rule, lift. intros H.
  destruct (Pattern.matcher pattern) as [R|d]; simpl; auto.
  rewrite H. now destruct (regexp_test R _ _).
Qed.

Lemma rules_string_safe : Forall string_safe AI_PRONE_PATTERNS.
Proof.
  unfold AI_PRONE_PATTERNS.
  repeat (apply Forall_cons; [unfold string_safe; simpl; try exact I; intros s; eexists; reflexivity|]).
  apply Forall_nil.
Qed.

Lemma rule_ids_distinct : NoDup (map Pattern.id AI_PRONE_PATTERNS).
Proof.
  simpl. repeat (apply NoDup_cons; [simpl; intros H; repeat (destruct H as [H|H]; [discriminate H|]); exact H|]).
  apply NoDup_nil.
Qed.

Lemma run_matcher_string pattern s st :
  string_safe pattern ->
  run_matcher pattern (VString s) st
  = (Normal (fired st (VString s) pattern), snd (run_matcher pattern (VString s) st)).
Proof.
  unfold string_safe, fired, run_matcher, test_rule, lift. intros H.
  destruct (Pattern.matcher pattern) as [R|d]; simpl.
  - now destruct (regexp_test R _ _).
  - destruct (H s) as [b Hb]. now rewrite Hb.
Qed.

Lemma check_patterns_string patterns s :
  Forall string_safe patterns ->
  NoDup (map Pattern.id patterns) ->
  forall acc ai st,
  exists st',
    check_patterns patterns (VString s) acc ai st
    = (Normal (acc ++ map issue_of (filter (fired st (VString s)) patterns),
               (ai + sum (map Pattern.weight (filter (fired st (VString s)) patterns)))%Z),
       st')
    /\ arrays st' = arrays st /\ chance st' = chance st
    /\ forall id, ~ In id (map Pattern.id patterns) -> lastIndex st' id = lastIndex st id.
Proof.
  induction patterns as [|p ps IH]; intros Hsafe Hnd acc ai st.
  - exists st. simpl. unfold ret. rewrite app_nil_r, Z.add_0_r. auto.
  - inversion Hsafe as [|? ? Hp Hps]; subst. inversion Hnd as [|? ? Hnotin Hnd']; subst.
    simpl check_patterns. unfold bind at 1. rewrite run_matcher_string by exact Hp.
    destruct (run_matcher_frame p (VString s) st) as (Harr & Hch & Hli).
    set (st1 := snd (run_matcher p (VString s) st)) in *.
    assert (Hsame : filter (fired st1 (VString s)) ps = filter (fired st (VString s)) ps).
    { apply filter_ext_in. intros q Hq. apply fired_lastIndex. apply Hli.
      intros Heq. apply Hnotin. rewrite <- Heq. now apply in_map. }
    simpl filter. destruct (fired st (VString s) p).
    + destruct (IH Hps Hnd' (acc ++ [issue_of p]) (ai + Pattern.weight p)%Z st1)
        as (st' & Heq & Ha & Hc & Hl).
      exists st'. rewrite Heq, Hsame. simpl. rewrite <- app_assoc. simpl.
      repeat split; try congruence.
      * unfold sum; simpl. now rewrite Z.add_assoc.
      * intros id Hid. rewrite Hl by (intros HH; apply Hid; now right).
        apply Hli. intros HH; apply Hid; now left.
    + destruct (IH Hps Hnd' acc ai st1) as (st' & Heq & Ha & Hc & Hl).
      exists st'. rewrite Heq, Hsame. repeat split; try congruence.
      intros id Hid. rewrite Hl by (intros HH; apply Hid; now right).
      apply Hli. intros HH; apply Hid; now left.
Qed.

Lemma check_indicators_sum indicators s acc :
  check_indicators indicators s acc
  = (acc + sum (map snd (filter (indicated s) indicators)))%Z.
Proof.
  revert acc; induction indicators as [|[R w] rest IH]; intros acc; simpl.
  - unfold sum; simpl; lia.
  - unfold indicated at 1; simpl. destruct (fst (regexp_test R 0 s)); rewrite IH.
    + unfold sum; simpl; lia.
    + reflexivity.
Qed.

(** What [analyzePrompt] returns for a string, from any store. *)
Lemma analyzePrompt_string s st :
  exists r st',
    analyzePrompt (VString s) st = (Normal r, st')
    /\ issues r = map issue_of (filter (fired st (VString s)) AI_PRONE_PATTERNS)
    /\ issueCount r = length (issues r)
    /\ aiScore r = sum (map Pattern.weight (filter (fired st (VString s)) AI_PRONE_PATTERNS))
    /\ realismScore r = sum (map snd (filter (indicated s) REALISM_INDICATORS))
    /\ score r = Z.min 100 (Math_round (Z.max 0 (aiScore r - realismScore r) * 5))
    /\ arrays st' = arrays st /\ chance st' = chance st.
Proof.
  destruct (check_patterns_string _ s rules_string_safe rule_ids_distinct [] 0%Z st)
    as (st' & Heq & Ha & Hc & _).
  generalize dependent (filter (fired st (VString s)) AI_PRONE_PATTERNS).
  intros matched Heq.
  pose proof (check_indicators_sum REALISM_INDICATORS s 0) as Hind.
  generalize dependent (filter (indicated s) REALISM_INDICATORS).
  intros hits_ Hind.
  eexists; exists st'. split.
  - unfold analyzePrompt, bind. rewrite Heq. unfold ret. cbv beta iota zeta.
    unfold ToString. rewrite Hind. rewrite app_nil_l, !Z.add_0_l. reflexivity.
  - repeat split; assumption.
Qed.

(** What holds of the score for every string prompt and every store the
    call starts in: it is [min(100, round(max(0, aiScore - realismScore) * 5))],
    an integer between 0 and 100, where [realismScore] adds up the weights
    of the indicators that match the prompt and [aiScore] the weights of the
    rules whose test answered [true] in this call. *)
Lemma analyzePrompt_score_formula (s : jsstring) (st : Store) :
  exists r st',
    analyzePrompt (VString s) st = (Normal r, st')
    /\ aiScore r = sum (map Pattern.weight (filter (fired st (VString s)) AI_PRONE_PATTERNS))
    /\ realismScore r = sum (map snd (filter (indicated s) REALISM_INDICATORS))
    /\ score r = Z.min 100 (Math_round (Z.max 0 (aiScore r - realismScore r) * 5))
    /\ (0 <= score r <= 100)%Z.
Proof.
  destruct (analyzePrompt_string s st) as (r & st' & Heq & _ & _ & Hai & Hre & Hsc & _).
  exists r, st'. repeat split; try assumption; rewrite Hsc; unfold Math_round; lia.
Qed.

(** A test that starts at [lastIndex] 0, and every test of a rule without
    the [g] flag, answers whether the rule matches the prompt. *)
Lemma fired_matches_text st s pattern :
  (is_global_rule pattern = true -> lastIndex st (Pattern.id pattern) = 0) ->
  fired st (VString s) pattern = matches_text s pattern.
Proof.
  unfold is_global_rule, fired, matches_text, run_matcher, test_rule, lift.
  destruct (Pattern.matcher pattern) as [R|d]; [|reflexivity].
  cbn [ToString]. intros H. unfold regexp_test. destruct (global R).
  - rewrite (H eq_refl). change (Nat.ltb (length s) 0) with false.
    cbn [prev_at skipn].
    now destruct (search (ignoreCase R) (source R) None s) as [[i len]|].
  - now destruct (search (ignoreCase R) (source R) None s) as [[i len]|].
Qed.

(** In a freshly loaded program, and whenever every rule with the [g] flag
    has its [lastIndex] at 0, [aiScore] adds up the weights of the rules
    that match the prompt. *)
Lemma analyzePrompt_score_formula_from_zero (s : jsstring) (st : Store) :
  (forall id, In id global_rule_ids -> lastIndex st id = 0) ->
  exists r st',
    analyzePrompt (VString s) st = (Normal r, st')
    /\ aiScore r = sum (map Pattern.weight (filter (matches_text s) AI_PRONE_PATTERNS))
    /\ realismScore r = sum (map snd (filter (indicated s) REALISM_INDICATORS))
    /\ score r = Z.min 100 (Math_round (Z.max 0 (aiScore r - realismScore r) * 5)).
Proof.
  intros Hzero.
  destruct (analyzePrompt_string s st) as (r & st' & Heq & _ & _ & Hai & Hre & Hsc & _).
  exists r, st'. split; [exact Heq|]. split; [|split; assumption].
  rewrite Hai. f_equal. f_equal. apply filter_ext_in. intros p Hp.
  apply fired_matches_text. intros Hg. apply Hzero.
  unfold global_rule_ids. apply in_map. apply filter_In. auto.
Qed.

(** C3: the claim fails on the code.  [aiScore] is not always the sum of
    the weights of the rules that match the prompt: the rule
    [beautiful-modifier] matches the text ["beautiful"], and with the two
    absence rules the matching rules weigh 12, which the first call of a
    freshly loaded program reports, with score 60.  The second call on the
    same text starts the test of that rule at the [lastIndex] 9 the first
    call left, misses the word, and reports [aiScore] 7 and score 35, where
    the formula of the claim gives 60. *)
Theorem analyzePrompt_score_misses_matching_rule :
  exists r1 st1 r2 st2,
    analyzePrompt (VString (js "beautiful")) (fresh []) = (Normal r1, st1)
    /\ analyzePrompt (VString (js "beautiful")) st1 = (Normal r2, st2)
    /\ map Pattern.id (filter (matches_text (js "beautiful")) AI_PRONE_PATTERNS)
       = ["beautiful-modifier"; "missing-imperfection"; "missing-camera"]
    /\ sum (map Pattern.weight (filter (matches_text (js "beautiful")) AI_PRONE_PATTERNS))
       = 12%Z
    /\ sum (map snd (filter (indicated (js "beautiful")) REALISM_INDICATORS)) = 0%Z
    /\ Z.min 100 (Math_round (Z.max 0 (12 - 0) * 5)) = 60%Z
    /\ aiScore r1 = 12%Z /\ realismScore r1 = 0%Z /\ score r1 = 60%Z
    /\ aiScore r2 = 7%Z /\ realismScore r2 = 0%Z /\ score r2 = 35%Z
    /\ map Issue.id (issues r2) = ["missing-imperfection"; "missing-camera"].
Proof.
  do 4 eexists. split; [vm_compute; reflexivity|].
  split; [vm_compute; reflexivity|].
  vm_compute. repeat split.
Qed.

(** C10: for every string, the empty one and those without a letter
    included, [analyzePrompt] completes normally with a result object. *)
Theorem analyzePrompt_returns_for_strings (s : jsstring) (st : Store) :
  exists r st', analyzePrompt (VString s) st = (Normal r, st').
Proof.
  destruct (analyzePrompt_string s st) as (r & st' & Heq & _).
  exists r, st'; exact Heq.
Qed.

(** C1: the claim (scoring the same prompt twice gives the same score and
    issues) fails on the code.  The RegExp of the rule [beautiful-modifier]
    carries the [g] flag, so [test] resumes at the [lastIndex] the call
    before left: the first call on ["beautiful"] scores 60 with three
    issues, the second call, on the same text, 35 with two. *)
Theorem analyzePrompt_second_call_differs :
  exists r1 st1 r2 st2,
    analyzePrompt (VString (js "beautiful")) (fresh []) = (Normal r1, st1)
    /\ analyzePrompt (VString (js "beautiful")) st1 = (Normal r2, st2)
    /\ score r1 = 60%Z /\ score r2 = 35%Z
    /\ map Issue.id (issues r1)
       = ["beautiful-modifier"; "missing-imperfection"; "missing-camera"]
    /\ map Issue.id (issues r2) = ["missing-imperfection"; "missing-camera"]
    /\ lastIndex st1 "beautiful-modifier" = 9.
Proof.
  do 4 eexists. split; [vm_compute; reflexivity|].
  split; [vm_compute; reflexivity|].
  vm_compute. repeat split.
Qed.

Lemma regexp_test_empty R :
  search (ignoreCase R) (source R) None [] = None ->
  forall i, fst (regexp_test R i []) = false.
Proof.
  intros H i. unfold regexp_test. destruct (global R).
  - destruct i as [|i].
    + change (prev_at 0 []) with (@None N). change (skipn 0 (@nil N)) with (@nil N).
      rewrite H. reflexivity.
    + reflexivity.
  - now rewrite H.
Qed.

Lemma fired_empty_any_store :
  Forall (fun pattern => forall st,
            fired st (VString []) pattern = fired (fresh []) (VString []) pattern)
         AI_PRONE_PATTERNS.
Proof.
  unfold AI_PRONE_PATTERNS.
  repeat (apply Forall_cons;
          [intros st; unfold fired, run_matcher, test_rule, lift;
           cbn [Pattern.matcher Pattern.id ToString];
           try reflexivity;
           match goal with
           | |- context [regexp_test ?R ?i []] =>
               pose proof (regexp_test_empty R eq_refl i) as H1;
               pose proof (regexp_test_empty R eq_refl (lastIndex (fresh []) "x")) as H2;
               destruct (regexp_test R i []);
               destruct (regexp_test R (lastIndex (fresh []) "x") [])
           end; simpl in *; subst; reflexivity|]).
  apply Forall_nil.
Qed.

(** C2, the counterexample: on the empty string the score is not 0 and
    the issue list is not empty. *)
Lemma analyzePrompt_empty_not_zero :
  ~ (exists r st',
       analyzePrompt (VString []) (fresh []) = (Normal r, st')
       /\ score r = 0%Z /\ issues r = []).
Proof.
  intros (r & st' & H & Hs & _).
  assert (Hr : fst (analyzePrompt (VString []) (fresh [])) = Normal r) by now rewrite H.
  vm_compute in Hr. inversion Hr; subst. simpl in Hs. discriminate.
Qed.

(** C2, amended: on the empty string, from every store, the two absence
    rules [missing-imperfection] and [missing-camera] match and nothing else
    does (no pattern rule, no realism indicator): the score is
    (4 + 3) * 5 = 35 and the issue list holds these two issues, in this
    order. *)
Theorem analyzePrompt_empty (st : Store) :
  exists r st',
    analyzePrompt (VString []) st = (Normal r, st')
    /\ score r = 35%Z
    /\ aiScore r = 7%Z
    /\ realismScore r = 0%Z
    /\ map Issue.id (issues r) = ["missing-imperfection"; "missing-camera"]
    /\ issueCount r = 2.
Proof.
  destruct (analyzePrompt_string [] st)
    as (r & st' & Heq & His & Hcount & Hai & Hre & Hsc & _).
  exists r, st'. split; [exact Heq|].
  assert (Hf : filter (fired st (VString [])) AI_PRONE_PATTERNS
               = filter (fired (fresh []) (VString [])) AI_PRONE_PATTERNS).
  { apply filter_ext_in. intros p Hp.
    exact (proj1 (Forall_forall _ _) fired_empty_any_store p Hp st). }
  rewrite Hf in His, Hai.
  assert (Hai' : aiScore r = 7%Z) by (rewrite Hai; vm_compute; reflexivity).
  assert (Hre' : realismScore r = 0%Z) by (rewrite Hre; vm_compute; reflexivity).
  assert (His' : map Issue.id (issues r) = ["missing-imperfection"; "missing-camera"])
    by (rewrite His; vm_compute; reflexivity).
  repeat split; try assumption.
  - rewrite Hsc, Hai', Hre'. reflexivity.
  - rewrite Hcount, <- (length_map Issue.id), His'. reflexivity.
Qed.

(** ** Values that are not strings *)

Lemma check_patterns_throws v e patterns :
  throws_on v e patterns ->
  forall acc ai st, fst (check_patterns patterns v acc ai st) = Throw e.
Proof.
  induction 1 as [p rest d Hm Hd | p rest R Hm Hrest IH]; intros acc ai st;
    simpl check_patterns; unfold bind, run_matcher; rewrite Hm.
  - unfold lift. now rewrite Hd.
  - unfold test_rule. destruct (regexp_test R _ _) as [[|] i]; apply IH.
Qed.

Lemma rules_throw_on_non_strings v :
  is_string v = false ->
  throws_on v (no_match_method v) AI_PRONE_PATTERNS.
Proof.
  intros Hv. unfold AI_PRONE_PATTERNS.
  do 8 (eapply throws_later; [reflexivity|]).
  eapply throws_here; [reflexivity|].
  destruct v; try reflexivity; discriminate.
Qed.

(** C7, the counterexample: [null] is neither rejected nor kept away from
    the rules.  In the store a call on ["beautiful centered"] left behind,
    [analyzePrompt(null)] runs the pattern rules on the text ["null"] (the
    [lastIndex] of [beautiful-modifier] goes from 9 back to 0) and then
    fails with the TypeError of [prompt.match] inside the [style-stacking]
    predicate, before the rules after it are reached ([symmetry-trap] keeps
    its [lastIndex] 18). *)
Lemma analyzePrompt_null_coerced_then_TypeError :
  lastIndex (store_after "beautiful centered") "beautiful-modifier" = 9
  /\ lastIndex (store_after "beautiful centered") "symmetry-trap" = 18
  /\ fst (analyzePrompt VNull (store_after "beautiful centered"))
     = Throw (TypeError "Cannot read properties of null (reading 'match')")
  /\ lastIndex (snd (analyzePrompt VNull (store_after "beautiful centered")))
               "beautiful-modifier" = 0
  /\ lastIndex (snd (analyzePrompt VNull (store_after "beautiful centered")))
               "symmetry-trap" = 18.
Proof. vm_compute. repeat split. Qed.

Lemma run_matcher_not_global pattern v st :
  is_global_rule pattern = false -> snd (run_matcher pattern v st) = st.
Proof.
  unfold is_global_rule, run_matcher, test_rule, lift.
  destruct (Pattern.matcher pattern) as [R|d]; [|reflexivity].
  intros ->. now destruct (regexp_test R _ _).
Qed.

Lemma run_matcher_lastIndex_same pattern v st1 st :
  lastIndex st1 (Pattern.id pattern) = lastIndex st (Pattern.id pattern) ->
  lastIndex (snd (run_matcher pattern v st1)) (Pattern.id pattern)
  = lastIndex (snd (run_matcher pattern v st)) (Pattern.id pattern).
Proof.
  unfold run_matcher, test_rule, lift. intros H.
  destruct (Pattern.matcher pattern) as [R|d]; [|exact H].
  rewrite H. destruct (regexp_test R _ _) as [b i].
  destruct (global R); simpl; [|exact H].
  now rewrite !String.eqb_refl.
Qed.

(** The rules that run before the predicate that throws, and what they
    leave behind. *)
Lemma check_patterns_until_throw v e thrower later :
  (exists detect, Pattern.matcher thrower = Detect detect /\ detect v = Throw e) ->
  forall pre acc ai st,
    Forall (fun p => exists R, Pattern.matcher p = Regex R) pre ->
    NoDup (map Pattern.id pre) ->
    exists st',
      check_patterns (pre ++ thrower :: later) v acc ai st = (Throw e, st')
      /\ arrays st' = arrays st /\ chance st' = chance st
      /\ (forall p, In p pre ->
                    lastIndex st' (Pattern.id p)
                    = lastIndex (snd (run_matcher p v st)) (Pattern.id p))
      /\ (forall id, ~ In id (map Pattern.id pre) -> lastIndex st' id = lastIndex st id).
Proof.
  intros (detect & Hd & He). induction pre as [|q pre IH]; intros acc ai st Hre Hnd.
  - exists st. cbn [app check_patterns]. unfold bind, run_matcher. rewrite Hd.
    unfold lift. rewrite He. repeat split; auto. intros p [].
  - inversion Hre as [|? ? (R & Hq) Hre']; subst.
    inversion Hnd as [|? ? Hnotin Hnd']; subst.
    cbn [app check_patterns]. unfold bind.
    destruct (run_matcher_frame q v st) as (Harr & Hch & Hli).
    assert (Hrun : exists b, run_matcher q v st = (Normal b, snd (run_matcher q v st))).
    { unfold run_matcher, test_rule. rewrite Hq.
      destruct (regexp_test R _ _) as [b i]. exists b. reflexivity. }
    destruct Hrun as (b & Hrun). rewrite Hrun.
    set (st1 := snd (run_matcher q v st)) in *.
    assert (Hnext : forall acc' ai',
               exists st',
                 check_patterns (pre ++ thrower :: later) v acc' ai' st1 = (Throw e, st')
                 /\ arrays st' = arrays st /\ chance st' = chance st
                 /\ (forall p, In p (q :: pre) ->
                               lastIndex st' (Pattern.id p)
                               = lastIndex (snd (run_matcher p v st)) (Pattern.id p))
                 /\ (forall id, ~ In id (map Pattern.id (q :: pre)) ->
                                lastIndex st' id = lastIndex st id)).
    { intros acc' ai'.
      destruct (IH acc' ai' st1 Hre' Hnd') as (st' & Heq & Ha & Hc & Hin & Hout).
      exists st'. split; [exact Heq|]. split; [congruence|]. split; [congruence|].
      split.
      - intros p [<-|Hp].
        + now rewrite (Hout _ Hnotin).
        + rewrite (Hin p Hp). apply run_matcher_lastIndex_same. apply Hli.
          intros E. apply Hnotin. rewrite <- E. now apply in_map.
      - intros id Hid. cbn [map In] in Hid.
        rewrite Hout by tauto. apply Hli. intros E. apply Hid. now left. }
    destruct b; apply Hnext.
Qed.

Lemma rules_before_style_stacking_split :
  exists thrower later,
    AI_PRONE_PATTERNS = rules_before_style_stacking ++ thrower :: later
    /\ Pattern.matcher thrower = Detect detect_style_stacking
    /\ Forall (fun p => exists R, Pattern.matcher p = Regex R) rules_before_style_stacking
    /\ NoDup (map Pattern.id rules_before_style_stacking).
Proof.
  unfold rules_before_style_stacking, AI_PRONE_PATTERNS. cbn [firstn app].
  eexists; eexists. split; [reflexivity|]. split; [reflexivity|]. split.
  - repeat (apply Forall_cons; [eexists; reflexivity|]). apply Forall_nil.
  - cbn [map Pattern.id].
    repeat (apply NoDup_cons;
            [cbn [In]; intros H; repeat (destruct H as [H|H]; [discriminate H|]); exact H|]).
    apply NoDup_nil.
Qed.

(** C7, amended: [analyzePrompt] has no check of its argument.  For every
    value that is [undefined], [null], a Boolean or a Number, from every
    store, the rules before [style-stacking] test the text the value
    converts to: each of the six among them whose RegExp has the [g] flag is
    left with the [lastIndex] that its test of this text gives.  The call
    then ends with the TypeError that [prompt.match] raises inside the
    [style-stacking] predicate: the rules after it are not reached, and no
    other [lastIndex], no table and no random outcome is touched. *)
Theorem analyzePrompt_non_string_TypeError (v : jsval) (st : Store) :
  is_string v = false ->
  exists st',
    analyzePrompt v st = (Throw (no_match_method v), st')
    /\ (forall pattern R,
           In pattern rules_before_style_stacking ->
           Pattern.matcher pattern = Regex R -> global R = true ->
           lastIndex st' (Pattern.id pattern)
           = snd (regexp_test R (lastIndex st (Pattern.id pattern)) (ToString v)))
    /\ map Pattern.id (filter is_global_rule rules_before_style_stacking)
       = ["beautiful-modifier"; "hyper-realistic"; "8k-4k"; "trending-artstation";
          "cinematic-lighting"; "portrait-generic"]
    /\ (forall id,
           ~ In id (map Pattern.id (filter is_global_rule rules_before_style_stacking)) ->
           lastIndex st' id = lastIndex st id)
    /\ arrays st' = arrays st /\ chance st' = chance st.
Proof.
  intros Hv.
  destruct rules_before_style_stacking_split as (thrower & later & Hall & Hthrow & Hre & Hnd).
  assert (Hthrows : exists detect,
             Pattern.matcher thrower = Detect detect
             /\ detect v = Throw (no_match_method v)).
  { exists detect_style_stacking. split; [exact Hthrow|].
    destruct v; try reflexivity; discriminate. }
  destruct (check_patterns_until_throw v (no_match_method v) thrower later Hthrows
              rules_before_style_stacking [] 0%Z st Hre Hnd)
    as (st' & Heq & Harr & Hch & Hin & Hout).
  exists st'. split.
  { unfold analyzePrompt, bind. rewrite Hall, Heq. reflexivity. }
  split.
  { intros p R Hp Hm Hg. rewrite (Hin p Hp).
    unfold run_matcher, test_rule. rewrite Hm.
    destruct (regexp_test R (lastIndex st (Pattern.id p)) (ToString v)) as [b i].
    rewrite Hg. cbn [snd lastIndex set_lastIndex]. now rewrite String.eqb_refl. }
  split; [reflexivity|].
  split; [|split; assumption].
  intros id Hid.
  destruct (in_dec string_dec id (map Pattern.id rules_before_style_stacking))
    as [Hi|Hi]; [|now apply Hout].
  apply in_map_iff in Hi. destruct Hi as (p & <- & Hp).
  rewrite (Hin p Hp).
  destruct (is_global_rule p) eqn:Hg.
  - exfalso. apply Hid. apply in_map. apply filter_In. auto.
  - now rewrite (run_matcher_not_global p v st Hg).
Qed.

Lemma analyzePrompt_non_string_TypeError_witness :
  is_string (VNumber (js "42")) = false
  /\ exists st',
       analyzePrompt (VNumber (js "42")) (store_after "beautiful centered")
       = (Throw (no_match_method (VNumber (js "42"))), st')
       /\ (forall pattern R,
              In pattern rules_before_style_stacking ->
              Pattern.matcher pattern = Regex R -> global R = true ->
              lastIndex st' (Pattern.id pattern)
              = snd (regexp_test R
                       (lastIndex (store_after "beautiful centered") (Pattern.id pattern))
                       (ToString (VNumber (js "42")))))
       /\ map Pattern.id (filter is_global_rule rules_before_style_stacking)
          = ["beautiful-modifier"; "hyper-realistic"; "8k-4k"; "trending-artstation";
             "cinematic-lighting"; "portrait-generic"]
       /\ (forall id,
              ~ In id (map Pattern.id (filter is_global_rule rules_before_style_stacking)) ->
              lastIndex st' id = lastIndex (store_after "beautiful centered") id)
       /\ arrays st' = arrays (store_after "beautiful centered")
       /\ chance st' = chance (store_after "beautiful centered").
Proof.
  split; [reflexivity|].
  exact (analyzePrompt_non_string_TypeError (VNumber (js "42"))
           (store_after "beautiful centered") eq_refl).
Defined.

(** ** Calls that return *)

Lemma returns_ret {A} (P : Store -> Prop) (a : A) (Q : A -> Store -> Prop) :
  (forall st, P st -> Q a st) -> returns P (ret a) Q.
Proof. intros H st Hst. exists a, st. split; [reflexivity | auto]. Qed.

Lemma returns_bind {A B} (P : Store -> Prop) (c : M A) (Q : A -> Store -> Prop)
    (f : A -> M B) (R : B -> Store -> Prop) :
  returns P c Q -> (forall a, returns (Q a) (f a) R) -> returns P (bind c f) R.
Proof.
  intros Hc Hf st Hst. destruct (Hc st Hst) as (a & st1 & Heq & Hq).
  destruct (Hf a st1 Hq) as (b & st2 & Heq2 & Hr).
  exists b, st2. unfold bind. rewrite Heq. auto.
Qed.

Lemma returns_weaken {A} (P P' : Store -> Prop) (c : M A) (Q Q' : A -> Store -> Prop) :
  returns P c Q -> (forall st, P' st -> P st) -> (forall a st, Q a st -> Q' a st) ->
  returns P' c Q'.
Proof.
  intros Hc HP HQ st Hst. destruct (Hc st (HP st Hst)) as (a & st' & Heq & Hq).
  exists a, st'. auto.
Qed.

(** ** The vocabulary tables *)

Lemma fresh_vocabulary_kept chance : vocabulary_kept (fresh chance).
Proof. intros t. apply Permutation_refl. Qed.

Lemma take_at_perm {A} (i : nat) (l : list A) x r :
  take_at i l = Some (x, r) -> Permutation (x :: r) l.
Proof.
  revert i x r; induction l as [|y l IH]; intros [|i] x r H; simpl in H;
    try discriminate.
  - inversion H; subst. apply Permutation_refl.
  - destruct (take_at i l) as [[z r']|] eqn:E; [|discriminate].
    inversion H; subst. eapply perm_trans; [apply perm_swap|].
    apply perm_skip. eapply IH; eauto.
Qed.

Lemma arrange_perm {A} (n code : nat) (l : list A) : Permutation (arrange n code l) l.
Proof.
  revert code l; induction n as [|n IH]; intros code l; cbn [arrange].
  - apply Permutation_refl.
  - destruct (take_at (code mod S n) l) as [[x r]|] eqn:E; [|apply Permutation_refl].
    eapply perm_trans; [apply perm_skip, IH|]. eapply take_at_perm; eauto.
Qed.

Lemma sort_random_perm code items : Permutation (sort_random code items) items.
Proof. apply arrange_perm. Qed.

Lemma In_firstn {A} (n : nat) (l : list A) x : In x (firstn n l) -> In x l.
Proof.
  revert l; induction n as [|n IH]; intros [|y l]; simpl; try tauto.
  intros [H|H]; auto.
Qed.

Lemma draw_returns : returns vocabulary_kept draw (fun _ st' => vocabulary_kept st').
Proof.
  intros st Hst. unfold draw. destruct (chance st) as [|x rest].
  - exists 0, st. auto.
  - eexists; eexists; split; [reflexivity|]. exact Hst.
Qed.

(** [getRandomModifiers] on an array: [count] phrases of it (all of them
    when it has fewer), and the table still holds its phrases, though not
    in the order it had. *)
Lemma getRandomModifiers_returns t count :
  returns vocabulary_kept (getRandomModifiers (CatArray t) count)
    (fun chosen st' =>
       vocabulary_kept st'
       /\ length chosen = Nat.min count (length (initial_arrays t))
       /\ forall phrase, In phrase chosen -> In phrase (initial_arrays t)).
Proof.
  intros st Hst. unfold getRandomModifiers, bind, get_array, put_array, ret.
  destruct (draw_returns st Hst) as (code & st1 & Hd & Hst1). rewrite Hd.
  assert (Harr : arrays st1 = arrays st).
  { unfold draw in Hd. destruct (chance st); inversion Hd; reflexivity. }
  eexists; eexists; split; [reflexivity|].
  pose proof (sort_random_perm code (arrays st t)) as Hp.
  pose proof (Hst t) as Ht.
  split; [|split].
  - intros t'. unfold set_array; simpl. destruct (Table_eq_dec t' t) as [->|Hne].
    + eapply perm_trans; eauto.
    + rewrite Harr. apply Hst.
  - rewrite length_firstn. f_equal.
    apply Permutation_length. eapply perm_trans; eauto.
  - intros phrase Hin. apply In_firstn in Hin.
    eapply Permutation_in; [|exact Hin]. eapply perm_trans; eauto.
Qed.

Lemma getRandomModifiers_one t :
  initial_arrays t <> [] ->
  returns vocabulary_kept (getRandomModifiers (CatArray t) 1)
    (fun chosen st' =>
       vocabulary_kept st' /\ exists phrase, chosen = [phrase] /\ In phrase (initial_arrays t)).
Proof.
  intros Hne. eapply returns_weaken; [apply getRandomModifiers_returns| auto |].
  intros chosen st' (Hk & Hlen & Hin). split; [exact Hk|].
  destruct (initial_arrays t) as [|p0 rest] eqn:E; [congruence|].
  simpl in Hlen. destruct chosen as [|p [|q chosen]]; try discriminate.
  exists p. split; [reflexivity|]. apply Hin. now left.
Qed.

(** Handed a category object, [getRandomModifiers] sorts the array
    [flat()] built, and the tables stay as they were. *)
Lemma getRandomModifiers_object_frame ts count st :
  arrays (snd (getRandomModifiers (CatObject ts) count st)) = arrays st.
Proof.
  unfold getRandomModifiers, bind, draw, ret.
  destruct (chance st); reflexivity.
Qed.

(** C6: the claim (the tables are never mutated) fails on the code.
    [getRandomModifiers] sorts the array it is handed in place, so a call
    of [transformPrompt], and a call of [getSuggestions] as well, leaves
    [CAMERAS.film] in another order: here the sort ends with the second
    phrase in front, and the table starts with it from then on. *)
Theorem transformPrompt_reorders_table :
  nth_error (arrays (fresh [1]) CAMERAS_film) 0 = Some (js "shot on 35mm film")
  /\ (exists r st',
        transformPrompt (VString (js "a cat")) no_options (fresh [1]) = (Normal r, st')
        /\ nth_error (arrays st' CAMERAS_film) 0 = Some (js "shot on Kodak Portra 400")
        /\ arrays st' CAMERAS_film <> arrays (fresh [1]) CAMERAS_film)
  /\ (exists s st',
        getSuggestions (VString (js "a cat")) (fresh [1]) = (Normal s, st')
        /\ nth_error (arrays st' CAMERAS_film) 0 = Some (js "shot on Kodak Portra 400")
        /\ arrays st' CAMERAS_film <> arrays (fresh [1]) CAMERAS_film).
Proof.
  split; [reflexivity|]. split.
  - do 2 eexists. split; [vm_compute; reflexivity|].
    vm_compute. split; [reflexivity | discriminate].
  - do 2 eexists. split; [vm_compute; reflexivity|].
    vm_compute. split; [reflexivity | discriminate].
Qed.

(** ** The pieces of the transformer *)

Lemma draw_yields : yields draw (fun _ => True).
Proof.
  intros st Hst. destruct (draw_returns st Hst) as (x & st' & Heq & Hk).
  exists x, st'. auto.
Qed.

Lemma yields_ret {A} (a : A) (Q : A -> Prop) : Q a -> yields (ret a) Q.
Proof. intros H. apply returns_ret. auto. Qed.

Lemma yields_bind {A B} (c : M A) (Q : A -> Prop) (f : A -> M B) (R : B -> Prop) :
  yields c Q -> (forall a, Q a -> yields (f a) R) -> yields (bind c f) R.
Proof.
  intros Hc Hf. eapply returns_bind; [exact Hc|].
  intros a st (Hk & Hq). exact (Hf a Hq st Hk).
Qed.

Lemma yields_weaken {A} (c : M A) (Q Q' : A -> Prop) :
  yields c Q -> (forall a, Q a -> Q' a) -> yields c Q'.
Proof.
  intros Hc H. eapply returns_weaken; [exact Hc | auto |].
  intros a st (Hk & Hq). auto.
Qed.

Lemma analyzePrompt_yields s : yields (analyzePrompt (VString s)) (fun _ => True).
Proof.
  intros st Hst.
  destruct (analyzePrompt_string s st) as (r & st' & Heq & _ & _ & _ & _ & _ & Harr & _).
  exists r, st'. split; [exact Heq|]. split; [|exact I].
  intros t. rewrite Harr. apply Hst.
Qed.

Lemma pick_yields options :
  options <> [] ->
  yields (pick options) (fun text => exists o, In o options /\ text = js o).
Proof.
  intros Hne. unfold pick, random_index.
  eapply yields_bind.
  - eapply yields_bind; [apply draw_yields|].
    intros x _. apply yields_ret with (Q := fun i => i < length options).
    apply Nat.mod_upper_bound. destruct options; [congruence | discriminate].
  - intros i Hi. apply yields_ret. exists (nth i options EmptyString).
    split; [now apply nth_In | reflexivity].
Qed.

Lemma render_with_yields callback answer :
  (forall matched, yields (callback matched) (answer matched)) ->
  forall segs, yields (render_with callback segs) (Rendered answer segs).
Proof.
  intros Hcb. induction segs as [|[c|matched] rest IH]; simpl.
  - apply yields_ret. constructor.
  - eapply yields_bind; [exact IH|]. intros out Hout.
    apply yields_ret. now constructor.
  - eapply yields_bind; [apply Hcb|]. intros text Htext.
    eapply yields_bind; [exact IH|]. intros out Hout.
    apply yields_ret. now constructor.
Qed.

Lemma describe_subject_yields matched :
  yields (describe_subject matched) (subject_answer matched).
Proof.
  unfold describe_subject.
  eapply yields_bind; [apply pick_yields; discriminate|]. intros age (a & Ha & ->).
  eapply yields_bind; [apply pick_yields; discriminate|]. intros detail (d & Hd & ->).
  apply yields_ret. exists a, d. auto.
Qed.

Lemma enhance_families_yields entries text :
  Forall (fun entry => snd entry <> []) entries ->
  yields (enhance_families entries text)
    (fun out =>
       out = text
       \/ exists generic specifics specific,
            In (generic, specifics) entries /\ In specific specifics
            /\ out = replace_all (location_regex generic) (js "at " ++ js specific) text).
Proof.
  induction entries as [|[generic specifics] rest IH]; intros Hne; simpl.
  - apply yields_ret. now left.
  - inversion Hne as [|? ? Hs Hrest]; subst. simpl in Hs.
    destruct (fst (regexp_test (location_regex generic) 0 text)).
    + eapply yields_bind; [apply pick_yields; exact Hs|]. intros specific (o & Ho & ->).
      apply yields_ret. right. exists generic, specifics, o. simpl. auto.
    + eapply yields_weaken; [apply IH; exact Hrest|].
      intros out [->|(g & sp & o & Hin & Ho & ->)]; [now left|].
      right. exists g, sp, o. simpl. auto.
Qed.

Lemma enhanceSubject_yields text :
  yields (enhanceSubject text) (subject_enhanced text).
Proof.
  unfold enhanceSubject.
  eapply yields_bind; [apply render_with_yields; apply describe_subject_yields|].
  intros with_subject Hs.
  eapply yields_bind.
  - apply render_with_yields with (answer := person_answer).
    intros matched. eapply yields_weaken; [apply pick_yields; discriminate|].
    intros t (o & Ho & ->). now exists o.
  - intros with_person Hp. apply yields_ret. exists with_subject. split; assumption.
Qed.

Lemma enhanceLocation_yields text :
  yields (enhanceLocation text) (location_enhanced text).
Proof.
  unfold enhanceLocation. apply enhance_families_yields.
  unfold locationEnhancements. repeat constructor; discriminate.
Qed.

Lemma first_modifier_yields t :
  initial_arrays t <> [] ->
  yields (first_modifier (CatArray t))
    (fun chosen => exists phrase, chosen = Some phrase /\ In phrase (initial_arrays t)).
Proof.
  intros Hne. unfold first_modifier.
  eapply yields_bind; [apply getRandomModifiers_one; exact Hne|].
  intros chosen (phrase & -> & Hin). apply yields_ret. exists phrase. auto.
Qed.

Lemma filter_Boolean_In parts phrase :
  In phrase (filter_Boolean parts) -> In (Some phrase) parts.
Proof.
  induction parts as [|[[|c s]|] rest IH]; simpl; intros H; auto.
  destruct H as [<-|H]; auto.
Qed.

Lemma in_technical t phrase :
  In t [CAMERAS_film; CAMERAS_modern; LENSES;
        LIGHTING_natural; LIGHTING_artificial; LIGHTING_moody] ->
  In phrase (initial_arrays t) -> In phrase technical_vocabulary.
Proof.
  intros Ht Hin. unfold technical_vocabulary. apply in_or_app. left.
  apply in_flat_map. exists t. auto.
Qed.

Lemma buildTechnicalModifiers_yields style mood :
  yields (buildTechnicalModifiers style mood)
         (Forall (fun phrase => In phrase technical_vocabulary)).
Proof.
  unfold buildTechnicalModifiers.
  set (camera_of := fun chosen : option jsstring =>
         exists phrase, chosen = Some phrase /\ In phrase technical_vocabulary).
  eapply yields_bind with (Q := camera_of).
  { destruct (jsstring_eqb _ (js "film")); [|destruct (jsstring_eqb _ (js "digital"))].
    - eapply yields_weaken; [apply first_modifier_yields; table_nonempty|].
      intros c (p & -> & Hp). exists p. split; [reflexivity|].
      eapply in_technical; [|exact Hp]. simpl; tauto.
    - eapply yields_weaken; [apply first_modifier_yields; table_nonempty|].
      intros c (p & -> & Hp). exists p. split; [reflexivity|].
      eapply in_technical; [|exact Hp]. simpl; tauto.
    - apply yields_ret. eexists. split; [reflexivity|].
      unfold technical_vocabulary. apply in_or_app. right. now left. }
  intros camera Hcamera.
  eapply yields_bind with (Q := Forall camera_of).
  { destruct (negb _).
    - eapply yields_bind; [apply first_modifier_yields with (t := LENSES); table_nonempty|].
      intros l (p & -> & Hp). apply yields_ret. constructor; [|constructor].
      exists p. split; [reflexivity|]. eapply in_technical; [|exact Hp]. simpl; tauto.
    - apply yields_ret. constructor. }
  intros lens Hlens.
  eapply yields_bind with (Q := camera_of).
  { destruct (jsstring_eqb _ (js "moody")); [|destruct (jsstring_eqb _ (js "harsh"))];
      (eapply yields_weaken; [apply first_modifier_yields; table_nonempty|];
       intros c (p & -> & Hp); exists p; split; [reflexivity|];
       eapply in_technical; [|exact Hp]; simpl; tauto). }
  intros lighting Hlighting.
  apply yields_ret. apply Forall_forall. intros phrase Hin.
  apply filter_Boolean_In in Hin.
  assert (Hall : Forall camera_of ([camera] ++ lens ++ [lighting])).
  { apply Forall_app. split; [repeat constructor; assumption|].
    apply Forall_app. split; [assumption | repeat constructor; assumption]. }
  destruct (proj1 (Forall_forall _ _) Hall _ Hin) as (p & Heq & Hp).
  inversion Heq; subst. exact Hp.
Qed.

Lemma buildImperfections_yields intensity :
  yields (buildImperfections (Some intensity))
         (imperfections_for (imperfection_count intensity)).
Proof.
  unfold buildImperfections. simpl default. fold (imperfection_count intensity).
  generalize (imperfection_count intensity) as count. intros count.
  eapply yields_bind;
    [apply getRandomModifiers_one with (t := IMPERFECTIONS_film); table_nonempty|].
  intros film (f & -> & Hf).
  eapply yields_bind with
    (Q := fun focus => exists fo, In fo (initial_arrays IMPERFECTIONS_focus)
                       /\ focus = if Nat.leb 2 count then [fo] else []).
  { destruct (Nat.leb 2 count).
    - eapply yields_weaken;
        [apply getRandomModifiers_one with (t := IMPERFECTIONS_focus); table_nonempty|].
      intros c (p & -> & Hp). exists p. auto.
    - apply yields_ret. exists (js "soft focus"). split; [simpl; tauto | reflexivity]. }
  intros focus (fo & Hfo & ->).
  eapply yields_bind with
    (Q := fun surface => exists su, In su (initial_arrays IMPERFECTIONS_surface)
                         /\ surface = if Nat.leb 3 count then [su] else []).
  { destruct (Nat.leb 3 count).
    - eapply yields_weaken;
        [apply getRandomModifiers_one with (t := IMPERFECTIONS_surface); table_nonempty|].
      intros c (p & -> & Hp). exists p. auto.
    - apply yields_ret. exists (js "dusty"). split; [simpl; tauto | reflexivity]. }
  intros surface (su & Hsu & ->).
  apply yields_ret. exists f, fo, su. auto.
Qed.

Lemma injectable_nonempty : forallb nonempty injectable = true.
Proof. vm_compute. reflexivity. Qed.

Lemma filter_nonempty_id l :
  (forall phrase, In phrase l -> In phrase injectable) -> filter nonempty l = l.
Proof.
  intros H. apply forallb_filter_id. apply forallb_forall. intros phrase Hin.
  exact (proj1 (forallb_forall _ _) injectable_nonempty phrase (H phrase Hin)).
Qed.

Lemma imperfections_for_In count imps phrase :
  imperfections_for count imps -> In phrase imps ->
  In phrase (flat_map initial_arrays
               [IMPERFECTIONS_film; IMPERFECTIONS_focus; IMPERFECTIONS_surface]).
Proof.
  intros (f & fo & su & Hf & Hfo & Hsu & ->) Hin.
  apply in_flat_map.
  apply in_app_or in Hin. destruct Hin as [[<-|[]]|Hin].
  { exists IMPERFECTIONS_film. split; [now left | exact Hf]. }
  apply in_app_or in Hin. destruct Hin as [Hin|Hin].
  - destruct (Nat.leb 2 count); [|destruct Hin].
    destruct Hin as [<-|[]]. exists IMPERFECTIONS_focus.
    split; [right; now left | exact Hfo].
  - destruct (Nat.leb 3 count); [|destruct Hin].
    destruct Hin as [<-|[]]. exists IMPERFECTIONS_surface.
    split; [right; right; now left | exact Hsu].
Qed.

Lemma modifiers_injectable technical imps comp human count :
  Forall (fun phrase => In phrase technical_vocabulary) technical ->
  imperfections_for count imps ->
  (exists c, comp = [c] /\ In c (initial_arrays COMPOSITION_natural)) ->
  (forall phrase, In phrase human -> In phrase (initial_arrays HUMAN_DETAILS)) ->
  forall phrase, In phrase (technical ++ imps ++ comp ++ human) -> In phrase injectable.
Proof.
  intros Ht Hi (c & -> & Hc) Hh phrase Hin. unfold injectable.
  apply in_app_or in Hin. destruct Hin as [Hin|Hin].
  { apply in_or_app. left. exact (proj1 (Forall_forall _ _) Ht _ Hin). }
  apply in_or_app. right.
  apply in_app_or in Hin. destruct Hin as [Hin|Hin].
  { pose proof (imperfections_for_In _ _ phrase Hi Hin) as H.
    apply in_flat_map in H. destruct H as (t & Ht' & Hp).
    apply in_flat_map. exists t. split; [|exact Hp]. simpl in *; tauto. }
  apply in_flat_map.
  apply in_app_or in Hin. destruct Hin as [[<-|[]]|Hin].
  - exists COMPOSITION_natural. simpl; tauto.
  - exists HUMAN_DETAILS. split; [simpl; tauto | now apply Hh].
Qed.

(** [transformPrompt] on a string returns, from every store whose tables
    are intact, and leaves them intact. *)
Lemma transformPrompt_yields text options :
  yields (transformPrompt (VString text) options) (transform_post text options).
Proof.
  unfold transformPrompt.
  eapply yields_bind; [apply analyzePrompt_yields|]. intros analysis _.
  fold (resolved_preserve options). fold (resolved_level options).
  eapply yields_bind; [apply enhanceSubject_yields|]. intros with_person Hsubject.
  eapply yields_bind; [apply enhanceLocation_yields|]. intros base Hlocation.
  eapply yields_bind; [apply buildTechnicalModifiers_yields|]. intros technical Htech.
  eapply yields_bind; [apply buildImperfections_yields|]. intros imps Himps.
  eapply yields_bind;
    [apply getRandomModifiers_one with (t := COMPOSITION_natural); table_nonempty|].
  intros comp Hcomp.
  eapply yields_bind with
    (Q := fun human =>
            (forall phrase, In phrase human -> In phrase (initial_arrays HUMAN_DETAILS))
            /\ length human = (if hasHumanSubject text then 2 else 0)).
  { destruct (hasHumanSubject text).
    - eapply yields_weaken; [apply getRandomModifiers_returns|].
      intros human (Hlen & Hin). split; [exact Hin | exact Hlen].
    - apply yields_ret. split; [intros ? [] | reflexivity]. }
  intros human (Hhuman & Hlen).
  rewrite (filter_nonempty_id _ (modifiers_injectable _ _ _ _ _ Htech Himps Hcomp Hhuman)).
  eapply yields_bind; [apply analyzePrompt_yields|]. intros newAnalysis _.
  apply yields_ret. split; [reflexivity|].
  exists base, technical, imps, comp, human. simpl.
  repeat split; auto. exists with_person. auto.
Qed.

(** [getSuggestions] on a string returns as well, and the tables still
    hold their phrases afterwards. *)
Lemma getSuggestions_yields text :
  yields (getSuggestions (VString text)) (fun _ => True).
Proof.
  unfold getSuggestions.
  eapply yields_bind; [apply analyzePrompt_yields|]. intros analysis _.
  do 4 (eapply yields_bind; [apply getRandomModifiers_returns|]; intros ? _).
  eapply yields_bind with (Q := fun _ => True).
  - destruct (hasHumanSubject _).
    + eapply yields_bind; [apply getRandomModifiers_returns|]. intros h _.
      now apply yields_ret.
    + now apply yields_ret.
  - intros h _. now apply yields_ret.
Qed.

(** ** Imperfection phrases *)



Lemma filter_none {A} (f : A -> bool) (l : list A) :
  (forall x, In x l -> f x = false) -> filter f l = [].
Proof.
  induction l as [|x l IH]; simpl; intros H; [reflexivity|].
  rewrite (H x) by now left. apply IH. intros y Hy. apply H. now right.
Qed.




(** ** Configuration values outside the choices *)

Lemma jsstring_eqb_neq (a b : jsstring) : a <> b -> jsstring_eqb a b = false.
Proof.
  intros H. destruct (jsstring_eqb a b) eqn:E; [|reflexivity].
  apply jsstring_eqb_eq in E. contradiction.
Qed.

Lemma buildTechnicalModifiers_other_mood style m :
  m <> js "moody" -> m <> js "harsh" ->
  buildTechnicalModifiers style (Some m) = buildTechnicalModifiers style (Some (js "natural")).
Proof.
  intros H1 H2. unfold buildTechnicalModifiers. simpl default.
  rewrite (jsstring_eqb_neq _ _ H1), (jsstring_eqb_neq _ _ H2). reflexivity.
Qed.

Lemma buildImperfections_other_level l :
  l <> js "high" -> l <> js "low" ->
  buildImperfections (Some l) = buildImperfections (Some (js "medium")).
Proof.
  intros H1 H2. unfold buildImperfections. simpl default.
  rewrite (jsstring_eqb_neq _ _ H1), (jsstring_eqb_neq _ _ H2). reflexivity.
Qed.

(** C4, the counterexample: a style outside the three choices is not
    treated as ["film"].  It takes the last branch of the camera choice,
    the one of ["phone"], and still gets a lens: the modifiers start with
    ["smartphone photo"] where ["film"] gives a film stock. *)
Lemma invalid_style_is_not_film :
  exists r st r' st',
    transformPrompt (VString (js "a cat")) (mkOptions (Some (js "vintage")) None None None)
                    (fresh []) = (Normal r, st)
    /\ transformPrompt (VString (js "a cat")) (mkOptions (Some (js "film")) None None None)
                       (fresh []) = (Normal r', st')
    /\ modifiersAdded r
       = map js ["smartphone photo"; "35mm lens"; "golden hour light"; "film grain";
                 "slight motion blur"; "off-center composition"]
    /\ modifiersAdded r'
       = map js ["shot on 35mm film"; "35mm lens"; "golden hour light"; "film grain";
                 "slight motion blur"; "off-center composition"]
    /\ transformed r <> transformed r'.
Proof.
  do 4 eexists. split; [vm_compute; reflexivity|].
  split; [vm_compute; reflexivity|].
  vm_compute. repeat split. discriminate.
Qed.

(** C4, amended: [transformPrompt] returns for every string prompt and
    every configuration, whatever its style, mood and imperfection level
    hold; a mood outside ["natural"], ["moody"], ["harsh"] acts exactly as
    the default ["natural"], and an imperfection level outside ["low"],
    ["medium"], ["high"] exactly as the default ["medium"] (same result and
    same final store, from the same store), whatever the other fields
    hold. *)
Theorem invalid_mood_and_level_resolve (text : jsstring) (options : Options)
    (st : Store) :
  vocabulary_kept st ->
  (exists r st',
      transformPrompt (VString text) options st = (Normal r, st')
      /\ vocabulary_kept st')
  /\ (forall m,
         m <> js "natural" /\ m <> js "moody" /\ m <> js "harsh" ->
         transformPrompt (VString text) (with_mood (Some m) options) st
         = transformPrompt (VString text) (with_mood None options) st)
  /\ (forall l,
         l <> js "low" /\ l <> js "medium" /\ l <> js "high" ->
         transformPrompt (VString text) (with_level (Some l) options) st
         = transformPrompt (VString text) (with_level None options) st).
Proof.
  intros Hst. split; [|split].
  - destruct (transformPrompt_yields text options st Hst) as (r & st' & Heq & Hk & _).
    exists r, st'. split; [exact Heq | exact Hk].
  - intros m (_ & Hm1 & Hm2). unfold transformPrompt, with_mood. simpl.
    now rewrite (buildTechnicalModifiers_other_mood _ _ Hm1 Hm2).
  - intros l (Hl1 & _ & Hl2). unfold transformPrompt, with_level. simpl.
    now rewrite (buildImperfections_other_level _ Hl2 Hl1).
Qed.

Lemma invalid_mood_and_level_resolve_witness :
  vocabulary_kept (fresh [7])
  /\ (exists r st',
         transformPrompt (VString (js "a cat"))
           (mkOptions (Some (js "vintage")) (Some (js "moody")) (Some (js "extreme")) None)
           (fresh [7])
         = (Normal r, st')
         /\ vocabulary_kept st')
  /\ (forall m,
         m <> js "natural" /\ m <> js "moody" /\ m <> js "harsh" ->
         transformPrompt (VString (js "a cat"))
           (with_mood (Some m)
              (mkOptions (Some (js "vintage")) (Some (js "moody")) (Some (js "extreme")) None))
           (fresh [7])
         = transformPrompt (VString (js "a cat"))
             (with_mood None
                (mkOptions (Some (js "vintage")) (Some (js "moody")) (Some (js "extreme"))
                   None))
             (fresh [7]))
  /\ (forall l,
         l <> js "low" /\ l <> js "medium" /\ l <> js "high" ->
         transformPrompt (VString (js "a cat"))
           (with_level (Some l)
              (mkOptions (Some (js "vintage")) (Some (js "moody")) (Some (js "extreme")) None))
           (fresh [7])
         = transformPrompt (VString (js "a cat"))
             (with_level None
                (mkOptions (Some (js "vintage")) (Some (js "moody")) (Some (js "extreme"))
                   None))
             (fresh [7])).
Proof.
  split; [apply fresh_vocabulary_kept|].
  exact (invalid_mood_and_level_resolve (js "a cat")
           (mkOptions (Some (js "vintage")) (Some (js "moody")) (Some (js "extreme")) None)
           (fresh [7]) (fresh_vocabulary_kept [7])).
Defined.

(** ** The matcher finds matches only *)

Lemma last_of_app prev w1 w2 : last_of prev (w1 ++ w2) = last_of (last_of prev w1) w2.
Proof. unfold last_of. apply fold_left_app. Qed.

Lemma star_match_sound (A : Type) f prev s (k : option N -> jsstring -> option A) x :
  star_match f prev s k = Some x ->
  exists w rest,
    s = w ++ rest /\ forallb f w = true /\ k (last_of prev w) rest = Some x.
Proof.
  revert prev; induction s as [|c s IH]; intros prev H; simpl in H.
  - exists [], []. auto.
  - destruct (f c) eqn:Hc.
    + destruct (star_match f (Some c) s k) as [y|] eqn:E.
      * inversion H; subst. destruct (IH _ E) as (w & rest & -> & Hw & Hk).
        exists (c :: w), rest. simpl. rewrite Hc. auto.
      * exists [], (c :: s). auto.
    + exists [], (c :: s). auto.
Qed.

Lemma rmatch_sound ic r :
  forall (A : Type) prev s (k : option N -> jsstring -> option A) x,
    rmatch ic r prev s k = Some x ->
    exists w rest,
      s = w ++ rest /\ Matches ic r prev w rest /\ k (last_of prev w) rest = Some x.
Proof.
  induction r as [|p|f|a IHa b IHb|a IHa b IHb|a IHa|f| | | |a IHa];
    intros A prev s k x H; simpl in H.
  - exists [], s. simpl. auto.
  - destruct s as [|c s]; [discriminate|].
    destruct (char_eqb ic p c) eqn:E; [|discriminate].
    exists [c], s. simpl. split; [reflexivity|]. split; [|exact H]. now exists c.
  - destruct s as [|c s]; [discriminate|].
    destruct (f c) eqn:E; [|discriminate].
    exists [c], s. simpl. split; [reflexivity|]. split; [|exact H]. now exists c.
  - apply IHa in H. destruct H as (w1 & rest1 & -> & Ha & H).
    apply IHb in H. destruct H as (w2 & rest & -> & Hb & H).
    exists (w1 ++ w2), rest. rewrite app_assoc, last_of_app.
    split; [reflexivity|]. split; [|exact H]. simpl. now exists w1, w2.
  - destruct (rmatch ic a prev s k) as [y|] eqn:E.
    + inversion H; subst. apply IHa in E. destruct E as (w & rest & -> & Ha & Hk).
      exists w, rest. simpl. auto.
    + apply IHb in H. destruct H as (w & rest & -> & Hb & Hk).
      exists w, rest. simpl. auto.
  - destruct (rmatch ic a prev s k) as [y|] eqn:E.
    + inversion H; subst. apply IHa in E. destruct E as (w & rest & -> & Ha & Hk).
      exists w, rest. simpl. auto.
    + exists [], s. simpl. auto.
  - apply star_match_sound in H. destruct H as (w & rest & -> & Hw & Hk).
    exists w, rest. simpl. auto.
  - destruct (xorb (word_before prev) (word_after s)) eqn:E; [|discriminate].
    exists [], s. simpl. auto.
  - destruct prev; [discriminate|]. exists [], s. simpl. auto.
  - destruct s; [|discriminate]. exists [], []. simpl. auto.
  - destruct (rmatch ic a prev s (fun _ _ => Some tt)); [discriminate|].
    exists [], s. simpl. auto.
Qed.

(** A match found at the current position: the text it covers, and what
    follows it. *)
Lemma match_here_sound ic r prev s len :
  match_here ic r prev s = Some len ->
  exists w rest,
    s = w ++ rest /\ Matches ic r prev w rest /\ len = length w
    /\ firstn len s = w /\ skipn len s = rest.
Proof.
  unfold match_here. intros H. apply rmatch_sound in H.
  destruct H as (w & rest & -> & Hm & Hk). inversion Hk; subst.
  exists w, rest. rewrite length_app.
  replace (length w + length rest - length rest) with (length w) by lia.
  repeat split; auto.
  - now rewrite firstn_app, firstn_all, Nat.sub_diag, app_nil_r.
  - now rewrite skipn_app, skipn_all, Nat.sub_diag.
Qed.

(** ** Word characters *)

Ltac bools :=
  repeat match goal with
         | H : _ && _ = true |- _ => apply andb_true_iff in H; destruct H
         | H : _ || _ = true |- _ => apply orb_true_iff in H; destruct H
         | H : _ && _ = false |- _ => apply andb_false_iff in H; destruct H
         | H : _ || _ = false |- _ => apply orb_false_iff in H; destruct H
         | H : N.leb _ _ = true |- _ => apply N.leb_le in H
         | H : N.leb _ _ = false |- _ => apply N.leb_gt in H
         | H : N.eqb _ _ = true |- _ => apply N.eqb_eq in H
         | H : N.eqb _ _ = false |- _ => apply N.eqb_neq in H
         end.

Lemma char_eqb_word ic p c : char_eqb ic p c = true -> is_word c = is_word p.
Proof.
  unfold char_eqb, canonicalize, is_word, in_range. intros H.
  destruct ic.
  - destruct (N.leb 97 p && N.leb p 122) eqn:Ep;
      destruct (N.leb 97 c && N.leb c 122) eqn:Ec; bools;
      repeat match goal with
             | |- context [N.leb ?a ?b] => destruct (N.leb_spec a b)
             | |- context [N.eqb ?a ?b] => destruct (N.eqb_spec a b)
             end; simpl; try reflexivity; lia.
  - bools. now subst.
Qed.

Lemma space_not_word c : is_space c = true -> is_word c = false.
Proof.
  unfold is_space, is_word, in_range. intros H.
  repeat match goal with
         | |- context [N.leb ?a ?b] => destruct (N.leb_spec a b)
         | |- context [N.eqb ?a ?b] => destruct (N.eqb_spec a b)
         end; simpl; try reflexivity; exfalso; bools; lia.
Qed.

Lemma comma_or_space_not_word c : is_comma_or_space c = true -> is_word c = false.
Proof.
  unfold is_comma_or_space. intros H. apply orb_true_iff in H. destruct H as [H|H].
  - apply N.eqb_eq in H. subst. reflexivity.
  - now apply space_not_word.
Qed.

Lemma letter_word c : is_letter c = true -> is_word c = true /\ c <> 56%N.
Proof.
  unfold is_letter, is_word, in_range. intros H. split.
  - repeat match goal with
           | |- context [N.leb ?a ?b] => destruct (N.leb_spec a b)
           | |- context [N.eqb ?a ?b] => destruct (N.eqb_spec a b)
           end; simpl; try reflexivity; exfalso; bools; lia.
  - bools; lia.
Qed.

Lemma char_eqb_letter ic p c : char_eqb ic p c = true -> is_letter p = true -> is_letter c = true.
Proof.
  unfold char_eqb, canonicalize, is_letter, in_range. intros H Hp.
  destruct ic.
  - destruct (N.leb 97 p && N.leb p 122) eqn:Ep;
      destruct (N.leb 97 c && N.leb c 122) eqn:Ec; bools;
      repeat match goal with
             | |- context [N.leb ?a ?b] => destruct (N.leb_spec a b)
             | |- context [N.eqb ?a ?b] => destruct (N.eqb_spec a b)
             end; simpl; try reflexivity; lia.
  - apply N.eqb_eq in H. subst. exact Hp.
Qed.

Lemma first_word_sound ic r prev w rest :
  first_word r = true -> Matches ic r prev w rest ->
  exists c w', w = c :: w' /\ is_word c = true.
Proof.
  revert prev w rest; induction r; intros prev w rest Hf Hm; simpl in Hf, Hm;
    try discriminate.
  - destruct Hm as (c & -> & Hc). exists c, []. split; [reflexivity|].
    now rewrite (char_eqb_word _ _ _ Hc).
  - destruct Hm as (w1 & w2 & -> & H1 & H2).
    destruct (IHr1 _ _ _ Hf H1) as (c & w' & -> & Hc). exists c, (w' ++ w2). auto.
  - apply andb_true_iff in Hf. destruct Hf as [Ha Hb].
    destruct Hm as [Hm|Hm]; eauto.
Qed.

Lemma last_word_sound ic r prev w rest :
  last_word r = true -> Matches ic r prev w rest ->
  exists w' c, w = w' ++ [c] /\ is_word c = true.
Proof.
  revert prev w rest; induction r; intros prev w rest Hf Hm; simpl in Hf, Hm;
    try discriminate.
  - destruct Hm as (c & -> & Hc). exists [], c. split; [reflexivity|].
    now rewrite (char_eqb_word _ _ _ Hc).
  - destruct Hm as (w1 & w2 & -> & H1 & H2).
    destruct (IHr2 _ _ _ Hf H2) as (w' & c & -> & Hc). exists (w1 ++ w'), c.
    now rewrite app_assoc.
  - apply andb_true_iff in Hf. destruct Hf as [Ha Hb].
    destruct Hm as [Hm|Hm]; eauto.
Qed.

Lemma letters_sound ic r prev w rest :
  letters r = true -> Matches ic r prev w rest -> forallb is_letter w = true.
Proof.
  revert prev w rest; induction r; intros prev w rest Hf Hm; simpl in Hf, Hm;
    try discriminate.
  - destruct Hm as (c & -> & Hc). simpl. now rewrite (char_eqb_letter _ _ _ Hc Hf).
  - apply andb_true_iff in Hf. destruct Hf as [Ha Hb].
    destruct Hm as (w1 & w2 & -> & H1 & H2). rewrite forallb_app.
    now rewrite (IHr1 _ _ _ Ha H1), (IHr2 _ _ _ Hb H2).
  - apply andb_true_iff in Hf. destruct Hf as [Ha Hb].
    destruct Hm as [Hm|Hm]; eauto.
Qed.

(** ** Reading a text for the token *)

Lemma run_app q a b : run q (a ++ b) = run (run q a) b.
Proof. unfold run. apply fold_left_app. Qed.

Lemma run_Found s : run Found s = Found.
Proof. induction s; simpl; auto. Qed.

Lemma k_is_word c : is_k c = true -> is_word c = true.
Proof.
  unfold is_k. intros H. apply orb_true_iff in H.
  destruct H as [H|H]; apply N.eqb_eq in H; subst; reflexivity.
Qed.

Lemma Inv_step q prev c s :
  Inv q prev (c :: s) -> occurs_here prev (c :: s) = false -> Inv (step q c) (Some c) s.
Proof.
  unfold Inv at 1, occurs_here. intros HI Hocc.
  destruct q; simpl step.
  - (* AtBoundary *)
    destruct (N.eqb_spec c 56) as [->|Hne].
    + destruct HI as [HI|HI]; [|discriminate]. rewrite HI in Hocc. simpl in Hocc.
      destruct s as [|c2 rest]; simpl; [reflexivity|]. split; [reflexivity|].
      exact Hocc.
    + destruct (is_word c) eqn:Hw; destruct s; simpl; auto.
  - (* InWord *)
    destruct (is_word c) eqn:Hw; destruct s; simpl; auto.
  - (* SeenEight *)
    destruct HI as [Hp Hk]. destruct (is_k c) eqn:Ek.
    + simpl in Hk. apply negb_false_iff in Hk.
      destruct s as [|c2 rest]; [discriminate|]. simpl in Hk. simpl.
      split; [now apply k_is_word | exact Hk].
    + destruct (is_word c) eqn:Hw; destruct s; simpl; auto.
  - (* SeenEightK *)
    destruct HI as [Hp Hw]. rewrite Hw. destruct s; simpl; auto.
  - contradiction.
Qed.

(** ** A global replacement keeps a text free of the token *)

Section Scan.

Variables (ic : bool) (r : regex).
Variable answer : jsstring -> jsstring -> Prop.
Variable Good : option N -> jsstring -> Prop.

Hypothesis Good_tail : forall prev c s, Good prev (c :: s) -> Good (Some c) s.

Hypothesis hit :
  forall q prev w rest text,
    Matches ic r prev w rest ->
    Inv q prev (w ++ rest) ->
    answer w text ->
    w <> [] /\ Inv (run q text) (last_of prev w) rest.

Hypothesis miss :
  forall prev s,
    Good prev s -> match_here ic r prev s = None -> occurs_here prev s = false.

Lemma segments_clean :
  forall s prev q skip out,
    skip <= length s ->
    Inv q (last_of prev (firstn skip s)) (skipn skip s) ->
    Good prev s ->
    Rendered answer (segments ic r prev s skip) out ->
    accepting (run q out) = false.
Proof.
  induction s as [|c s IH]; intros prev q skip out Hskip HI HG HR.
  - assert (skip = 0) by (simpl in Hskip; lia). subst skip.
    simpl in HI, HR.
    destruct (match_here ic r prev []) as [len|] eqn:E.
    + apply match_here_sound in E.
      destruct E as (w & rest & Hs & Hm & _).
      symmetry in Hs. apply app_eq_nil in Hs. destruct Hs as [-> ->].
      inversion HR as [| |m text rest' out' Ha Hrest]; subst.
      destruct (hit q prev [] [] text Hm HI) as [Hne _]; [|congruence].
      destruct len; exact Ha.
    + inversion HR; subst. exact HI.
  - destruct skip as [|n].
    + change (Inv q prev (c :: s)) in HI. simpl segments in HR.
      destruct (match_here ic r prev (c :: s)) as [len|] eqn:E.
      * apply match_here_sound in E.
        destruct E as (w & rest & Hs & Hm & Hlen & Hfirst & Hskipn).
        inversion HR as [| |m text rest' out' Ha Hrest]; subst m rest' out.
        rewrite Hfirst in Ha. rewrite Hs in HI.
        destruct (hit q prev w rest text Hm HI Ha) as [Hne HI'].
        destruct w as [|c0 w]; [congruence|].
        simpl in Hs. inversion Hs; subst c0 s. simpl in Hlen. subst len.
        rewrite run_app. apply (IH (Some c) (run q text) (length w) out').
        -- rewrite length_app. lia.
        -- rewrite firstn_app, firstn_all, Nat.sub_diag, app_nil_r.
           rewrite skipn_app, skipn_all, Nat.sub_diag. exact HI'.
        -- exact (Good_tail _ _ _ HG).
        -- exact Hrest.
      * inversion HR as [|c0 rest' out' Hrest|]; subst.
        change (run q (c :: out')) with (run (step q c) out').
        apply (IH (Some c) (step q c) 0 out').
        -- lia.
        -- change (Inv (step q c) (Some c) s).
           apply (Inv_step q prev c s HI). apply miss; assumption.
        -- exact (Good_tail _ _ _ HG).
        -- exact Hrest.
    + simpl segments in HR. simpl in Hskip.
      apply (IH (Some c) q n out).
      * lia.
      * exact HI.
      * exact (Good_tail _ _ _ HG).
      * exact HR.
Qed.

End Scan.

(** ** The token, by position and by test *)

Lemma char_eqb_eight c : char_eqb true 56 c = true -> c = 56%N.
Proof.
  unfold char_eqb, canonicalize, in_range. simpl N.leb. simpl andb. cbv iota.
  destruct (N.leb 97 c && N.leb c 122) eqn:E; intros H; bools; lia.
Qed.

Lemma char_eqb_k c : char_eqb true 107 c = true -> is_k c = true.
Proof.
  unfold char_eqb, canonicalize, in_range, is_k.
  change (N.leb 97 107 && N.leb 107 122) with true. cbv iota.
  change (107 - 32)%N with 75%N.
  destruct (N.leb 97 c && N.leb c 122) eqn:E; intros H; bools.
  - assert (c = 107%N) by lia. subst. reflexivity.
  - subst. reflexivity.
  - subst. reflexivity.
Qed.

Lemma match_here_8k_occurs prev s len :
  match_here true (source standalone_8k) prev s = Some len -> occurs_here prev s = true.
Proof.
  intros H. apply match_here_sound in H.
  destruct H as (w & rest & -> & Hm & _).
  simpl in Hm.
  destruct Hm as (w1 & w2 & -> & (-> & Hb1) & (w3 & w4 & -> & Hbody & (-> & Hb2))).
  destruct Hbody as (x1 & x2 & -> & (c1 & -> & Hc1) & (c2 & -> & Hc2)).
  simpl in *. apply char_eqb_eight in Hc1. subst c1.
  apply char_eqb_k in Hc2. unfold occurs_here. simpl.
  rewrite Hc2. rewrite (k_is_word _ Hc2) in Hb2. simpl in Hb2.
  rewrite xorb_true_r in Hb1. rewrite Hb1.
  destruct (word_after rest); [discriminate | reflexivity].
Qed.

Lemma clean_no_search prev s :
  clean prev s -> search true (source standalone_8k) prev s = None.
Proof.
  assert (Hm : forall prev s, occurs_here prev s = false ->
                 match_here true (source standalone_8k) prev s = None).
  { intros p t Hocc.
    destruct (match_here true (source standalone_8k) p t) eqn:E; [|reflexivity].
    apply match_here_8k_occurs in E. congruence. }
  revert Hm. generalize (source standalone_8k). intros r8 Hm.
  revert prev; induction s as [|c s IH]; intros prev [Hocc Hrest]; simpl search.
  - now rewrite (Hm _ _ Hocc).
  - now rewrite (Hm _ _ Hocc), (IH _ Hrest).
Qed.

Lemma tracks_step q prev c :
  tracks q prev -> step q c <> Found -> tracks (step q c) (Some c).
Proof.
  destruct q; simpl; intros Ht Hne;
    repeat match goal with
           | |- context [if ?b then _ else _] => destruct b eqn:?
           end; simpl; auto; bools; subst; auto using k_is_word; try congruence.
Qed.

Lemma accepting_clean s :
  forall q prev, tracks q prev -> accepting (run q s) = false -> clean prev s.
Proof.
  induction s as [|c s IH]; intros q prev Ht Hacc.
  - split; [|exact I]. unfold occurs_here. now rewrite andb_false_r.
  - change (run q (c :: s)) with (run (step q c) s) in Hacc.
    assert (Hne : step q c <> Found).
    { intros E. rewrite E, run_Found in Hacc. discriminate. }
    split; [|exact (IH _ _ (tracks_step q prev c Ht Hne) Hacc)].
    unfold occurs_here.
    destruct (word_before prev) eqn:Hp; [reflexivity|]. simpl.
    destruct s as [|c2 rest]; [reflexivity|].
    destruct (N.eqb_spec c 56) as [->|]; [|reflexivity].
    destruct (is_k c2) eqn:Hk; [|reflexivity]. simpl.
    destruct q; simpl in Ht; try congruence; try contradiction.
    change (run (step AtBoundary 56) (c2 :: rest)) with (run (step SeenEight c2) rest) in Hacc.
    simpl step in Hacc. rewrite Hk in Hacc.
    destruct rest as [|c3 rest]; [discriminate|].
    simpl. change (run SeenEightK (c3 :: rest)) with (run (step SeenEightK c3) rest) in Hacc.
    simpl step in Hacc. destruct (is_word c3); [reflexivity|].
    rewrite run_Found in Hacc. discriminate.
Qed.

(** The reading of a text says whether it holds the token. *)
Lemma not_accepting_no_8k text :
  accepting (run AtBoundary text) = false -> contains_8k text = false.
Proof.
  intros H. apply (accepting_clean text AtBoundary None eq_refl) in H.
  apply clean_no_search in H. unfold contains_8k, regexp_test. simpl global.
  cbv iota. simpl ignoreCase. now rewrite H.
Qed.

(** ** Matches of the patterns of the transformer *)

Lemma char_eqb_comma ic c : char_eqb ic 44 c = true -> c = 44%N.
Proof.
  unfold char_eqb, canonicalize, in_range. simpl N.leb. simpl andb. cbv iota.
  destruct ic; [|intros H; bools; congruence].
  destruct (N.leb 97 c && N.leb c 122) eqn:E; intros H; bools; lia.
Qed.

Lemma last_of_snoc prev w c : last_of prev (w ++ [c]) = Some c.
Proof. now rewrite last_of_app. Qed.

Lemma last_of_class (P : N -> bool) prev w :
  w <> [] -> forallb P w = true ->
  exists c, last_of prev w = Some c /\ P c = true.
Proof.
  intros Hne Hall. destruct (exists_last Hne) as (w' & c & ->).
  rewrite forallb_app in Hall. apply andb_true_iff in Hall. destruct Hall as [_ Hc].
  simpl in Hc. rewrite andb_true_r in Hc.
  exists c. now rewrite last_of_snoc.
Qed.

Lemma tail_ok_Bnd : tail_ok Bnd.
Proof. intros ic prev w rest (-> & H). auto. Qed.

Lemma tail_ok_lookahead a : tail_ok (Bnd >> NegLA a)%re.
Proof.
  intros ic prev w rest (w1 & w2 & -> & (-> & H) & Hla). simpl in Hla. subst w2.
  auto.
Qed.

Lemma tail_ok_separator : tail_ok (Bnd >> Opt (Chr 44) >> Star is_space)%re.
Proof.
  intros ic prev w rest (w1 & w2 & -> & (-> & H) & (w3 & w4 & -> & Hopt & Hstar)).
  simpl in *. split; [exact H|].
  rewrite forallb_app. apply andb_true_iff. split.
  - destruct Hopt as [(c & -> & Hc)| ->]; [|reflexivity].
    apply char_eqb_comma in Hc. subst. reflexivity.
  - apply forallb_forall. intros c Hc. unfold is_comma_or_space.
    rewrite (proj1 (forallb_forall _ _) Hstar c Hc). apply orb_true_r.
Qed.

(** A match of [\b body tail]: it starts with a word character at a
    boundary, and the body ends with a word character at a boundary. *)
Lemma framed_match ic body tail prev w rest :
  first_word body = true -> last_word body = true -> tail_ok tail ->
  Matches ic (Bnd >> body >> tail)%re prev w rest ->
  exists wb wt c,
    w = wb ++ wt
    /\ Matches ic body prev wb (wt ++ rest)
    /\ Matches ic tail (last_of prev wb) wt rest
    /\ wb <> []
    /\ word_before prev = false
    /\ word_after (w ++ rest) = true
    /\ last_of prev wb = Some c /\ is_word c = true
    /\ forallb is_comma_or_space wt = true
    /\ word_after (wt ++ rest) = false.
Proof.
  intros Hf Hl Ht (w1 & w2 & -> & (-> & Hb) & (wb & wt & -> & Hbody & Htail)).
  simpl app in *. simpl last_of in *.
  destruct (first_word_sound _ _ _ _ _ Hf Hbody) as (c1 & wb' & Hwb & Hc1).
  destruct (last_word_sound _ _ _ _ _ Hl Hbody) as (wb'' & c & Hwb2 & Hc).
  destruct (Ht _ _ _ _ Htail) as (Hb2 & Hwt).
  assert (Hlast : last_of prev wb = Some c) by (rewrite Hwb2; apply last_of_snoc).
  rewrite Hlast in Hb2. simpl in Hb2. rewrite Hc in Hb2.
  assert (Hafter : word_after ((wb ++ wt) ++ rest) = true) by (rewrite Hwb; exact Hc1).
  rewrite <- app_assoc in Hb. rewrite <- app_assoc in Hafter. rewrite Hafter in Hb.
  exists wb, wt, c. rewrite <- app_assoc. repeat split; auto.
  - rewrite Hwb. discriminate.
  - rewrite xorb_true_r in Hb. now apply negb_true_iff in Hb.
  - now destruct (word_after (wt ++ rest)).
Qed.

Lemma Inv_at_word_start q prev c s :
  Inv q prev (c :: s) -> word_before prev = false -> q = AtBoundary.
Proof.
  destruct q; simpl; intros H Hp.
  - reflexivity.
  - congruence.
  - destruct H; congruence.
  - destruct H; congruence.
  - contradiction.
Qed.

Lemma Inv_after_frame prev wb wt rest c :
  last_of prev wb = Some c -> is_word c = true ->
  forallb is_comma_or_space wt = true ->
  word_after (wt ++ rest) = false ->
  Inv AtBoundary (last_of prev (wb ++ wt)) rest.
Proof.
  intros Hlast Hc Hwt Hafter. destruct rest as [|c' rest]; [reflexivity|].
  simpl. destruct wt as [|x wt].
  - right. exact Hafter.
  - left. rewrite last_of_app.
    destruct (last_of_class is_comma_or_space (last_of prev wb) (x :: wt))
      as (y & -> & Hy); [discriminate | exact Hwt |].
    simpl. now apply comma_or_space_not_word.
Qed.

(** Removing the matches of [\b body \b,?\s*]. *)
Lemma removal_hit body :
  first_word body = true -> last_word body = true ->
  forall q prev w rest text,
    Matches (ignoreCase (removal body)) (source (removal body)) prev w rest ->
    Inv q prev (w ++ rest) ->
    text = [] ->
    w <> [] /\ Inv (run q text) (last_of prev w) rest.
Proof.
  intros Hf Hl q prev w rest text Hm HI ->.
  destruct (framed_match _ _ _ _ _ _ Hf Hl tail_ok_separator Hm)
    as (wb & wt & c & -> & _ & _ & Hne & Hp & Hafter & Hlast & Hc & Hwt & Hend).
  split; [destruct wb; [congruence | discriminate]|].
  destruct ((wb ++ wt) ++ rest) as [|c0 s0] eqn:Es; [discriminate|].
  rewrite (Inv_at_word_start _ _ _ _ HI Hp). simpl run.
  eapply Inv_after_frame; eauto.
Qed.

(** Replacing the matches of [\b body \b] or [\b body \b(?!...)] by a
    text that reads as one or more words, the last one not the token. *)
Lemma substitution_hit ic body tail (answer : jsstring -> jsstring -> Prop) :
  first_word body = true -> last_word body = true -> tail_ok tail ->
  (forall ic prev w rest, Matches ic tail prev w rest -> w = []) ->
  (forall prev w rest text,
      Matches ic body prev w rest -> answer w text -> run AtBoundary text = InWord) ->
  forall q prev w rest text,
    Matches ic (Bnd >> body >> tail)%re prev w rest ->
    Inv q prev (w ++ rest) ->
    answer w text ->
    w <> [] /\ Inv (run q text) (last_of prev w) rest.
Proof.
  intros Hf Hl Ht Hempty Hans q prev w rest text Hm HI Ha.
  destruct (framed_match _ _ _ _ _ _ Hf Hl Ht Hm)
    as (wb & wt & c & -> & Hbody & Htail & Hne & Hp & Hafter & Hlast & Hc & Hwt & Hend).
  pose proof (Hempty _ _ _ _ Htail) as Hwt0. subst wt. rewrite app_nil_r in *.
  split; [exact Hne|].
  destruct (wb ++ rest) as [|c0 s0] eqn:Es; [discriminate|].
  rewrite (Inv_at_word_start _ _ _ _ HI Hp).
  rewrite (Hans _ _ _ _ Hbody Ha).
  destruct rest; simpl; [reflexivity|]. now rewrite Hlast.
Qed.

Lemma render_Rendered text segs :
  Rendered (fun _ t => t = text) segs (render text segs).
Proof.
  induction segs as [|[c|m] rest IH]; simpl; constructor; auto.
Qed.

Lemma Inv_start s : Inv AtBoundary None s.
Proof. destruct s; simpl; auto. Qed.

Lemma clean_tail prev c s : clean prev (c :: s) -> clean (Some c) s.
Proof. intros [_ H]. exact H. Qed.

Lemma clean_miss (ic : bool) (r : regex) prev s :
  clean prev s -> match_here ic r prev s = None -> occurs_here prev s = false.
Proof. intros H _. destruct s; exact (proj1 H). Qed.

(** A global replacement on a text without the token, when each match
    and its replacement keep the reading in order. *)
Lemma replacement_token_free R (answer : jsstring -> jsstring -> Prop) text out :
  (forall q prev w rest t,
      Matches (ignoreCase R) (source R) prev w rest ->
      Inv q prev (w ++ rest) -> answer w t ->
      w <> [] /\ Inv (run q t) (last_of prev w) rest) ->
  token_free text ->
  Rendered answer (scan R text) out ->
  token_free out.
Proof.
  intros Hhit Hfree HR. unfold token_free.
  apply (segments_clean (ignoreCase R) (source R) answer clean clean_tail Hhit
           (clean_miss _ _) text None AtBoundary 0 out).
  - lia.
  - apply Inv_start.
  - exact (accepting_clean text AtBoundary None eq_refl Hfree).
  - exact HR.
Qed.

(** ** The stripping removes the token *)

Lemma star_match_total (A : Type) f prev s (k : option N -> jsstring -> option A) :
  (forall p t, k p t <> None) -> star_match f prev s k <> None.
Proof.
  intros Hk. revert prev. induction s as [|c s IH]; intros prev; simpl.
  - apply Hk.
  - destruct (f c); [|apply Hk].
    destruct (star_match f (Some c) s k) eqn:E; [discriminate|]. apply Hk.
Qed.

Lemma resolution_miss prev s :
  match_here true (source (removal resolution_words)) prev s = None ->
  occurs_here prev s = false.
Proof.
  intros H. destruct (occurs_here prev s) eqn:Hocc; [exfalso|reflexivity].
  unfold occurs_here in Hocc. apply andb_true_iff in Hocc. destruct Hocc as [Hp Hs].
  destruct s as [|c1 [|c2 rest]]; try discriminate.
  apply andb_true_iff in Hs. destruct Hs as [Hs Hr].
  apply andb_true_iff in Hs. destruct Hs as [H8 Hk].
  apply N.eqb_eq in H8. subst c1. apply negb_true_iff in Hp, Hr.
  revert H. unfold match_here, removal, resolution_words, words. cbn [source re_gi map alts].
  cbn [rmatch]. rewrite Hp. cbn [word_after]. change (is_word 56) with true. cbn [xorb].
  match goal with
  | |- match ?X with Some x => Some x | None => _ end = None -> False =>
      destruct X eqn:E; [discriminate|]
  end.
  intros _. revert E.
  unfold is_k in Hk. apply orb_true_iff in Hk.
  destruct Hk as [Hk|Hk]; apply N.eqb_eq in Hk; subst c2;
    cbn; rewrite Hr; cbn;
    match goal with
    | |- match ?X with Some x => Some x | None => _ end = None -> False =>
        destruct X; [discriminate | apply star_match_total; intros; discriminate]
    end.
Qed.

(** The first removal of [cleanPrompt] leaves no token, whatever the
    prompt. *)
Lemma resolution_removed text :
  token_free (replace_all (removal resolution_words) [] text).
Proof.
  unfold token_free, replace_all, scan.
  apply (segments_clean (ignoreCase (removal resolution_words))
           (source (removal resolution_words))
           (fun _ t => t = []) (fun _ _ => True)
           (fun _ _ _ _ => I)
           (removal_hit resolution_words eq_refl eq_refl)
           (fun prev s _ => resolution_miss prev s)
           text None AtBoundary 0).
  - lia.
  - apply Inv_start.
  - exact I.
  - apply render_Rendered.
Qed.

Lemma replace_all_token_free R replacement text :
  (forall q prev w rest t,
      Matches (ignoreCase R) (source R) prev w rest ->
      Inv q prev (w ++ rest) -> t = replacement ->
      w <> [] /\ Inv (run q t) (last_of prev w) rest) ->
  token_free text -> token_free (replace_all R replacement text).
Proof.
  intros Hhit Hfree.
  exact (replacement_token_free R (fun _ t => t = replacement) text _ Hhit Hfree
           (render_Rendered replacement (scan R text))).
Qed.

Lemma removal_token_free body text :
  first_word body = true -> last_word body = true ->
  token_free text -> token_free (replace_all (removal body) [] text).
Proof.
  intros Hf Hl Hfree.
  apply replace_all_token_free; [apply removal_hit; assumption | exact Hfree].
Qed.

Lemma Inv_nonword_ahead q prev c s :
  Inv q prev (c :: s) -> is_word c = false -> accepting q = false.
Proof.
  destruct q; simpl; intros H Hc; try reflexivity.
  - destruct H; congruence.
  - contradiction.
Qed.

Lemma step_nonword q x :
  accepting q = false -> is_word x = false -> step q x = AtBoundary.
Proof.
  destruct q; simpl; intros Hq Hx; try discriminate; rewrite Hx.
  - destruct (N.eqb_spec x 56) as [->|]; [discriminate | reflexivity].
  - reflexivity.
  - destruct (is_k x) eqn:Hk; [|reflexivity].
    apply k_is_word in Hk. congruence.
Qed.

Lemma Inv_AtBoundary_nonword prev s : word_before prev = false -> Inv AtBoundary prev s.
Proof. intros H. destruct s; simpl; auto. Qed.

Lemma commas_hit q prev w rest text :
  Matches (ignoreCase commas) (source commas) prev w rest ->
  Inv q prev (w ++ rest) -> text = js "," ->
  w <> [] /\ Inv (run q text) (last_of prev w) rest.
Proof.
  intros Hm HI ->. unfold commas, re_g in Hm. cbn [source ignoreCase Matches] in Hm.
  destruct Hm as (w1 & w2 & -> & (c & -> & Hc) & (w3 & w4 & -> & Hsp & (c' & -> & Hc'))).
  apply char_eqb_comma in Hc, Hc'. subst c c'.
  split; [discriminate|].
  simpl app in HI.
  pose proof (Inv_nonword_ahead _ _ _ _ HI eq_refl) as Hq.
  change (run q (js ",")) with (step q 44). rewrite (step_nonword q 44 Hq eq_refl).
  apply Inv_AtBoundary_nonword.
  rewrite app_assoc, last_of_snoc. reflexivity.
Qed.

Lemma spaces_hit q prev w rest text :
  Matches (ignoreCase spaces) (source spaces) prev w rest ->
  Inv q prev (w ++ rest) -> text = js " " ->
  w <> [] /\ Inv (run q text) (last_of prev w) rest.
Proof.
  intros Hm HI ->. unfold spaces, plus, re_g in Hm. cbn [source ignoreCase Matches] in Hm.
  destruct Hm as (w1 & w2 & -> & (c & -> & Hc) & Hsp).
  split; [discriminate|].
  simpl app in HI.
  pose proof (Inv_nonword_ahead _ _ _ _ HI (space_not_word c Hc)) as Hq.
  change (run q (js " ")) with (step q 32). rewrite (step_nonword q 32 Hq eq_refl).
  apply Inv_AtBoundary_nonword.
  destruct (last_of_class is_space prev ([c] ++ w2)) as (y & -> & Hy).
  - discriminate.
  - simpl. now rewrite Hc.
  - simpl. now apply space_not_word.
Qed.

Lemma edges_hit q prev w rest text :
  Matches (ignoreCase edges) (source edges) prev w rest ->
  Inv q prev (w ++ rest) -> text = [] ->
  w <> [] /\ Inv (run q text) (last_of prev w) rest.
Proof.
  intros Hm HI ->. unfold edges, plus, re_g in Hm. cbn [source ignoreCase Matches] in Hm.
  simpl run.
  destruct Hm as [(w0 & w1 & -> & (-> & ->) & (w2 & w3 & -> & (c & -> & Hc) & Hcs))
                 |(w1 & w0 & -> & (w2 & w3 & -> & (c & -> & Hc) & Hcs) & (-> & ->))].
  - split; [discriminate|]. simpl app in HI.
    rewrite (Inv_at_word_start _ _ _ _ HI eq_refl).
    apply Inv_AtBoundary_nonword.
    destruct (last_of_class is_comma_or_space None ([] ++ [c] ++ w3)) as (y & -> & Hy).
    + discriminate.
    + simpl. now rewrite Hc.
    + simpl. now apply comma_or_space_not_word.
  - split; [discriminate|]. simpl app in HI. simpl.
    exact (Inv_nonword_ahead _ _ _ _ HI (comma_or_space_not_word c Hc)).
Qed.

(** [cleanPrompt] leaves no token. *)
Lemma cleanPrompt_token_free text : token_free (cleanPrompt text).
Proof.
  unfold cleanPrompt.
  apply replace_all_token_free; [exact edges_hit|].
  apply replace_all_token_free; [exact spaces_hit|].
  apply replace_all_token_free; [exact commas_hit|].
  do 4 (apply removal_token_free; [reflexivity | reflexivity |]).
  apply resolution_removed.
Qed.

(** ** The enhancements and the modifiers bring no token *)

Lemma reads_as_words_run text : reads_as_words text = true -> run AtBoundary text = InWord.
Proof. unfold reads_as_words. destruct (run AtBoundary text); congruence. Qed.

Lemma run_InWord_letters w : forallb is_letter w = true -> run InWord w = InWord.
Proof.
  induction w as [|c w IH]; simpl; intros H; [reflexivity|].
  apply andb_true_iff in H. destruct H as [Hc Hw].
  destruct (letter_word c Hc) as [Hword _]. rewrite Hword. now apply IH.
Qed.

Lemma run_letters w :
  w <> [] -> forallb is_letter w = true -> run AtBoundary w = InWord.
Proof.
  destruct w as [|c w]; [congruence|]. intros _ H. simpl in H.
  apply andb_true_iff in H. destruct H as [Hc Hw].
  destruct (letter_word c Hc) as [Hword Hne].
  change (run AtBoundary (c :: w)) with (run (step AtBoundary c) w). simpl step.
  destruct (N.eqb_spec c 56); [contradiction|]. rewrite Hword.
  now apply run_InWord_letters.
Qed.

Lemma subject_texts_read_as_words :
  forallb (fun age =>
             forallb (fun detail => reads_as_words (js age ++ js " " ++ js detail)) details)
          ages = true.
Proof. vm_compute. reflexivity. Qed.

Lemma subject_hit q prev w rest text :
  Matches (ignoreCase generic_woman_man) (source generic_woman_man) prev w rest ->
  Inv q prev (w ++ rest) -> subject_answer w text ->
  w <> [] /\ Inv (run q text) (last_of prev w) rest.
Proof.
  unfold generic_woman_man, re_gi. cbn [source ignoreCase].
  apply substitution_hit with (answer := subject_answer).
  - reflexivity.
  - reflexivity.
  - apply tail_ok_lookahead.
  - intros ic p t u (w1 & w2 & -> & (-> & _) & Hla). simpl in Hla. now subst.
  - clear. intros prev w rest text Hm (age & detail & Hage & Hdetail & ->).
    destruct Hm as (w1 & w2 & -> & Ha & Hsubject).
    assert (Hw1 : exists c1 c2, w1 = [c1; c2]).
    { destruct Ha as (x1 & x2 & -> & (c1 & -> & _) & (c2 & -> & _)). now exists c1, c2. }
    destruct Hw1 as (c1 & c2 & ->). simpl skipn.
    assert (Hletters : forallb is_letter w2 = true).
    { eapply letters_sound; [|exact Hsubject]. reflexivity. }
    assert (Hne : w2 <> []).
    { destruct (first_word_sound true (words ["woman"; "man"]) _ _ _ eq_refl Hsubject)
        as (c & w' & -> & _).
      discriminate. }
    rewrite !run_app. change (run AtBoundary (js "a ")) with AtBoundary.
    rewrite (run_letters w2 Hne Hletters). change (run InWord (js " ")) with AtBoundary.
    rewrite <- !run_app. apply reads_as_words_run.
    pose proof (proj1 (forallb_forall _ _) subject_texts_read_as_words age Hage) as H1.
    exact (proj1 (forallb_forall _ _) H1 detail Hdetail).
Qed.

Lemma person_texts_read_as_words :
  forallb (fun type => reads_as_words (js type)) types = true.
Proof. vm_compute. reflexivity. Qed.

Lemma person_hit q prev w rest text :
  Matches (ignoreCase generic_person) (source generic_person) prev w rest ->
  Inv q prev (w ++ rest) -> person_answer w text ->
  w <> [] /\ Inv (run q text) (last_of prev w) rest.
Proof.
  unfold generic_person, re_gi. cbn [source ignoreCase].
  apply substitution_hit with (answer := person_answer).
  - reflexivity.
  - reflexivity.
  - apply tail_ok_lookahead.
  - intros ic p t u (w1 & w2 & -> & (-> & _) & Hla). simpl in Hla. now subst.
  - clear. intros prev w rest text _ (type & Htype & ->).
    apply reads_as_words_run.
    exact (proj1 (forallb_forall _ _) person_texts_read_as_words type Htype).
Qed.

Lemma subject_enhanced_token_free text out :
  token_free text -> subject_enhanced text out -> token_free out.
Proof.
  intros Hfree (with_subject & Hs & Hp).
  apply (replacement_token_free generic_person person_answer with_subject out person_hit);
    [|exact Hp].
  exact (replacement_token_free generic_woman_man subject_answer text with_subject
           subject_hit Hfree Hs).
Qed.

Lemma location_families_framed :
  forallb (fun entry =>
             match source (location_regex (fst entry)) with
             | Seq Bnd (Seq body Bnd) =>
                 first_word body && last_word body
                 && forallb (fun specific => reads_as_words (js "at " ++ js specific))
                            (snd entry)
             | _ => false
             end)
          locationEnhancements = true.
Proof. vm_compute. reflexivity. Qed.

Lemma location_enhanced_token_free text out :
  token_free text -> location_enhanced text out -> token_free out.
Proof.
  intros Hfree [->|(generic & specifics & specific & Hin & Hsp & ->)]; [exact Hfree|].
  pose proof (proj1 (forallb_forall _ _) location_families_framed _ Hin) as H.
  simpl fst in H. simpl snd in H.
  apply replace_all_token_free; [|exact Hfree].
  unfold location_regex, re_gi, bounded in *. cbn [source ignoreCase] in *.
  apply andb_true_iff in H. destruct H as [H Hreads].
  apply andb_true_iff in H. destruct H as [Hf Hl].
  pose proof (proj1 (forallb_forall _ _) Hreads _ Hsp) as Hread.
  intros q prev w rest t Hm HI Ht.
  apply (substitution_hit true _ Bnd (fun _ t => t = js "at " ++ js specific)
           Hf Hl tail_ok_Bnd) with (q := q) (prev := prev) (rest := rest) (w := w);
    auto.
  - intros ic p u v (-> & _). reflexivity.
  - intros p u v t' _ ->. now apply reads_as_words_run.
Qed.

Lemma enhanced_from_token_free text out :
  token_free text -> enhanced_from text out -> token_free out.
Proof.
  intros Hfree (with_person & Hs & Hl).
  eapply location_enhanced_token_free; [|exact Hl].
  eapply subject_enhanced_token_free; eauto.
Qed.

Lemma injectable_token_free :
  forallb (fun phrase => negb (accepting (run AtBoundary phrase))) injectable = true.
Proof. vm_compute. reflexivity. Qed.

Lemma join_token_free base phrases :
  token_free base ->
  (forall phrase, In phrase phrases -> token_free phrase) ->
  token_free (join (js ", ") (base :: phrases)).
Proof.
  revert base; induction phrases as [|p rest IH]; intros base Hbase Hall.
  - exact Hbase.
  - change (join (js ", ") (base :: p :: rest))
      with (base ++ js ", " ++ join (js ", ") (p :: rest)).
    unfold token_free. rewrite !run_app.
    assert (Hsep : run (run AtBoundary base) (js ", ") = AtBoundary).
    { unfold token_free in Hbase.
      change (run (run AtBoundary base) (js ", "))
        with (step (step (run AtBoundary base) 44) 32).
      now rewrite (step_nonword _ 44 Hbase eq_refl). }
    rewrite Hsep. apply IH.
    + apply Hall. now left.
    + intros phrase Hin. apply Hall. now right.
Qed.

(** C9: for every string prompt that holds [8k] as a word of its own and
    every configuration in which [preserveOriginal] is unset (or false),
    from every store whose tables hold their phrases, the text
    [transformPrompt] returns does not hold the token [8k] as a word of its
    own, in either case: the stripping removes every occurrence, the
    enhancements bring none, and no phrase of the tables holds one. *)
Theorem transformPrompt_strips_8k (text : jsstring) (options : Options) (st : Store) :
  vocabulary_kept st ->
  resolved_preserve options = false ->
  contains_8k text = true ->
  exists r st',
    transformPrompt (VString text) options st = (Normal r, st')
    /\ contains_8k (transformed r) = false.
Proof.
  intros Hst Hpreserve _.
  destruct (transformPrompt_yields text options st Hst) as (r & st' & Heq & _ & _ & Hpost).
  destruct Hpost as (base & technical & imps & comp & human
                     & Hbase & Ht & Hi & Hc & Hh & _ & Hmods & Htransformed).
  exists r, st'. split; [exact Heq|].
  apply not_accepting_no_8k. rewrite Htransformed.
  rewrite Hpreserve in Hbase.
  apply join_token_free.
  - exact (enhanced_from_token_free _ _ (cleanPrompt_token_free text) Hbase).
  - intros phrase Hin. rewrite Hmods in Hin.
    pose proof (modifiers_injectable _ _ _ _ _ Ht Hi Hc Hh phrase Hin) as Hinj.
    pose proof (proj1 (forallb_forall _ _) injectable_token_free phrase Hinj) as H.
    now apply negb_true_iff in H.
Qed.

Lemma transformPrompt_strips_8k_witness :
  vocabulary_kept (fresh [5; 3])
  /\ resolved_preserve no_options = false
  /\ contains_8k (js "Portrait of a man, 8K, highly detailed") = true
  /\ exists r st',
       transformPrompt (VString (js "Portrait of a man, 8K, highly detailed")) no_options
                       (fresh [5; 3]) = (Normal r, st')
       /\ contains_8k (transformed r) = false.
Proof.
  split; [apply fresh_vocabulary_kept|]. split; [reflexivity|].
  split; [vm_compute; reflexivity|].
  apply (transformPrompt_strips_8k (js "Portrait of a man, 8K, highly detailed")
           no_options (fresh [5; 3])).
  - apply fresh_vocabulary_kept.
  - reflexivity.
  - vm_compute; reflexivity.
Defined.

(** ** Blank prompts *)

Lemma render_keep text s : render text (map Keep s) = s.
Proof. induction s; simpl; congruence. Qed.

Lemma segments_no_hit ic r s :
  forall prev,
    (forall p t, match_here ic r p t = None \/ word_after t = true) ->
    forallb is_space s = true ->
    segments ic r prev s 0 = map Keep s.
Proof.
  intros prev Hnone. revert prev.
  induction s as [|c s IH]; intros prev Hs; simpl.
  - destruct (Hnone prev []) as [->|H]; [reflexivity | discriminate].
  - simpl in Hs. apply andb_true_iff in Hs. destruct Hs as [Hc Hs].
    destruct (Hnone prev (c :: s)) as [->|H].
    + now rewrite IH.
    + simpl in H. rewrite (space_not_word c Hc) in H. discriminate.
Qed.

Lemma removal_needs_word body p t :
  first_word body = true -> last_word body = true ->
  match_here (ignoreCase (removal body)) (source (removal body)) p t = None
  \/ word_after t = true.
Proof.
  intros Hf Hl.
  destruct (match_here _ _ p t) as [len|] eqn:E; [right | now left].
  apply match_here_sound in E. destruct E as (w & rest & -> & Hm & _).
  destruct (framed_match _ _ _ _ _ _ Hf Hl tail_ok_separator Hm)
    as (wb & wt & c & _ & _ & _ & _ & _ & Hafter & _).
  exact Hafter.
Qed.

Lemma removal_blank body text :
  first_word body = true -> last_word body = true ->
  forallb is_space text = true ->
  replace_all (removal body) [] text = text.
Proof.
  intros Hf Hl Hs. unfold replace_all, scan.
  rewrite segments_no_hit; [apply render_keep | | exact Hs].
  intros p t. now apply removal_needs_word.
Qed.

Lemma commas_blank text :
  forallb is_space text = true -> replace_all commas (js ",") text = text.
Proof.
  intros Hs. unfold replace_all, scan.
  assert (Hnone : forall prev, segments (ignoreCase commas) (source commas) prev text 0
                               = map Keep text).
  { induction text as [|c s IH]; intros prev; [reflexivity|].
    simpl in Hs. apply andb_true_iff in Hs. destruct Hs as [Hc Hs].
    cbn [segments].
    assert (E : match_here (ignoreCase commas) (source commas) prev (c :: s) = None).
    { unfold match_here, commas, re_g. cbn [source ignoreCase rmatch].
      destruct (char_eqb false 44 c) eqn:Ec; [|reflexivity].
      apply char_eqb_comma in Ec. subst c. discriminate. }
    rewrite E. cbn [map]. now rewrite IH. }
  rewrite Hnone. apply render_keep.
Qed.

Lemma star_match_all (A : Type) f s (k : option N -> jsstring -> option A) :
  forallb f s = true ->
  forall prev x, k (last_of prev s) [] = Some x -> star_match f prev s k = Some x.
Proof.
  induction s as [|c s IH]; intros Hs prev x Hk; simpl.
  - exact Hk.
  - simpl in Hs. apply andb_true_iff in Hs. destruct Hs as [Hc Hs].
    rewrite Hc. now rewrite (IH Hs (Some c) x Hk).
Qed.

Lemma segments_skip_all ic r s :
  forall prev,
    (forall p, match_here ic r p [] = None) ->
    segments ic r prev s (length s) = [].
Proof.
  intros prev Hend. revert prev. induction s as [|c s IH]; intros prev; simpl.
  - now rewrite Hend.
  - apply IH.
Qed.

Lemma spaces_blank c text :
  forallb is_space (c :: text) = true ->
  replace_all spaces (js " ") (c :: text) = js " ".
Proof.
  intros Hs. unfold replace_all, scan. cbn [segments].
  assert (E : match_here (ignoreCase spaces) (source spaces) None (c :: text)
              = Some (S (length text))).
  { unfold match_here, spaces, plus, re_g. cbn [source ignoreCase rmatch].
    simpl in Hs. apply andb_true_iff in Hs. destruct Hs as [Hc Hs]. rewrite Hc.
    apply star_match_all; [exact Hs|]. reflexivity. }
  rewrite E. rewrite segments_skip_all; [reflexivity|].
  intros p. reflexivity.
Qed.

Lemma cleanPrompt_blank text : forallb is_space text = true -> cleanPrompt text = [].
Proof.
  intros Hs. unfold cleanPrompt.
  rewrite (removal_blank resolution_words text eq_refl eq_refl Hs).
  rewrite (removal_blank platform_words text eq_refl eq_refl Hs).
  rewrite (removal_blank realistic_words text eq_refl eq_refl Hs).
  rewrite (removal_blank beauty_words text eq_refl eq_refl Hs).
  rewrite (removal_blank lighting_words text eq_refl eq_refl Hs).
  rewrite (commas_blank _ Hs).
  destruct text as [|c text]; [reflexivity|].
  rewrite (spaces_blank _ _ Hs). reflexivity.
Qed.

Lemma enhanced_from_empty out : enhanced_from [] out -> out = [].
Proof.
  intros (with_person & (with_subject & Hs & Hp) & Hl).
  change (scan generic_woman_man []) with (@nil segment) in Hs.
  inversion Hs; subst.
  change (scan generic_person []) with (@nil segment) in Hp.
  inversion Hp; subst.
  destruct Hl as [->|(generic & specifics & specific & Hin & _ & ->)]; [reflexivity|].
  unfold locationEnhancements in Hin. simpl in Hin.
  repeat (destruct Hin as [Hin|Hin]; [inversion Hin; subst; reflexivity|]).
  contradiction.
Qed.

(** C5, the counterexample: on the empty prompt [transformPrompt] returns
    a result, and its text is made of modifiers only. *)
Lemma transformPrompt_empty_returns_modifiers :
  exists r st',
    transformPrompt (VString []) no_options (fresh []) = (Normal r, st')
    /\ transformed r
       = js ", shot on 35mm film, 35mm lens, golden hour light, film grain, slight motion blur, off-center composition".
Proof. do 2 eexists. split; vm_compute; reflexivity. Qed.

(** C5, amended: [transformPrompt] does not check its prompt.  For every
    prompt that is empty or made of white space only and every
    configuration, from every store whose tables hold their phrases, it
    returns a result with modifiers; unless [preserveOriginal] is set, the
    text it returns is the empty text followed by these modifiers, joined
    by [", "].  (Turning an empty prompt down is left to the callers.) *)
Theorem transformPrompt_blank_prompt (text : jsstring) (options : Options) (st : Store) :
  vocabulary_kept st ->
  forallb is_space text = true ->
  exists r st',
    transformPrompt (VString text) options st = (Normal r, st')
    /\ modifiersAdded r <> []
    /\ (resolved_preserve options = false ->
        transformed r = join (js ", ") ([] :: modifiersAdded r)).
Proof.
  intros Hst Hblank.
  destruct (transformPrompt_yields text options st Hst) as (r & st' & Heq & _ & _ & Hpost).
  destruct Hpost as (base & technical & imps & comp & human
                     & Hbase & _ & Hi & _ & _ & _ & Hmods & Htransformed).
  exists r, st'. split; [exact Heq|]. split.
  - rewrite Hmods. destruct Hi as (f & fo & su & _ & _ & _ & ->).
    intros H. apply app_eq_nil in H. destruct H as [_ H]. discriminate.
  - intros Hpreserve. rewrite Hpreserve, (cleanPrompt_blank _ Hblank) in Hbase.
    apply enhanced_from_empty in Hbase. now rewrite Htransformed, Hbase.
Qed.

Lemma transformPrompt_blank_prompt_witness :
  vocabulary_kept (fresh [2])
  /\ forallb is_space (js "   ") = true
  /\ exists r st',
       transformPrompt (VString (js "   ")) no_options (fresh [2]) = (Normal r, st')
       /\ modifiersAdded r <> []
       /\ (resolved_preserve no_options = false ->
           transformed r = join (js ", ") ([] :: modifiersAdded r)).
Proof.
  split; [apply fresh_vocabulary_kept|]. split; [reflexivity|].
  apply (transformPrompt_blank_prompt (js "   ") no_options (fresh [2])).
  - apply fresh_vocabulary_kept.
  - reflexivity.
Defined.

(** ** More on the scorer *)

Lemma filter_ids_NoDup (keep : Pattern.t -> bool) patterns :
  NoDup (map Pattern.id patterns) ->
  NoDup (map Issue.id (map issue_of (filter keep patterns))).
Proof.
  induction patterns as [|p ps IH]; intros Hnd; simpl; [constructor|].
  inversion Hnd as [|? ? Hnotin Hnd']; subst.
  destruct (keep p); [|now apply IH].
  simpl. constructor; [|now apply IH].
  intros Hin. apply Hnotin. rewrite map_map in Hin. simpl in Hin.
  apply in_map_iff in Hin. destruct Hin as (q & Hq & Hin).
  apply filter_In in Hin. destruct Hin as [Hin _].
  rewrite <- Hq. now apply in_map.
Qed.

Lemma filter_length_le {A} (f : A -> bool) (l : list A) : length (filter f l) <= length l.
Proof. induction l as [|x l IH]; simpl; [lia|]. destruct (f x); simpl; lia. Qed.

(** X1: the issue list of an analysis follows the rule table: the issues
    are those of some of the rules, in the order of the table, no rule
    twice (so at most 13), [issueCount] is their number and [aiScore] the
    sum of their weights. *)
Theorem analyzePrompt_issues_follow_rules (s : jsstring) (st : Store) :
  exists r st',
    analyzePrompt (VString s) st = (Normal r, st')
    /\ (exists keep, issues r = map issue_of (filter keep AI_PRONE_PATTERNS))
    /\ NoDup (map Issue.id (issues r))
    /\ issueCount r = length (issues r)
    /\ issueCount r <= 13
    /\ aiScore r = sum (map Issue.weight (issues r)).
Proof.
  destruct (analyzePrompt_string s st)
    as (r & st' & Heq & His & Hcount & Hai & _).
  exists r, st'. split; [exact Heq|].
  split; [eexists; exact His|].
  split; [rewrite His; apply filter_ids_NoDup, rule_ids_distinct|].
  split; [exact Hcount|].
  split.
  - rewrite Hcount, His, length_map.
    exact (filter_length_le _ AI_PRONE_PATTERNS).
  - rewrite Hai, His, map_map. reflexivity.
Qed.

(** X2: the score moves in steps of 5; it is 0 exactly when the realism
    indicators weigh at least as much as the matched rules, and 100
    exactly when the rules outweigh them by 20 or more. *)
Theorem analyzePrompt_score_steps (s : jsstring) (st : Store) :
  exists r st',
    analyzePrompt (VString s) st = (Normal r, st')
    /\ (exists k, score r = 5 * k)%Z
    /\ (score r = 0 <-> aiScore r <= realismScore r)%Z
    /\ (score r = 100 <-> 20 <= aiScore r - realismScore r)%Z.
Proof.
  destruct (analyzePrompt_string s st) as (r & st' & Heq & _ & _ & _ & _ & Hsc & _).
  exists r, st'. split; [exact Heq|]. unfold Math_round in Hsc.
  split; [|split].
  - destruct (Z.le_gt_cases 20 (aiScore r - realismScore r)).
    + exists 20%Z. lia.
    + exists (Z.max 0 (aiScore r - realismScore r)). lia.
  - lia.
  - lia.
Qed.

Lemma search_resumed ic r :
  forall i s prev,
    i <= length s ->
    search ic r (last_of prev (firstn i s)) (skipn i s) <> None ->
    search ic r prev s <> None.
Proof.
  induction i as [|i IH]; intros s prev Hi H; [exact H|].
  destruct s as [|c s]; [simpl in Hi; lia|].
  simpl in Hi. simpl firstn in H. simpl skipn in H.
  change (last_of prev (c :: firstn i s)) with (last_of (Some c) (firstn i s)) in H.
  apply IH in H; [|lia].
  simpl search. destruct (match_here ic r prev (c :: s)); [discriminate|].
  destruct (search ic r (Some c) s) as [[j len]|]; [discriminate | contradiction].
Qed.

Lemma prev_at_last_of i s :
  i <= length s -> prev_at i s = last_of None (firstn i s).
Proof.
  destruct i as [|i]; [reflexivity|]. simpl prev_at.
  revert i. induction s as [|c s IH]; intros i Hi; [simpl in Hi; lia|].
  simpl in Hi. destruct i as [|i]; [reflexivity|].
  simpl nth_error. rewrite IH by lia.
  change (firstn (S (S i)) (c :: s)) with (c :: firstn (S i) s).
  destruct s as [|d s]; [simpl in Hi; lia|]. reflexivity.
Qed.

Lemma regexp_test_from_start R i s :
  fst (regexp_test R i s) = true -> fst (regexp_test R 0 s) = true.
Proof.
  unfold regexp_test. destruct (global R);
    [|destruct (search (ignoreCase R) (source R) None s); auto].
  destruct (Nat.ltb (length s) i) eqn:Hlt; [discriminate|].
  apply Nat.ltb_ge in Hlt. simpl Nat.ltb. simpl prev_at. simpl skipn.
  intros H.
  assert (Hs : search (ignoreCase R) (source R) None s <> None).
  { apply (search_resumed (ignoreCase R) (source R) i s None Hlt).
    rewrite <- prev_at_last_of by exact Hlt.
    destruct (search _ _ (prev_at i s) (skipn i s)) as [[j len]|]; [discriminate|].
    discriminate H. }
  destruct (search (ignoreCase R) (source R) None s) as [[j len]|]; [reflexivity|].
  contradiction.
Qed.

Lemma fired_from_fresh st chance0 s pattern :
  fired st (VString s) pattern = true ->
  fired (fresh chance0) (VString s) pattern = true.
Proof.
  unfold fired, run_matcher, test_rule, lift.
  destruct (Pattern.matcher pattern) as [R|d]; [|auto].
  simpl ToString.
  pose proof (regexp_test_from_start R (lastIndex st (Pattern.id pattern)) s) as H.
  change (lastIndex (fresh chance0) (Pattern.id pattern)) with 0.
  destruct (regexp_test R (lastIndex st (Pattern.id pattern)) s) as [b i].
  destruct (regexp_test R 0 s) as [b0 i0]. simpl in *. exact H.
Qed.

Lemma rule_weights_positive :
  Forall (fun pattern => (0 <= Pattern.weight pattern)%Z) AI_PRONE_PATTERNS.
Proof. unfold AI_PRONE_PATTERNS. repeat constructor; simpl; lia. Qed.

Lemma filter_weights_le (f g : Pattern.t -> bool) patterns :
  Forall (fun pattern => (0 <= Pattern.weight pattern)%Z) patterns ->
  (forall p, f p = true -> g p = true) ->
  (sum (map Pattern.weight (filter f patterns))
   <= sum (map Pattern.weight (filter g patterns)))%Z.
Proof.
  intros Hpos Hfg. induction Hpos as [|p ps Hp Hps IH]; simpl; [lia|].
  destruct (f p) eqn:Ef.
  - rewrite (Hfg p Ef). unfold sum in *. simpl. lia.
  - destruct (g p); unfold sum in *; simpl; lia.
Qed.

(** X3: what an earlier call left in the RegExp objects can hide issues
    but cannot invent any: from every store, the issues found for a string
    are among those found in a freshly loaded program, and the score is at
    most the score found there. *)
Theorem analyzePrompt_stale_state_hides_only (s : jsstring) (st : Store) (chance0 : list nat) :
  exists r st' r0 st0',
    analyzePrompt (VString s) st = (Normal r, st')
    /\ analyzePrompt (VString s) (fresh chance0) = (Normal r0, st0')
    /\ (forall issue, In issue (issues r) -> In issue (issues r0))
    /\ (aiScore r <= aiScore r0)%Z
    /\ realismScore r = realismScore r0
    /\ (score r <= score r0)%Z.
Proof.
  destruct (analyzePrompt_string s st)
    as (r & st' & Heq & His & _ & Hai & Hre & Hsc & _).
  destruct (analyzePrompt_string s (fresh chance0))
    as (r0 & st0' & Heq0 & His0 & _ & Hai0 & Hre0 & Hsc0 & _).
  exists r, st', r0, st0'. split; [exact Heq|]. split; [exact Heq0|].
  assert (Hle : (aiScore r <= aiScore r0)%Z).
  { rewrite Hai, Hai0. apply filter_weights_le; [exact rule_weights_positive|].
    intros p. apply fired_from_fresh. }
  assert (Hsame : realismScore r = realismScore r0) by congruence.
  split; [|split; [exact Hle|split; [exact Hsame|]]].
  - intros issue Hin. rewrite His in Hin. rewrite His0.
    apply in_map_iff in Hin. destruct Hin as (p & Hp & Hin).
    apply filter_In in Hin. destruct Hin as [Hin Hf].
    apply in_map_iff. exists p. split; [exact Hp|].
    apply filter_In. split; [exact Hin|]. now apply fired_from_fresh with (st := st).
  - rewrite Hsc, Hsc0, Hsame. unfold Math_round. lia.
Qed.

Lemma check_patterns_frame patterns v :
  forall acc ai st,
    arrays (snd (check_patterns patterns v acc ai st)) = arrays st
    /\ chance (snd (check_patterns patterns v acc ai st)) = chance st
    /\ forall id,
         ~ In id (map Pattern.id (filter is_global_rule patterns)) ->
         lastIndex (snd (check_patterns patterns v acc ai st)) id = lastIndex st id.
Proof.
  induction patterns as [|p ps IH]; intros acc ai st; [simpl; auto|].
  simpl check_patterns. unfold bind.
  destruct (run_matcher_frame p v st) as (Harr & Hch & Hli).
  pose proof (run_matcher_not_global p v st) as Hng.
  destruct (run_matcher p v st) as [[b|e] st1]; simpl snd in *.
  - assert (Hnext : forall acc' ai',
               arrays (snd (check_patterns ps v acc' ai' st1)) = arrays st
               /\ chance (snd (check_patterns ps v acc' ai' st1)) = chance st
               /\ forall id,
                    ~ In id (map Pattern.id (filter is_global_rule (p :: ps))) ->
                    lastIndex (snd (check_patterns ps v acc' ai' st1)) id = lastIndex st id).
    { intros acc' ai'. destruct (IH acc' ai' st1) as (Ha & Hc & Hl).
      split; [congruence|]. split; [congruence|].
      intros id Hid. cbn [filter] in Hid. destruct (is_global_rule p) eqn:Eg.
      - cbn [map] in Hid. rewrite Hl by (intros HH; apply Hid; now right). apply Hli. intros E. apply Hid. now left.
      - rewrite Hl by exact Hid. now rewrite (Hng eq_refl). }
    destruct b; apply Hnext.
  - cbn [snd]. split; [exact Harr|]. split; [exact Hch|].
    intros id Hid. cbn [filter] in Hid. destruct (is_global_rule p) eqn:Eg.
    + apply Hli. intros E. apply Hid. now left.
    + now rewrite (Hng eq_refl).
Qed.

(** X4: whatever it is handed (a string or not) and whether it returns or
    throws, [analyzePrompt] leaves the vocabulary tables and the supply of
    random outcomes alone, and changes no [lastIndex] but those of the
    eight rules whose RegExp has the [g] flag. *)
Theorem analyzePrompt_frame (v : jsval) (st : Store) :
  arrays (snd (analyzePrompt v st)) = arrays st
  /\ chance (snd (analyzePrompt v st)) = chance st
  /\ (forall id, ~ In id global_rule_ids ->
                 lastIndex (snd (analyzePrompt v st)) id = lastIndex st id)
  /\ global_rule_ids
     = ["beautiful-modifier"; "hyper-realistic"; "8k-4k"; "trending-artstation";
        "cinematic-lighting"; "portrait-generic"; "symmetry-trap"; "direct-gaze"].
Proof.
  destruct (check_patterns_frame AI_PRONE_PATTERNS v [] 0%Z st) as (Ha & Hc & Hl).
  assert (Hsnd : snd (analyzePrompt v st)
                 = snd (check_patterns AI_PRONE_PATTERNS v [] 0%Z st)).
  { unfold analyzePrompt, bind.
    destruct (check_patterns AI_PRONE_PATTERNS v [] 0%Z st) as [[[iss ai]|e] st1];
      reflexivity. }
  rewrite Hsnd. repeat split; auto.
Qed.

Lemma search_bound ic r :
  forall s prev j len, search ic r prev s = Some (j, len) -> j + len <= length s.
Proof.
  induction s as [|c s IH]; intros prev j len H; simpl in H.
  - destruct (match_here ic r prev []) as [l|] eqn:E; [|discriminate].
    inversion H; subst. apply match_here_sound in E.
    destruct E as (w & rest & Hs & _ & -> & _).
    rewrite Hs, length_app. lia.
  - destruct (match_here ic r prev (c :: s)) as [l|] eqn:E.
    + inversion H; subst. apply match_here_sound in E.
      destruct E as (w & rest & Hs & _ & -> & _).
      rewrite Hs, length_app. lia.
    + destruct (search ic r (Some c) s) as [[j' len']|] eqn:E'; [|discriminate].
      inversion H; subst. apply IH in E'. simpl. lia.
Qed.

Lemma regexp_test_lastIndex R i s :
  global R = true ->
  snd (regexp_test R i s) <= length s
  /\ (fst (regexp_test R i s) = false -> snd (regexp_test R i s) = 0).
Proof.
  intros Hg. unfold regexp_test. rewrite Hg.
  destruct (Nat.ltb (length s) i) eqn:Hlt; [simpl; split; [lia | reflexivity]|].
  apply Nat.ltb_ge in Hlt.
  destruct (search (ignoreCase R) (source R) (prev_at i s) (skipn i s))
    as [[j len]|] eqn:E; simpl; [|split; [lia | reflexivity]].
  apply search_bound in E. rewrite length_skipn in E.
  split; [lia | discriminate].
Qed.

Lemma check_patterns_lastIndex patterns s :
  Forall string_safe patterns ->
  NoDup (map Pattern.id patterns) ->
  forall acc ai st pattern,
    In pattern patterns ->
    lastIndex (snd (check_patterns patterns (VString s) acc ai st)) (Pattern.id pattern)
    = lastIndex (snd (run_matcher pattern (VString s) st)) (Pattern.id pattern).
Proof.
  induction patterns as [|p ps IH]; intros Hsafe Hnd acc ai st q Hin; [destruct Hin|].
  inversion Hsafe as [|? ? Hp Hps]; subst. inversion Hnd as [|? ? Hnotin Hnd']; subst.
  simpl check_patterns. unfold bind. rewrite run_matcher_string by exact Hp.
  destruct (run_matcher_frame p (VString s) st) as (_ & _ & Hli).
  set (st1 := snd (run_matcher p (VString s) st)) in *.
  assert (Hrest : forall acc' ai',
             lastIndex (snd (check_patterns ps (VString s) acc' ai' st1)) (Pattern.id q)
             = lastIndex (snd (run_matcher q (VString s) st)) (Pattern.id q)).
  { intros acc' ai'. destruct Hin as [<-|Hin].
    - destruct (check_patterns_string ps s Hps Hnd' acc' ai' st1)
        as (st' & Heq & _ & _ & Hl).
      rewrite Heq. simpl snd. now apply Hl.
    - rewrite (IH Hps Hnd' acc' ai' st1 q Hin).
      apply run_matcher_lastIndex_same. apply Hli.
      intros E. apply Hnotin. rewrite <- E. now apply in_map. }
  destruct (fired st (VString s) p); apply Hrest.
Qed.

Lemma issue_id_of_kept (keep : Pattern.t -> bool) patterns pattern :
  In pattern patterns -> keep pattern = true ->
  In (Pattern.id pattern) (map Issue.id (map issue_of (filter keep patterns))).
Proof.
  intros Hin Hk. rewrite map_map. apply in_map_iff. exists pattern.
  split; [reflexivity|]. apply filter_In. auto.
Qed.

(** X5: what a call on a string leaves in the RegExp of a rule with the
    [g] flag: a [lastIndex] within the string, and 0 when the rule is not
    among the issues of the call (so a rule that missed searches from the
    start the next time). *)
Theorem analyzePrompt_lastIndex_after (s : jsstring) (st : Store) (id : string) :
  In id global_rule_ids ->
  exists r st',
    analyzePrompt (VString s) st = (Normal r, st')
    /\ lastIndex st' id <= length s
    /\ (~ In id (map Issue.id (issues r)) -> lastIndex st' id = 0).
Proof.
  intros Hid. unfold global_rule_ids in Hid.
  apply in_map_iff in Hid. destruct Hid as (p & <- & Hp).
  apply filter_In in Hp. destruct Hp as [Hin Hg].
  destruct (analyzePrompt_string s st) as (r & st' & Heq & His & _).
  exists r, st'. split; [exact Heq|].
  assert (Hst' : st' = snd (check_patterns AI_PRONE_PATTERNS (VString s) [] 0%Z st)).
  { revert Heq. unfold analyzePrompt, bind.
    destruct (check_patterns AI_PRONE_PATTERNS (VString s) [] 0%Z st)
      as [[[iss ai]|e] st1]; unfold ret; intros E; inversion E; reflexivity. }
  rewrite Hst', (check_patterns_lastIndex AI_PRONE_PATTERNS s rules_string_safe
                   rule_ids_distinct [] 0%Z st p Hin).
  assert (Hnot : ~ In (Pattern.id p) (map Issue.id (issues r)) ->
                 fired st (VString s) p = false).
  { intros Hn. destruct (fired st (VString s) p) eqn:Ef; [exfalso | reflexivity].
    apply Hn. rewrite His. now apply issue_id_of_kept. }
  clear Hst' Heq His. revert Hnot.
  unfold fired, run_matcher, test_rule, lift, is_global_rule in *.
  destruct (Pattern.matcher p) as [R|d]; [|discriminate].
  simpl ToString.
  destruct (regexp_test_lastIndex R (lastIndex st (Pattern.id p)) s Hg) as [Hle Hzero].
  destruct (regexp_test R (lastIndex st (Pattern.id p)) s) as [b i].
  rewrite Hg. simpl in *. rewrite String.eqb_refl.
  intros Hnot. split; [exact Hle|]. intros Hn. apply Hzero. now apply Hnot.
Qed.

Lemma analyzePrompt_lastIndex_after_witness :
  In "8k-4k" global_rule_ids
  /\ exists r st',
       analyzePrompt (VString (js "portrait, 8k")) (fresh []) = (Normal r, st')
       /\ lastIndex st' "8k-4k" <= length (js "portrait, 8k")
       /\ (~ In "8k-4k" (map Issue.id (issues r)) -> lastIndex st' "8k-4k" = 0).
Proof.
  assert (H : In "8k-4k" global_rule_ids)
    by (vm_compute; right; right; left; reflexivity).
  split; [exact H|].
  exact (analyzePrompt_lastIndex_after (js "portrait, 8k") (fresh []) "8k-4k" H).
Defined.

(** ** More on the modifiers *)

Lemma existsb_eqb_In x l : existsb (jsstring_eqb x) l = true <-> In x l.
Proof.
  rewrite existsb_exists. split.
  - intros (y & Hy & E). apply jsstring_eqb_eq in E. now subst.
  - intros H. exists x. split; [exact H | now apply jsstring_eqb_eq].
Qed.

Lemma distinctb_NoDup l : distinctb l = true -> NoDup l.
Proof.
  induction l as [|x l IH]; simpl; intros H; [constructor|].
  apply andb_true_iff in H. destruct H as [Hx Hl].
  constructor; [|now apply IH].
  intros Hin. apply existsb_eqb_In in Hin. rewrite Hin in Hx. discriminate.
Qed.

Lemma initial_arrays_NoDup t : NoDup (initial_arrays t).
Proof. apply distinctb_NoDup. destruct t; vm_compute; reflexivity. Qed.

Lemma NoDup_firstn {A} (n : nat) (l : list A) : NoDup l -> NoDup (firstn n l).
Proof.
  revert l; induction n as [|n IH]; intros [|x l] H; simpl; try constructor.
  - inversion H; subst. intros Hin. apply In_firstn in Hin. contradiction.
  - inversion H; subst. now apply IH.
Qed.

(** X6: [getRandomModifiers] handed one of the arrays, from any store:
    the array is put in a new order (the same phrases, each as often as
    before), the answer is the first [count] phrases of that order (all of
    them when the array is shorter), hence without repeats when the array
    has none; one entry of the random supply is used (the outcome of the
    sort), and no other array and no RegExp is touched. *)
Theorem getRandomModifiers_array (t : Table) (count : nat) (st : Store) :
  exists chosen st',
    getRandomModifiers (CatArray t) count st = (Normal chosen, st')
    /\ Permutation (arrays st' t) (arrays st t)
    /\ chosen = firstn count (arrays st' t)
    /\ length chosen = Nat.min count (length (arrays st t))
    /\ (NoDup (arrays st t) -> NoDup chosen)
    /\ (forall t', t' <> t -> arrays st' t' = arrays st t')
    /\ chance st' = tl (chance st)
    /\ lastIndex st' = lastIndex st.
Proof.
  unfold getRandomModifiers, bind, get_array, put_array, ret, draw.
  assert (Hperm : forall code, Permutation (sort_random code (arrays st t)) (arrays st t))
    by (intros; apply sort_random_perm).
  destruct (chance st) as [|code rest] eqn:Hch.
  - eexists; eexists. split; [reflexivity|]. unfold set_array. simpl.
    destruct (Table_eq_dec t t) as [_|Hne]; [|congruence].
    repeat split.
    + apply Hperm.
    + rewrite length_firstn. f_equal. apply Permutation_length, Hperm.
    + intros Hnd. apply NoDup_firstn.
      eapply Permutation_NoDup; [apply Permutation_sym, Hperm | exact Hnd].
    + intros t' Hne. now destruct (Table_eq_dec t' t).
    + now rewrite Hch.
  - eexists; eexists. split; [reflexivity|]. unfold set_array. simpl.
    destruct (Table_eq_dec t t) as [_|Hne]; [|congruence].
    repeat split.
    + apply Hperm.
    + rewrite length_firstn. f_equal. apply Permutation_length, Hperm.
    + intros Hnd. apply NoDup_firstn.
      eapply Permutation_NoDup; [apply Permutation_sym, Hperm | exact Hnd].
    + intros t' Hne. now destruct (Table_eq_dec t' t).
Qed.

(** X7: [getRandomModifiers] handed a category object sorts the array
    that [flat()] built: the answer holds [count] phrases of the arrays of
    the category (all of them when there are fewer) and every table stays
    as it was.  Handed [null], whose [typeof] is ['object'] too, it throws
    the TypeError of [Object.values(null)]; handed a value whose [typeof]
    is not ['object'] ([undefined], a Boolean, a Number, a string), it
    answers the empty list.  In both cases nothing is touched, not even the
    random supply. *)
Theorem getRandomModifiers_object_or_other (ts : list Table) (count : nat) (st : Store) :
  (exists chosen st',
      getRandomModifiers (CatObject ts) count st = (Normal chosen, st')
      /\ arrays st' = arrays st
      /\ lastIndex st' = lastIndex st
      /\ chance st' = tl (chance st)
      /\ length chosen = Nat.min count (length (flat_map (arrays st) ts))
      /\ forall phrase, In phrase chosen -> exists t, In t ts /\ In phrase (arrays st t))
  /\ getRandomModifiers CatNull count st
     = (Throw (TypeError "Cannot convert undefined or null to object"), st)
  /\ getRandomModifiers CatOther count st = (Normal [], st).
Proof.
  split; [|split; reflexivity].
  unfold getRandomModifiers, bind, ret, draw.
  assert (Hperm : forall code,
             Permutation (sort_random code (flat_map (arrays st) ts))
                         (flat_map (arrays st) ts))
    by (intros; apply sort_random_perm).
  assert (Hin : forall code phrase,
             In phrase (firstn count (sort_random code (flat_map (arrays st) ts))) ->
             exists t, In t ts /\ In phrase (arrays st t)).
  { intros code phrase H. apply In_firstn in H.
    apply (Permutation_in _ (Hperm code)) in H. now apply in_flat_map in H. }
  destruct (chance st) as [|code rest] eqn:Hch; eexists; eexists;
    (split; [reflexivity|]); simpl; repeat split; auto;
    try (rewrite length_firstn; f_equal; apply Permutation_length, Hperm);
    try (apply Hin).
Qed.

Lemma getRandomModifiers_distinct t count :
  yields (getRandomModifiers (CatArray t) count)
    (fun chosen =>
       NoDup chosen
       /\ length chosen = Nat.min count (length (initial_arrays t))
       /\ forall phrase, In phrase chosen -> In phrase (initial_arrays t)).
Proof.
  intros st Hst.
  destruct (getRandomModifiers_returns t count st Hst) as (chosen & st' & Heq & Hk & Hlen & Hin).
  exists chosen, st'. split; [exact Heq|]. split; [exact Hk|].
  split; [|split; assumption].
  revert Heq. unfold getRandomModifiers, bind, get_array, put_array, ret, draw.
  assert (Hnd : forall code, NoDup (firstn count (sort_random code (arrays st t)))).
  { intros code. apply NoDup_firstn.
    eapply Permutation_NoDup; [apply Permutation_sym, sort_random_perm|].
    eapply Permutation_NoDup; [apply Permutation_sym, Hst|].
    apply initial_arrays_NoDup. }
  destruct (chance st); intros E; inversion E; subst; apply Hnd.
Qed.

Lemma one_of_yields t :
  initial_arrays t <> [] ->
  yields (getRandomModifiers (CatArray t) 1) (one_of t).
Proof. intros H. exact (getRandomModifiers_one t H). Qed.

(** X8: [getBalancedModifiers], from every store whose tables hold
    their phrases: a film camera phrase and a lens phrase unless
    [includeCamera] is false, then a natural-lighting phrase unless
    [includeLighting] is false, then a film and a focus imperfection
    unless [includeImperfections] is false, then a natural-composition
    phrase unless [includeComposition] is false, then two different
    human-detail phrases if [humanSubject] is true; with no option set
    that is six phrases. *)
Theorem getBalancedModifiers_sections (options : BalancedOptions) (st : Store) :
  vocabulary_kept st ->
  exists modifiers st',
    getBalancedModifiers options st = (Normal modifiers, st')
    /\ vocabulary_kept st'
    /\ exists camera lens light film focus comp human,
         one_of CAMERAS_film camera /\ one_of LENSES lens
         /\ one_of LIGHTING_natural light
         /\ one_of IMPERFECTIONS_film film /\ one_of IMPERFECTIONS_focus focus
         /\ one_of COMPOSITION_natural comp
         /\ (NoDup human /\ length human = 2
             /\ forall phrase, In phrase human -> In phrase (initial_arrays HUMAN_DETAILS))
         /\ modifiers
            = (if flag (includeCamera options) true then camera ++ lens else [])
              ++ (if flag (includeLighting options) true then light else [])
              ++ (if flag (includeImperfections options) true then film ++ focus else [])
              ++ (if flag (includeComposition options) true then comp else [])
              ++ (if flag (humanSubject options) false then human else []).
Proof.
  intros Hst.
  assert (Hone : forall t, initial_arrays t <> [] -> exists c, one_of t c).
  { intros t Ht. destruct (initial_arrays t) as [|p l] eqn:E; [congruence|].
    exists [p]. exists p. rewrite E. split; [reflexivity | now left]. }
  cut (yields (getBalancedModifiers options)
         (fun modifiers =>
            exists camera lens light film focus comp human,
              one_of CAMERAS_film camera /\ one_of LENSES lens
              /\ one_of LIGHTING_natural light
              /\ one_of IMPERFECTIONS_film film /\ one_of IMPERFECTIONS_focus focus
              /\ one_of COMPOSITION_natural comp
              /\ (NoDup human /\ length human = 2
                  /\ forall phrase, In phrase human ->
                                    In phrase (initial_arrays HUMAN_DETAILS))
              /\ modifiers
                 = (if flag (includeCamera options) true then camera ++ lens else [])
                   ++ (if flag (includeLighting options) true then light else [])
                   ++ (if flag (includeImperfections options) true then film ++ focus else [])
                   ++ (if flag (includeComposition options) true then comp else [])
                   ++ (if flag (humanSubject options) false then human else []))).
  { intros Hy. destruct (Hy st Hst) as (m & st' & Heq & Hk & Hq). exists m, st'. auto. }
  unfold getBalancedModifiers.
  eapply yields_bind with
    (Q := fun m => exists camera lens,
            one_of CAMERAS_film camera /\ one_of LENSES lens
            /\ m = if flag (includeCamera options) true then camera ++ lens else []).
  { destruct (flag (includeCamera options) true).
    - eapply yields_bind; [apply one_of_yields; table_nonempty|]. intros a Ha.
      eapply yields_bind; [apply one_of_yields; table_nonempty|]. intros b Hb.
      apply yields_ret. exists a, b. auto.
    - destruct (Hone CAMERAS_film) as (a & Ha); [table_nonempty|].
      destruct (Hone LENSES) as (b & Hb); [table_nonempty|].
      apply yields_ret. exists a, b. auto. }
  intros m1 (camera & lens & Hcam & Hlens & ->).
  eapply yields_bind with
    (Q := fun m => exists light,
            one_of LIGHTING_natural light
            /\ m = (if flag (includeCamera options) true then camera ++ lens else [])
                   ++ if flag (includeLighting options) true then light else []).
  { destruct (flag (includeLighting options) true).
    - eapply yields_bind; [apply one_of_yields; table_nonempty|]. intros a Ha.
      apply yields_ret. exists a. auto.
    - destruct (Hone LIGHTING_natural) as (a & Ha); [table_nonempty|].
      apply yields_ret. exists a. split; [exact Ha|]. now rewrite app_nil_r. }
  intros m2 (light & Hlight & ->).
  eapply yields_bind with
    (Q := fun m => exists film focus,
            one_of IMPERFECTIONS_film film /\ one_of IMPERFECTIONS_focus focus
            /\ m = ((if flag (includeCamera options) true then camera ++ lens else [])
                    ++ if flag (includeLighting options) true then light else [])
                   ++ if flag (includeImperfections options) true then film ++ focus else []).
  { destruct (flag (includeImperfections options) true).
    - eapply yields_bind; [apply one_of_yields; table_nonempty|]. intros a Ha.
      eapply yields_bind; [apply one_of_yields; table_nonempty|]. intros b Hb.
      apply yields_ret. exists a, b. auto.
    - destruct (Hone IMPERFECTIONS_film) as (a & Ha); [table_nonempty|].
      destruct (Hone IMPERFECTIONS_focus) as (b & Hb); [table_nonempty|].
      apply yields_ret. exists a, b. split; [exact Ha|]. split; [exact Hb|].
      now rewrite app_nil_r. }
  intros m3 (film & focus & Hfilm & Hfocus & ->).
  eapply yields_bind with
    (Q := fun m => exists comp,
            one_of COMPOSITION_natural comp
            /\ m = (((if flag (includeCamera options) true then camera ++ lens else [])
                     ++ if flag (includeLighting options) true then light else [])
                    ++ if flag (includeImperfections options) true then film ++ focus else [])
                   ++ if flag (includeComposition options) true then comp else []).
  { destruct (flag (includeComposition options) true).
    - eapply yields_bind; [apply one_of_yields; table_nonempty|]. intros a Ha.
      apply yields_ret. exists a. auto.
    - destruct (Hone COMPOSITION_natural) as (a & Ha); [table_nonempty|].
      apply yields_ret. exists a. split; [exact Ha|]. now rewrite app_nil_r. }
  intros m4 (comp & Hcomp & ->).
  eapply yields_bind with
    (Q := fun m => exists human,
            (NoDup human /\ length human = 2
             /\ forall phrase, In phrase human -> In phrase (initial_arrays HUMAN_DETAILS))
            /\ m = ((((if flag (includeCamera options) true then camera ++ lens else [])
                      ++ if flag (includeLighting options) true then light else [])
                     ++ if flag (includeImperfections options) true then film ++ focus else [])
                    ++ if flag (includeComposition options) true then comp else [])
                   ++ if flag (humanSubject options) false then human else []).
  { destruct (flag (humanSubject options) false).
    - eapply yields_bind; [apply getRandomModifiers_distinct|]. intros a Ha.
      apply yields_ret. exists a. auto.
    - apply yields_ret. exists (firstn 2 (initial_arrays HUMAN_DETAILS)).
      split; [|now rewrite app_nil_r].
      split; [apply NoDup_firstn, initial_arrays_NoDup|].
      split; [reflexivity|]. intros phrase H. now apply In_firstn in H. }
  intros m5 (human & Hhuman & ->).
  apply yields_ret. exists camera, lens, light, film, focus, comp, human.
  repeat split; try tauto. now rewrite <- !app_assoc.
Qed.

Lemma getBalancedModifiers_sections_witness :
  vocabulary_kept (fresh [3; 1; 4])
  /\ exists modifiers st',
       getBalancedModifiers (mkBalanced None None (Some false) None (Some true)) (fresh [3; 1; 4])
       = (Normal modifiers, st')
       /\ vocabulary_kept st'
       /\ exists camera lens light film focus comp human,
            one_of CAMERAS_film camera /\ one_of LENSES lens
            /\ one_of LIGHTING_natural light
            /\ one_of IMPERFECTIONS_film film /\ one_of IMPERFECTIONS_focus focus
            /\ one_of COMPOSITION_natural comp
            /\ (NoDup human /\ length human = 2
                /\ forall phrase, In phrase human -> In phrase (initial_arrays HUMAN_DETAILS))
            /\ modifiers
               = (if flag (includeCamera (mkBalanced None None (Some false) None (Some true))) true
                  then camera ++ lens else [])
                 ++ (if flag (includeLighting (mkBalanced None None (Some false) None (Some true))) true
                     then light else [])
                 ++ (if flag (includeImperfections (mkBalanced None None (Some false) None (Some true))) true
                     then film ++ focus else [])
                 ++ (if flag (includeComposition (mkBalanced None None (Some false) None (Some true))) true
                     then comp else [])
                 ++ (if flag (humanSubject (mkBalanced None None (Some false) None (Some true))) false
                     then human else []).
Proof.
  split; [apply fresh_vocabulary_kept|].
  exact (getBalancedModifiers_sections (mkBalanced None None (Some false) None (Some true))
           (fresh [3; 1; 4]) (fresh_vocabulary_kept [3; 1; 4])).
Defined.

(** ** The RegExp objects and the transformer *)

Lemma untouched_ret {A} (a : A) : rules_untouched (ret a).
Proof. intros st. reflexivity. Qed.

Lemma untouched_bind {A B} (c : M A) (f : A -> M B) :
  rules_untouched c -> (forall a, rules_untouched (f a)) -> rules_untouched (bind c f).
Proof.
  intros Hc Hf st. unfold bind. specialize (Hc st).
  destruct (c st) as [[a|e] st1]; simpl in *; [|exact Hc].
  rewrite (Hf a st1). exact Hc.
Qed.

Lemma untouched_draw : rules_untouched draw.
Proof. intros st. unfold draw. destruct (chance st); reflexivity. Qed.

Lemma untouched_getRandomModifiers category count :
  rules_untouched (getRandomModifiers category count).
Proof.
  destruct category as [t|ts| |]; unfold getRandomModifiers.
  - apply untouched_bind; [intros st; reflexivity|]. intros items.
    apply untouched_bind; [apply untouched_draw|]. intros code.
    apply untouched_bind; [intros st; reflexivity|]. intros _. apply untouched_ret.
  - apply untouched_bind; [intros st; reflexivity|]. intros items.
    apply untouched_bind; [apply untouched_draw|]. intros code. apply untouched_ret.
  - intros st. reflexivity.
  - apply untouched_ret.
Qed.

Lemma untouched_first_modifier category : rules_untouched (first_modifier category).
Proof.
  unfold first_modifier. apply untouched_bind; [apply untouched_getRandomModifiers|].
  intros chosen. apply untouched_ret.
Qed.

Lemma untouched_pick options : rules_untouched (pick options).
Proof.
  unfold pick, random_index.
  apply untouched_bind; [|intros; apply untouched_ret].
  apply untouched_bind; [apply untouched_draw | intros; apply untouched_ret].
Qed.

Lemma untouched_render_with callback :
  (forall matched, rules_untouched (callback matched)) ->
  forall segs, rules_untouched (render_with callback segs).
Proof.
  intros Hcb. induction segs as [|[c|matched] rest IH]; simpl.
  - apply untouched_ret.
  - apply untouched_bind; [exact IH | intros; apply untouched_ret].
  - apply untouched_bind; [apply Hcb|]. intros text.
    apply untouched_bind; [exact IH | intros; apply untouched_ret].
Qed.

Lemma untouched_enhanceSubject text : rules_untouched (enhanceSubject text).
Proof.
  unfold enhanceSubject, replace_with.
  apply untouched_bind.
  { apply untouched_render_with. intros matched. unfold describe_subject.
    apply untouched_bind; [apply untouched_pick|]. intros age.
    apply untouched_bind; [apply untouched_pick|]. intros detail. apply untouched_ret. }
  intros with_subject. apply untouched_bind; [|intros; apply untouched_ret].
  apply untouched_render_with. intros matched. apply untouched_pick.
Qed.

Lemma untouched_enhance_families entries :
  forall text, rules_untouched (enhance_families entries text).
Proof.
  induction entries as [|[generic specifics] rest IH]; intros text;
    cbn [enhance_families]; [apply untouched_ret|].
  destruct (fst (regexp_test _ 0 text)); [|apply IH].
  apply untouched_bind; [apply untouched_pick | intros; apply untouched_ret].
Qed.

Lemma untouched_buildTechnicalModifiers style mood :
  rules_untouched (buildTechnicalModifiers style mood).
Proof.
  unfold buildTechnicalModifiers.
  apply untouched_bind.
  { destruct (jsstring_eqb _ (js "film")); [|destruct (jsstring_eqb _ (js "digital"))];
      first [apply untouched_first_modifier | apply untouched_ret]. }
  intros camera. apply untouched_bind.
  { destruct (negb _); [|apply untouched_ret].
    apply untouched_bind; [apply untouched_first_modifier | intros; apply untouched_ret]. }
  intros lens. apply untouched_bind; [|intros; apply untouched_ret].
  destruct (jsstring_eqb _ (js "moody")); [|destruct (jsstring_eqb _ (js "harsh"))];
    apply untouched_first_modifier.
Qed.

Lemma untouched_buildImperfections intensity :
  rules_untouched (buildImperfections intensity).
Proof.
  unfold buildImperfections.
  apply untouched_bind; [apply untouched_getRandomModifiers|]. intros film.
  apply untouched_bind.
  { destruct (Nat.leb 2 _); [apply untouched_getRandomModifiers | apply untouched_ret]. }
  intros focus. apply untouched_bind; [|intros; apply untouched_ret].
  destruct (Nat.leb 3 _); [apply untouched_getRandomModifiers | apply untouched_ret].
Qed.

Lemma tracked_bind {A B} li (c : M A) (Q : A -> Prop) (f : A -> M B)
    (R : B -> Store -> Prop) :
  yields c Q -> rules_untouched c ->
  (forall a, Q a -> returns (tracked li) (f a) R) ->
  returns (tracked li) (bind c f) R.
Proof.
  intros Hc Hu Hf st [Hk Hli].
  destruct (Hc st Hk) as (a & st1 & Heq & Hk1 & Hq).
  assert (Hli1 : lastIndex st1 = li).
  { specialize (Hu st). rewrite Heq in Hu. simpl in Hu. congruence. }
  destruct (Hf a Hq st1 (conj Hk1 Hli1)) as (b & st2 & Heq2 & Hr).
  exists b, st2. unfold bind. rewrite Heq. auto.
Qed.

(** ** The sections of the modifiers *)

Lemma table_phrases_nonempty t phrase :
  In phrase (initial_arrays t) -> nonempty phrase = true.
Proof.
  assert (H : forallb nonempty (initial_arrays t) = true)
    by (destruct t; vm_compute; reflexivity).
  exact (proj1 (forallb_forall _ _) H phrase).
Qed.

Lemma filter_Boolean_Some phrases :
  forallb nonempty phrases = true -> filter_Boolean (map Some phrases) = phrases.
Proof.
  induction phrases as [|[|c s] rest IH]; simpl; intros H; try discriminate.
  - reflexivity.
  - now rewrite IH.
Qed.

Lemma buildTechnicalModifiers_shape style mood :
  yields (buildTechnicalModifiers style mood)
         (technical_for (default style "film") (default mood "natural")).
Proof.
  unfold buildTechnicalModifiers, technical_for, camera_table, lighting_table.
  generalize (default style "film") as s. generalize (default mood "natural") as m.
  intros m s.
  eapply yields_bind with
    (Q := fun chosen => exists camera, chosen = Some camera /\ nonempty camera = true
            /\ if jsstring_eqb s (js "film") then In camera (initial_arrays CAMERAS_film)
               else if jsstring_eqb s (js "digital")
                    then In camera (initial_arrays CAMERAS_modern)
                    else camera = js "smartphone photo").
  { destruct (jsstring_eqb s (js "film")); [|destruct (jsstring_eqb s (js "digital"))].
    - eapply yields_weaken; [apply first_modifier_yields; table_nonempty|].
      intros c (p & -> & Hp). exists p. pose proof (table_phrases_nonempty _ _ Hp). auto.
    - eapply yields_weaken; [apply first_modifier_yields; table_nonempty|].
      intros c (p & -> & Hp). exists p. pose proof (table_phrases_nonempty _ _ Hp). auto.
    - apply yields_ret. eexists. split; [reflexivity|]. split; reflexivity. }
  intros chosen (camera & -> & Hne & Hcamera).
  eapply yields_bind with
    (Q := fun chosen => exists lens, In lens (initial_arrays LENSES)
            /\ chosen = map Some (if jsstring_eqb s (js "phone") then [] else [lens])).
  { destruct (jsstring_eqb s (js "phone")); cbn [negb].
    - apply yields_ret. exists (js "35mm lens"). split; [|reflexivity]. now left.
    - eapply yields_bind; [apply first_modifier_yields with (t := LENSES); table_nonempty|].
      intros l (p & -> & Hp). apply yields_ret. exists p. auto. }
  intros lens_part (lens & Hlens & ->).
  eapply yields_bind with
    (Q := fun chosen => exists lighting, chosen = Some lighting
            /\ In lighting
                 (initial_arrays
                    (if jsstring_eqb m (js "moody") then LIGHTING_moody
                     else if jsstring_eqb m (js "harsh") then LIGHTING_artificial
                          else LIGHTING_natural))).
  { destruct (jsstring_eqb m (js "moody")); [|destruct (jsstring_eqb m (js "harsh"))];
      (eapply yields_weaken; [apply first_modifier_yields; table_nonempty|];
       intros c (p & -> & Hp); exists p; auto). }
  intros chosen (lighting & -> & Hlighting).
  apply yields_ret. exists camera, lens, lighting.
  split; [|split; [exact Hlens|split; [exact Hlighting|]]].
  { destruct (jsstring_eqb s (js "film")); [exact Hcamera|].
    destruct (jsstring_eqb s (js "digital")); exact Hcamera. }
  change ([Some camera] ++ map Some (if jsstring_eqb s (js "phone") then [] else [lens])
          ++ [Some lighting])
    with (map Some [camera] ++ map Some (if jsstring_eqb s (js "phone") then [] else [lens])
          ++ map Some [lighting]).
  rewrite <- !map_app. apply filter_Boolean_Some.
  rewrite !forallb_app. cbn [forallb]. rewrite Hne.
  rewrite (table_phrases_nonempty _ _ Hlighting).
  destruct (jsstring_eqb s (js "phone")); cbn [forallb]; [reflexivity|].
  now rewrite (table_phrases_nonempty _ _ Hlens).
Qed.

(** X9: which phrases [buildTechnicalModifiers] answers, from every
    store whose tables hold their phrases: first a camera phrase, from
    [CAMERAS.film] for style [film] (or no style), from [CAMERAS.modern] for
    [digital], and the fixed text [smartphone photo] for every other style;
    then one phrase of [LENSES], left out for style [phone] only; last a
    lighting phrase, from [LIGHTING.moody] for mood [moody], from
    [LIGHTING.artificial] for [harsh], from [LIGHTING.natural] for every
    other mood (or none).  No phrase is dropped by [filter(Boolean)]. *)
Theorem buildTechnicalModifiers_selection (style mood : option jsstring) (st : Store) :
  vocabulary_kept st ->
  exists parts st',
    buildTechnicalModifiers style mood st = (Normal parts, st')
    /\ vocabulary_kept st'
    /\ lastIndex st' = lastIndex st
    /\ exists camera lens lighting,
         match camera_table (default style "film") with
         | Some t => In camera (initial_arrays t)
         | None => camera = js "smartphone photo"
         end
         /\ In lens (initial_arrays LENSES)
         /\ In lighting (initial_arrays (lighting_table (default mood "natural")))
         /\ parts = [camera]
                    ++ (if jsstring_eqb (default style "film") (js "phone")
                        then [] else [lens])
                    ++ [lighting].
Proof.
  intros Hst.
  destruct (buildTechnicalModifiers_shape style mood st Hst) as (parts & st' & Heq & Hk & Hq).
  exists parts, st'. split; [exact Heq|]. split; [exact Hk|]. split; [|exact Hq].
  pose proof (untouched_buildTechnicalModifiers style mood st) as Hu.
  now rewrite Heq in Hu.
Qed.

Lemma buildTechnicalModifiers_selection_witness :
  vocabulary_kept (fresh [2; 7])
  /\ exists parts st',
       buildTechnicalModifiers (Some (js "vintage")) (Some (js "harsh")) (fresh [2; 7])
       = (Normal parts, st')
       /\ vocabulary_kept st'
       /\ lastIndex st' = lastIndex (fresh [2; 7])
       /\ exists camera lens lighting,
            match camera_table (default (Some (js "vintage")) "film") with
            | Some t => In camera (initial_arrays t)
            | None => camera = js "smartphone photo"
            end
            /\ In lens (initial_arrays LENSES)
            /\ In lighting
                 (initial_arrays (lighting_table (default (Some (js "harsh")) "natural")))
            /\ parts = [camera]
                       ++ (if jsstring_eqb (default (Some (js "vintage")) "film") (js "phone")
                           then [] else [lens])
                       ++ [lighting].
Proof.
  split; [apply fresh_vocabulary_kept|].
  exact (buildTechnicalModifiers_selection (Some (js "vintage")) (Some (js "harsh"))
           (fresh [2; 7]) (fresh_vocabulary_kept [2; 7])).
Defined.

Lemma returns_assume {A} (P : Prop) (Pre : Store -> Prop) (c : M A)
    (Post : A -> Store -> Prop) :
  (P -> returns Pre c Post) -> returns (fun st => P /\ Pre st) c Post.
Proof. intros H st [HP Hpre]. exact (H HP st Hpre). Qed.

Lemma technical_for_vocabulary s m technical :
  technical_for s m technical ->
  Forall (fun phrase => In phrase technical_vocabulary) technical.
Proof.
  intros (camera & lens & lighting & Hc & Hl & Hli & ->).
  assert (Hcam : In camera technical_vocabulary).
  { unfold camera_table in Hc.
    destruct (jsstring_eqb s (js "film"));
      [eapply in_technical; [|exact Hc]; simpl; tauto|].
    destruct (jsstring_eqb s (js "digital"));
      [eapply in_technical; [|exact Hc]; simpl; tauto|].
    subst camera. unfold technical_vocabulary. apply in_or_app. right. now left. }
  assert (Hlens : In lens technical_vocabulary)
    by (eapply in_technical; [|exact Hl]; simpl; tauto).
  assert (Hlight : In lighting technical_vocabulary).
  { unfold lighting_table in Hli.
    destruct (jsstring_eqb m (js "moody"));
      [eapply in_technical; [|exact Hli]; simpl; tauto|].
    destruct (jsstring_eqb m (js "harsh"));
      eapply in_technical; try exact Hli; simpl; tauto. }
  apply Forall_app. split; [apply Forall_cons; [exact Hcam | apply Forall_nil]|].
  apply Forall_app. split; [|apply Forall_cons; [exact Hlight | apply Forall_nil]].
  destruct (jsstring_eqb s (js "phone")); [apply Forall_nil|].
  apply Forall_cons; [exact Hlens | apply Forall_nil].
Qed.

(** One call of [transformPrompt] on a string, step by step. *)
Lemma transformPrompt_trace text options st :
  vocabulary_kept st ->
  exists analysis st1 r st2 newAnalysis st',
    analyzePrompt (VString text) st = (Normal analysis, st1)
    /\ transformPrompt (VString text) options st = (Normal r, st')
    /\ tracked (lastIndex st1) st2
    /\ analyzePrompt (VString (transformed r)) st2 = (Normal newAnalysis, st')
    /\ originalScore r = score analysis
    /\ newScore r = score newAnalysis
    /\ improvement r = (score analysis - score newAnalysis)%Z
    /\ issuesFixed r = map Issue.name (issues analysis)
    /\ transform_layout text options r.
Proof.
  intros Hst.
  destruct (analyzePrompt_string text st)
    as (analysis & st1 & Heq & _ & _ & _ & _ & _ & Harr & _).
  assert (Hk1 : tracked (lastIndex st1) st1).
  { split; [|reflexivity]. intros t. rewrite Harr. apply Hst. }
  cut (returns (fun s0 => s0 = st) (transformPrompt (VString text) options)
         (fun r st' =>
            exists st2 newAnalysis,
              tracked (lastIndex st1) st2
              /\ analyzePrompt (VString (transformed r)) st2 = (Normal newAnalysis, st')
              /\ originalScore r = score analysis
              /\ newScore r = score newAnalysis
              /\ improvement r = (score analysis - score newAnalysis)%Z
              /\ issuesFixed r = map Issue.name (issues analysis)
              /\ transform_layout text options r)).
  { intros H. destruct (H st eq_refl) as (r & st' & Hr & st2 & newAnalysis & Hrest).
    exists analysis, st1, r, st2, newAnalysis, st'. tauto. }
  unfold transformPrompt.
  eapply returns_bind with
    (Q := fun a s1 => a = analysis /\ tracked (lastIndex st1) s1).
  { intros s0 ->. exists analysis, st1. auto. }
  intros a. apply returns_assume. intros ->.
  fold (resolved_preserve options). fold (resolved_level options).
  eapply tracked_bind; [apply enhanceSubject_yields | apply untouched_enhanceSubject |].
  intros with_person Hsubject.
  eapply tracked_bind;
    [apply enhanceLocation_yields | apply untouched_enhance_families |].
  intros base Hlocation.
  eapply tracked_bind;
    [apply buildTechnicalModifiers_shape | apply untouched_buildTechnicalModifiers |].
  cbn [default]. intros technical Htech.
  eapply tracked_bind;
    [apply buildImperfections_yields | apply untouched_buildImperfections |].
  intros imps Himps.
  eapply tracked_bind;
    [apply one_of_yields; table_nonempty | apply untouched_getRandomModifiers |].
  intros comp Hcomp.
  eapply tracked_bind with (Q := human_details_for text).
  { unfold human_details_for. destruct (hasHumanSubject text).
    - eapply yields_weaken; [apply getRandomModifiers_distinct|].
      intros human (Hnd & Hlen & Hin). auto.
    - apply yields_ret. split; [constructor|]. split; [intros ? []|reflexivity]. }
  { destruct (hasHumanSubject text);
      [apply untouched_getRandomModifiers | apply untouched_ret]. }
  intros human Hhuman.
  rewrite (filter_nonempty_id _
             (modifiers_injectable _ _ _ _ _ (technical_for_vocabulary _ _ _ Htech)
                Himps Hcomp (proj1 (proj2 Hhuman)))).
  intros s2 Hs2. unfold bind.
  destruct (analyzePrompt_string
              (join (js ", ") (base :: technical ++ imps ++ comp ++ human)) s2)
    as (newAnalysis & st' & Heq2 & _).
  rewrite Heq2. eexists; eexists. split; [reflexivity|].
  exists s2, newAnalysis. cbn [transformed originalScore newScore improvement issuesFixed].
  split; [exact Hs2|]. split; [exact Heq2|]. do 4 (split; [reflexivity|]).
  split; [reflexivity|].
  exists base, technical, imps, comp, human. cbn [modifiersAdded transformed].
  repeat split; auto; try apply Hhuman. exists with_person. auto.
Qed.

(** X10: the human details of [transformPrompt].  For every string
    prompt and every config, from a store whose tables hold their phrases:
    the phrases of [HUMAN_DETAILS] among [modifiersAdded] are two different
    ones, at its end, when [hasHumanSubject] holds of the prompt as it was
    given, and none otherwise. *)
Theorem transformPrompt_human_details (text : jsstring) (options : Options) (st : Store) :
  vocabulary_kept st ->
  exists r st',
    transformPrompt (VString text) options st = (Normal r, st')
    /\ exists front human,
         modifiersAdded r = front ++ human
         /\ filter is_human_detail (modifiersAdded r) = human
         /\ if hasHumanSubject text
            then exists first second, human = [first; second] /\ first <> second
            else human = [].
Proof.
  intros Hst.
  destruct (transformPrompt_trace text options st Hst)
    as (analysis & st1 & r & st2 & newAnalysis & st' & _ & Heq & _ & _ & _ & _ & _ & _
        & _ & base & technical & imps & comp & human & _ & Htech & Himps & Hcomp
        & (Hnd & Hin & Hlen) & Hmods & _).
  exists r, st'. split; [exact Heq|].
  exists (technical ++ imps ++ comp), human.
  split; [now rewrite Hmods, <- !app_assoc|].
  split.
  - rewrite Hmods.
    assert (Hno : forall phrase,
               In phrase (technical ++ imps ++ comp) -> is_human_detail phrase = false).
    { intros phrase Hp.
      assert (Hinj : In phrase
                       (technical_vocabulary
                        ++ flat_map initial_arrays
                             [IMPERFECTIONS_film; IMPERFECTIONS_focus;
                              IMPERFECTIONS_surface; COMPOSITION_natural])).
      { apply in_app_or in Hp. destruct Hp as [Hp|Hp].
        { apply in_or_app. left.
          exact (proj1 (Forall_forall _ _) (technical_for_vocabulary _ _ _ Htech) _ Hp). }
        apply in_or_app. right. apply in_app_or in Hp. destruct Hp as [Hp|Hp].
        - pose proof (imperfections_for_In _ _ phrase Himps Hp) as H.
          apply in_flat_map in H. destruct H as (t & Ht & Hpt).
          apply in_flat_map. exists t. split; [|exact Hpt]. simpl in *; tauto.
        - destruct Hcomp as (c & -> & Hc). destruct Hp as [<-|[]].
          apply in_flat_map. exists COMPOSITION_natural. simpl; tauto. }
      assert (Hall : forallb (fun p => negb (is_human_detail p))
                       (technical_vocabulary
                        ++ flat_map initial_arrays
                             [IMPERFECTIONS_film; IMPERFECTIONS_focus;
                              IMPERFECTIONS_surface; COMPOSITION_natural]) = true)
        by (vm_compute; reflexivity).
      pose proof (proj1 (forallb_forall _ _) Hall phrase Hinj) as Hn.
      now apply negb_true_iff in Hn. }
    assert (Hfront : filter is_human_detail (technical ++ imps ++ comp) = []).
    { apply filter_none. exact Hno. }
    replace (technical ++ imps ++ comp ++ human)
      with ((technical ++ imps ++ comp) ++ human) by now rewrite <- !app_assoc.
    rewrite filter_app, Hfront. cbn [app].
    apply forallb_filter_id. apply forallb_forall. intros phrase Hp.
    unfold is_human_detail. apply existsb_eqb_In. now apply Hin.
  - destruct (hasHumanSubject text).
    + destruct human as [|a [|b [|c rest]]]; try discriminate.
      exists a, b. split; [reflexivity|].
      inversion Hnd as [|? ? Hna _]; subst. intros ->. apply Hna. now left.
    + now destruct human.
Qed.

Lemma transformPrompt_human_details_witness :
  vocabulary_kept (fresh [])
  /\ exists r st',
       transformPrompt (VString (js "a woman")) no_options (fresh []) = (Normal r, st')
       /\ exists front human,
            modifiersAdded r = front ++ human
            /\ filter is_human_detail (modifiersAdded r) = human
            /\ if hasHumanSubject (js "a woman")
               then exists first second, human = [first; second] /\ first <> second
               else human = [].
Proof.
  split; [apply fresh_vocabulary_kept|].
  exact (transformPrompt_human_details (js "a woman") no_options (fresh [])
           (fresh_vocabulary_kept [])).
Defined.

Lemma score_at_most_fresh s st chance0 r st' r0 st0' :
  analyzePrompt (VString s) st = (Normal r, st') ->
  analyzePrompt (VString s) (fresh chance0) = (Normal r0, st0') ->
  (0 <= score r <= score r0)%Z /\ (score r0 <= 100)%Z.
Proof.
  intros Heq Heq0.
  destruct (analyzePrompt_string s st)
    as (r' & st1 & Heq' & _ & _ & Hai & Hre & Hsc & _).
  destruct (analyzePrompt_string s (fresh chance0))
    as (r0' & st2 & Heq0' & _ & _ & Hai0 & Hre0 & Hsc0 & _).
  rewrite Heq in Heq'. rewrite Heq0 in Heq0'.
  inversion Heq'; subst r' st1. inversion Heq0'; subst r0' st2.
  assert (Hle : (aiScore r <= aiScore r0)%Z).
  { rewrite Hai, Hai0. apply filter_weights_le; [exact rule_weights_positive|].
    intros p. apply fired_from_fresh. }
  assert (Hsame : realismScore r = realismScore r0) by congruence.
  rewrite Hsc, Hsc0, Hsame. unfold Math_round. lia.
Qed.

(** X11: the scores [transformPrompt] reports.  [originalScore] is the
    score [analyzePrompt] gives the prompt in the state the call starts in,
    and [issuesFixed] names every issue of that analysis, in its order;
    [newScore] is the score of the transformed text measured with the RegExp
    objects as the first analysis left them (no step in between touches
    them), so it is at most the score a freshly loaded program gives the
    same text; [improvement] is [originalScore - newScore], between -100 and
    100. *)
Theorem transformPrompt_scores (text : jsstring) (options : Options) (st : Store)
    (chance0 : list nat) :
  vocabulary_kept st ->
  exists analysis st1 r st',
    analyzePrompt (VString text) st = (Normal analysis, st1)
    /\ transformPrompt (VString text) options st = (Normal r, st')
    /\ original r = text
    /\ originalScore r = score analysis
    /\ issuesFixed r = map Issue.name (issues analysis)
    /\ (exists st2 newAnalysis,
           lastIndex st2 = lastIndex st1
           /\ analyzePrompt (VString (transformed r)) st2 = (Normal newAnalysis, st')
           /\ newScore r = score newAnalysis)
    /\ (exists freshAnalysis st0',
           analyzePrompt (VString (transformed r)) (fresh chance0)
           = (Normal freshAnalysis, st0')
           /\ (newScore r <= score freshAnalysis)%Z)
    /\ improvement r = (originalScore r - newScore r)%Z
    /\ (-100 <= improvement r <= 100)%Z.
Proof.
  intros Hst.
  destruct (transformPrompt_trace text options st Hst)
    as (analysis & st1 & r & st2 & newAnalysis & st' & Heq & Hr & [_ Hli] & Hnew
        & Ho & Hn & Hi & Hf & Horig & _).
  destruct (analyzePrompt_string (transformed r) (fresh chance0))
    as (freshAnalysis & st0' & Hfresh & _).
  destruct (analyzePrompt_string text (fresh chance0)) as (a0 & sa & Ha0 & _).
  destruct (score_at_most_fresh _ _ chance0 _ _ _ _ Hnew Hfresh) as [Hnb Hfb].
  destruct (score_at_most_fresh _ _ chance0 _ _ _ _ Heq Ha0) as [Hob Hab].
  exists analysis, st1, r, st'.
  split; [exact Heq|]. split; [exact Hr|]. split; [exact Horig|].
  split; [exact Ho|]. split; [exact Hf|].
  split; [exists st2, newAnalysis; auto|].
  split; [exists freshAnalysis, st0'; split; [exact Hfresh | lia]|].
  split; [congruence|]. rewrite Hi. lia.
Qed.

Lemma transformPrompt_scores_witness :
  vocabulary_kept (fresh [5])
  /\ exists analysis st1 r st',
       analyzePrompt (VString (js "beautiful portrait")) (fresh [5]) = (Normal analysis, st1)
       /\ transformPrompt (VString (js "beautiful portrait")) no_options (fresh [5])
          = (Normal r, st')
       /\ original r = js "beautiful portrait"
       /\ originalScore r = score analysis
       /\ issuesFixed r = map Issue.name (issues analysis)
       /\ (exists st2 newAnalysis,
              lastIndex st2 = lastIndex st1
              /\ analyzePrompt (VString (transformed r)) st2 = (Normal newAnalysis, st')
              /\ newScore r = score newAnalysis)
       /\ (exists freshAnalysis st0',
              analyzePrompt (VString (transformed r)) (fresh [])
              = (Normal freshAnalysis, st0')
              /\ (newScore r <= score freshAnalysis)%Z)
       /\ improvement r = (originalScore r - newScore r)%Z
       /\ (-100 <= improvement r <= 100)%Z.
Proof.
  split; [apply fresh_vocabulary_kept|].
  exact (transformPrompt_scores (js "beautiful portrait") no_options (fresh [5]) []
           (fresh_vocabulary_kept [5])).
Defined.

(** ** No modifier twice *)

Lemma NoDup_app_parts {A} (l1 l2 : list A) :
  NoDup l1 -> NoDup l2 -> (forall x, In x l1 -> In x l2 -> False) -> NoDup (l1 ++ l2).
Proof.
  induction l1 as [|x l1 IH]; simpl; intros H1 H2 Hd; [exact H2|].
  inversion H1; subst. constructor.
  - intros Hin. apply in_app_or in Hin. destruct Hin as [Hin|Hin]; [contradiction|].
    apply (Hd x); [now left | exact Hin].
  - apply IH; auto. intros y Hy. apply Hd. now right.
Qed.

Lemma NoDup_app_split {A} (l1 l2 : list A) :
  NoDup (l1 ++ l2) ->
  NoDup l1 /\ NoDup l2 /\ forall x, In x l1 -> In x l2 -> False.
Proof.
  induction l1 as [|x l1 IH]; simpl; intros H.
  - split; [constructor|]. split; [exact H|]. intros ? [].
  - inversion H as [|? ? Hx Hrest]; subst. destruct (IH Hrest) as (H1 & H2 & Hd).
    split; [|split; [exact H2|]].
    + constructor; [|exact H1]. intros Hin. apply Hx. apply in_or_app. now left.
    + intros y [<-|Hy] Hy2; [|exact (Hd y Hy Hy2)].
      apply Hx. apply in_or_app. now right.
Qed.

(** Sections drawn without repeats from pools that share no phrase. *)
Lemma NoDup_sections (groups sections : list (list jsstring)) :
  NoDup (concat groups) ->
  Forall2 (fun group section => NoDup section /\ incl section group) groups sections ->
  NoDup (concat sections) /\ incl (concat sections) (concat groups).
Proof.
  intros Hnd H. induction H as [|group section groups sections [Hs Hi] _ IH];
    simpl in *; [split; [constructor | intros ? []]|].
  destruct (NoDup_app_split _ _ Hnd) as (_ & Hrest & Hd).
  destruct (IH Hrest) as [IHn IHi]. split.
  - apply NoDup_app_parts; [exact Hs | exact IHn|].
    intros x Hx Hx'. exact (Hd x (Hi x Hx) (IHi x Hx')).
  - intros x Hx. apply in_app_or in Hx. apply in_or_app.
    destruct Hx as [Hx|Hx]; [left; now apply Hi | right; now apply IHi].
Qed.

Lemma pools_distinct m : NoDup (concat (pools m)).
Proof.
  apply distinctb_NoDup. unfold pools, lighting_table.
  destruct (jsstring_eqb m (js "moody")); [|destruct (jsstring_eqb m (js "harsh"))];
    vm_compute; reflexivity.
Qed.

Lemma incl_one phrase (pool : list jsstring) : In phrase pool -> incl [phrase] pool.
Proof. intros H x [<-|[]]. exact H. Qed.

Lemma NoDup_one (phrase : jsstring) : NoDup [phrase].
Proof. constructor; [intros [] | constructor]. Qed.

Lemma optional_section (b : bool) phrase (pool : list jsstring) :
  In phrase pool ->
  NoDup (if b then [phrase] else []) /\ incl (if b then [phrase] else []) pool.
Proof.
  intros H. destruct b; [split; [apply NoDup_one | now apply incl_one]|].
  split; [constructor | intros ? []].
Qed.

(** X12: the modifiers [transformPrompt] appends.  For every string
    prompt and every config, from a store whose tables hold their phrases:
    [modifiersAdded] holds no phrase twice, and its length is 2 for style
    [phone] and 3 for every other style, plus the count of the imperfection
    level (1, 2 or 3), plus 1 for the composition, plus 2 when the prompt
    has a human subject: between 4 and 9 phrases. *)
Theorem transformPrompt_modifiers_distinct (text : jsstring) (options : Options)
    (st : Store) :
  vocabulary_kept st ->
  exists r st',
    transformPrompt (VString text) options st = (Normal r, st')
    /\ NoDup (modifiersAdded r)
    /\ length (modifiersAdded r)
       = (if jsstring_eqb (default (style options) "film") (js "phone") then 2 else 3)
         + imperfection_count (resolved_level options)
         + 1
         + (if hasHumanSubject text then 2 else 0)
    /\ 4 <= length (modifiersAdded r) <= 9.
Proof.
  intros Hst.
  destruct (transformPrompt_trace text options st Hst)
    as (analysis & st1 & r & st2 & newAnalysis & st' & _ & Heq & _ & _ & _ & _ & _ & _
        & _ & base & technical & imps & comp & human & _ & Htech & Himps & Hcomp
        & (Hnd & Hin & Hlen) & Hmods & _).
  exists r, st'. split; [exact Heq|].
  destruct Htech as (camera & lens & lighting & Hcam & Hlens & Hlight & ->).
  destruct Himps as (film & focus & surface & Hfilm & Hfocus & Hsurface & ->).
  destruct Hcomp as (c & -> & Hc).
  set (phone := jsstring_eqb (default (style options) "film") (js "phone")) in *.
  set (count := imperfection_count (resolved_level options)) in *.
  assert (Hcount : 1 <= count <= 3).
  { unfold count, imperfection_count.
    destruct (jsstring_eqb _ (js "high")); [lia|].
    destruct (jsstring_eqb _ (js "low")); lia. }
  assert (Hcamera : In camera (initial_arrays CAMERAS_film ++ initial_arrays CAMERAS_modern)).
  { apply in_or_app. unfold camera_table in Hcam.
    destruct (jsstring_eqb _ (js "film")); [now left|].
    destruct (jsstring_eqb _ (js "digital")); [now right|].
    right. subst camera. apply existsb_eqb_In. vm_compute. reflexivity. }
  assert (Hsec : Forall2 (fun group section => NoDup section /\ incl section group)
                   (pools (default (mood options) "natural"))
                   [ [camera]; if phone then [] else [lens]; [lighting];
                     [film]; if Nat.leb 2 count then [focus] else [];
                     if Nat.leb 3 count then [surface] else [];
                     [c]; human ]).
  { unfold pools.
    constructor; [split; [apply NoDup_one | now apply incl_one]|].
    constructor.
    { destruct phone; [split; [constructor | intros ? []]|].
      split; [apply NoDup_one | now apply incl_one]. }
    constructor; [split; [apply NoDup_one | now apply incl_one]|].
    constructor; [split; [apply NoDup_one | now apply incl_one]|].
    constructor; [now apply optional_section|].
    constructor; [now apply optional_section|].
    constructor; [split; [apply NoDup_one | now apply incl_one]|].
    constructor; [split; [exact Hnd | exact Hin]|]. constructor. }
  destruct (NoDup_sections _ _ (pools_distinct _) Hsec) as [Hall _].
  assert (Hshape : modifiersAdded r
                   = concat [ [camera]; if phone then [] else [lens]; [lighting];
                              [film]; if Nat.leb 2 count then [focus] else [];
                              if Nat.leb 3 count then [surface] else [];
                              [c]; human ]).
  { rewrite Hmods. cbn [concat]. rewrite <- !app_assoc. rewrite app_nil_r. reflexivity. }
  split; [rewrite Hshape; exact Hall|].
  assert (Hlength : length (modifiersAdded r)
                    = (if phone then 2 else 3) + count + 1
                      + (if hasHumanSubject text then 2 else 0)).
  { rewrite Hshape. cbn [concat]. rewrite app_nil_r, !length_app, Hlen.
    destruct phone; cbn [length];
      destruct count as [|[|[|[|n]]]]; cbn [Nat.leb length]; lia. }
  split; [exact Hlength|]. rewrite Hlength.
  destruct phone; destruct (hasHumanSubject text); lia.
Qed.

Lemma transformPrompt_modifiers_distinct_witness :
  vocabulary_kept (fresh [1; 2; 3])
  /\ exists r st',
       transformPrompt (VString (js "a man at the park"))
         (mkOptions (Some (js "phone")) None (Some (js "high")) None) (fresh [1; 2; 3])
       = (Normal r, st')
       /\ NoDup (modifiersAdded r)
       /\ length (modifiersAdded r)
          = (if jsstring_eqb
                  (default (style (mkOptions (Some (js "phone")) None (Some (js "high")) None))
                     "film") (js "phone") then 2 else 3)
            + imperfection_count
                (resolved_level (mkOptions (Some (js "phone")) None (Some (js "high")) None))
            + 1
            + (if hasHumanSubject (js "a man at the park") then 2 else 0)
       /\ 4 <= length (modifiersAdded r) <= 9.
Proof.
  split; [apply fresh_vocabulary_kept|].
  exact (transformPrompt_modifiers_distinct (js "a man at the park")
           (mkOptions (Some (js "phone")) None (Some (js "high")) None) (fresh [1; 2; 3])
           (fresh_vocabulary_kept [1; 2; 3])).
Defined.

(** ** Suggestions *)

Lemma distinct_of_yields t n :
  n <= length (initial_arrays t) ->
  yields (getRandomModifiers (CatArray t) n) (distinct_of t n).
Proof.
  intros Hn. eapply yields_weaken; [apply getRandomModifiers_distinct|].
  intros chosen (Hnd & Hlen & Hin). split; [exact Hnd|]. split; [|exact Hin].
  rewrite Hlen. now apply Nat.min_l.
Qed.

Ltac table_holds := vm_compute; repeat constructor.

(** X13: what [getSuggestions] answers for a string, from every store
    whose tables hold their phrases: [issues] and [score] are those of
    [analyzePrompt] on the same text in the same state, and the modifier
    selection after it touches no RegExp; [camera], [lighting],
    [imperfections] and [composition] each hold two different phrases, of
    [CAMERAS.film], [LIGHTING.natural], [IMPERFECTIONS.film] and
    [COMPOSITION.natural]; [humanDetails] holds three different phrases of
    [HUMAN_DETAILS] when the text has a human subject and is [null]
    otherwise. *)
Theorem getSuggestions_shape (text : jsstring) (st : Store) :
  vocabulary_kept st ->
  exists analysis st1 r st',
    analyzePrompt (VString text) st = (Normal analysis, st1)
    /\ getSuggestions (VString text) st = (Normal r, st')
    /\ vocabulary_kept st' /\ lastIndex st' = lastIndex st1
    /\ suggested_issues r = issues analysis
    /\ suggested_score r = score analysis
    /\ distinct_of CAMERAS_film 2 (camera r)
    /\ distinct_of LIGHTING_natural 2 (lighting r)
    /\ distinct_of IMPERFECTIONS_film 2 (imperfections r)
    /\ distinct_of COMPOSITION_natural 2 (composition r)
    /\ match humanDetails r with
       | Some human => hasHumanSubject text = true /\ distinct_of HUMAN_DETAILS 3 human
       | None => hasHumanSubject text = false
       end.
Proof.
  intros Hst.
  destruct (analyzePrompt_string text st)
    as (analysis & st1 & Heq & _ & _ & _ & _ & _ & Harr & _).
  cut (returns (fun s0 => s0 = st) (getSuggestions (VString text))
         (fun r st' =>
            tracked (lastIndex st1) st'
            /\ suggested_issues r = issues analysis
            /\ suggested_score r = score analysis
            /\ distinct_of CAMERAS_film 2 (camera r)
            /\ distinct_of LIGHTING_natural 2 (lighting r)
            /\ distinct_of IMPERFECTIONS_film 2 (imperfections r)
            /\ distinct_of COMPOSITION_natural 2 (composition r)
            /\ match humanDetails r with
               | Some human =>
                   hasHumanSubject text = true /\ distinct_of HUMAN_DETAILS 3 human
               | None => hasHumanSubject text = false
               end)).
  { intros H. destruct (H st eq_refl) as (r & st' & Hr & [Hk Hli] & Hrest).
    exists analysis, st1, r, st'. tauto. }
  unfold getSuggestions.
  eapply returns_bind with
    (Q := fun a s1 => a = analysis /\ tracked (lastIndex st1) s1).
  { intros s0 ->. exists analysis, st1. split; [exact Heq|]. split; [reflexivity|].
    split; [|reflexivity]. intros t. rewrite Harr. apply Hst. }
  intros a. apply returns_assume. intros ->. cbn [ToString].
  eapply tracked_bind;
    [apply distinct_of_yields; table_holds | apply untouched_getRandomModifiers |].
  intros cam Hcam.
  eapply tracked_bind;
    [apply distinct_of_yields; table_holds | apply untouched_getRandomModifiers |].
  intros light Hlight.
  eapply tracked_bind;
    [apply distinct_of_yields; table_holds | apply untouched_getRandomModifiers |].
  intros imps Himps.
  eapply tracked_bind;
    [apply distinct_of_yields; table_holds | apply untouched_getRandomModifiers |].
  intros comp Hcomp.
  eapply tracked_bind with
    (Q := fun h => match h with
                   | Some human =>
                       hasHumanSubject text = true /\ distinct_of HUMAN_DETAILS 3 human
                   | None => hasHumanSubject text = false
                   end).
  { destruct (hasHumanSubject text).
    - eapply yields_bind; [apply distinct_of_yields; table_holds|].
      intros human Hh. apply yields_ret. auto.
    - now apply yields_ret. }
  { destruct (hasHumanSubject text); [|apply untouched_ret].
    apply untouched_bind; [apply untouched_getRandomModifiers|].
    intros; apply untouched_ret. }
  intros human Hhuman. apply returns_ret. intros s Hs.
  cbn [suggested_issues suggested_score camera lighting imperfections composition
       humanDetails].
  tauto.
Qed.

Lemma getSuggestions_shape_witness :
  vocabulary_kept (fresh [4])
  /\ exists analysis st1 r st',
       analyzePrompt (VString (js "portrait of a child")) (fresh [4]) = (Normal analysis, st1)
       /\ getSuggestions (VString (js "portrait of a child")) (fresh [4]) = (Normal r, st')
       /\ vocabulary_kept st' /\ lastIndex st' = lastIndex st1
       /\ suggested_issues r = issues analysis
       /\ suggested_score r = score analysis
       /\ distinct_of CAMERAS_film 2 (camera r)
       /\ distinct_of LIGHTING_natural 2 (lighting r)
       /\ distinct_of IMPERFECTIONS_film 2 (imperfections r)
       /\ distinct_of COMPOSITION_natural 2 (composition r)
       /\ match humanDetails r with
          | Some human =>
              hasHumanSubject (js "portrait of a child") = true
              /\ distinct_of HUMAN_DETAILS 3 human
          | None => hasHumanSubject (js "portrait of a child") = false
          end.
Proof.
  split; [apply fresh_vocabulary_kept|].
  exact (getSuggestions_shape (js "portrait of a child") (fresh [4])
           (fresh_vocabulary_kept [4])).
Defined.

(** ** Values that are not strings *)

Lemma analyzePrompt_throws_frame v st :
  is_string v = false ->
  exists st',
    analyzePrompt v st = (Throw (no_match_method v), st')
    /\ arrays st' = arrays st /\ chance st' = chance st.
Proof.
  intros Hv.
  pose proof (check_patterns_throws _ _ _ (rules_throw_on_non_strings v Hv) [] 0%Z st) as H.
  destruct (check_patterns_frame AI_PRONE_PATTERNS v [] 0%Z st) as (Ha & Hc & _).
  unfold analyzePrompt, bind.
  destruct (check_patterns AI_PRONE_PATTERNS v [] 0%Z st) as [[a|e] st'];
    cbn [fst snd] in *; [discriminate|].
  inversion H; subst e. exists st'. auto.
Qed.

(** X14: [transformPrompt], [humanize] and [getSuggestions] have no check
    of their argument either: handed [undefined], [null], a Boolean or a
    Number, each of them ends with the TypeError that [prompt.match] raises
    inside [analyzePrompt], in the state that call left; nothing after the
    analysis runs: the vocabulary tables and the supply of random outcomes
    are as before the call, and the TypeError of [cleaned.replace] is never
    reached. *)
Theorem transformer_non_string_TypeError (v : jsval) (options : Options) (st : Store) :
  is_string v = false ->
  exists st',
    analyzePrompt v st = (Throw (no_match_method v), st')
    /\ transformPrompt v options st = (Throw (no_match_method v), st')
    /\ humanize v st = (Throw (no_match_method v), st')
    /\ getSuggestions v st = (Throw (no_match_method v), st')
    /\ arrays st' = arrays st /\ chance st' = chance st
    /\ no_match_method v <> no_replace_method v.
Proof.
  intros Hv. destruct (analyzePrompt_throws_frame v st Hv) as (st' & Heq & Ha & Hc).
  exists st'. split; [exact Heq|].
  assert (Ht : forall o, transformPrompt v o st = (Throw (no_match_method v), st')).
  { intros o. unfold transformPrompt, bind. now rewrite Heq. }
  split; [apply Ht|]. split.
  { unfold humanize, bind. now rewrite Ht. }
  split.
  { unfold getSuggestions, bind. now rewrite Heq. }
  split; [exact Ha|]. split; [exact Hc|].
  destruct v as [| |b|n|s]; try discriminate.
Qed.

Lemma transformer_non_string_TypeError_witness :
  is_string VNull = false
  /\ exists st',
       analyzePrompt VNull (fresh [7]) = (Throw (no_match_method VNull), st')
       /\ transformPrompt VNull no_options (fresh [7]) = (Throw (no_match_method VNull), st')
       /\ humanize VNull (fresh [7]) = (Throw (no_match_method VNull), st')
       /\ getSuggestions VNull (fresh [7]) = (Throw (no_match_method VNull), st')
       /\ arrays st' = arrays (fresh [7]) /\ chance st' = chance (fresh [7])
       /\ no_match_method VNull <> no_replace_method VNull.
Proof.
  split; [reflexivity|].
  exact (transformer_non_string_TypeError VNull no_options (fresh [7]) eq_refl).
Defined.

(** ** The text [cleanPrompt] returns *)

Lemma leading_length f s : length (leading f s) + length (after_leading f s) = length s.
Proof.
  induction s as [|c s IH]; [reflexivity|]. simpl.
  destruct (f c); simpl; lia.
Qed.

Lemma leading_split f s : leading f s ++ after_leading f s = s.
Proof.
  induction s as [|c s IH]; [reflexivity|]. simpl.
  destruct (f c); simpl; congruence.
Qed.

Lemma skipn_leading f s : skipn (length (leading f s)) s = after_leading f s.
Proof.
  induction s as [|c s IH]; [reflexivity|]. simpl.
  destruct (f c); simpl; congruence.
Qed.

Lemma leading_all f s : forallb f (leading f s) = true.
Proof.
  induction s as [|c s IH]; [reflexivity|]. simpl.
  destruct (f c) eqn:E; simpl; [now rewrite E|reflexivity].
Qed.

(** A greedy star before a continuation that cannot fail takes the whole
    run. *)
Lemma star_match_greedy (A : Type) f prev s (k : option N -> jsstring -> option A) :
  (forall p t, k p t <> None) ->
  star_match f prev s k = k (last_of prev (leading f s)) (after_leading f s).
Proof.
  intros Hk. revert prev. induction s as [|c s IH]; intros prev; [reflexivity|].
  cbn [star_match leading after_leading]. destruct (f c); [|reflexivity].
  rewrite IH. change (last_of prev (c :: leading f s)) with (last_of (Some c) (leading f s)).
  destruct (k (last_of (Some c) (leading f s)) (after_leading f s)) eqn:E;
    [reflexivity|]. now apply Hk in E.
Qed.

(** A star that must reach the end of the input takes all that is left,
    or fails. *)
Lemma star_match_to_end (A : Type) f prev s (k : option N -> jsstring -> option A) :
  star_match f prev s (fun p t => match t with [] => k p t | _ :: _ => None end)
  = if forallb f s then k (last_of prev s) [] else None.
Proof.
  revert prev. induction s as [|c s IH]; intros prev; [reflexivity|].
  cbn [star_match forallb]. destruct (f c); [|reflexivity].
  rewrite IH. cbn [andb].
  change (last_of prev (c :: s)) with (last_of (Some c) s).
  destruct (forallb f s); [|reflexivity].
  now destruct (k (last_of (Some c) s) []).
Qed.

Lemma segments_skip ic r n :
  forall s prev,
    n <= length s ->
    segments ic r prev s n = segments ic r (last_of prev (firstn n s)) (skipn n s) 0.
Proof.
  induction n as [|n IH]; intros s prev Hn; [now destruct s|].
  destruct s as [|c s]; [simpl in Hn; lia|].
  cbn [segments firstn skipn]. rewrite IH by (simpl in Hn; lia). reflexivity.
Qed.

Lemma squeeze_run s : squeeze true s = squeeze false (after_leading is_space s).
Proof.
  induction s as [|c s IH]; [reflexivity|].
  cbn [squeeze after_leading]. destruct (is_space c) eqn:E; [exact IH|].
  cbn [squeeze]. now rewrite E.
Qed.

(** [s.replace(/\s+/g, ' ')] *)
Lemma spaces_squeeze s : replace_all spaces (js " ") s = squeeze false s.
Proof.
  unfold replace_all, scan, spaces, re_g. cbn [ignoreCase source].
  generalize (@None N) as prev.
  assert (H : forall n s prev, length s <= n ->
              render (js " ") (segments false (plus is_space) prev s 0) = squeeze false s).
  { induction n as [|n IH]; intros t prev Hn.
    - destruct t; [reflexivity | simpl in Hn; lia].
    - destruct t as [|c t]; [reflexivity|].
      cbn [segments squeeze].
      unfold match_here at 1, plus at 1. cbn [rmatch].
      destruct (is_space c) eqn:Ec.
      + rewrite star_match_greedy by discriminate.
        pose proof (leading_length is_space t) as Hl.
        replace (length (c :: t) - length (after_leading is_space t))
          with (S (length (leading is_space t))) by (cbn [length]; lia).
        rewrite segments_skip by lia.
        rewrite skipn_leading. cbn [render].
        rewrite IH by (simpl in Hn; lia).
        now rewrite squeeze_run.
      + cbn [render]. rewrite IH by (simpl in Hn; lia). reflexivity. }
  intros prev. now apply (H (length s)).
Qed.

Lemma last_of_Some c w : exists p, last_of (Some c) w = Some p.
Proof.
  revert c. induction w as [|d w IH]; intros c; [now exists c|]. apply (IH d).
Qed.

Lemma edges_end s :
  forall p,
    render [] (segments false (source edges) (Some p) s 0) = trim_end s.
Proof.
  induction s as [|c s IH]; intros p; [reflexivity|].
  cbn [segments trim_end].
  assert (E : match_here false (source edges) (Some p) (c :: s)
              = if forallb is_comma_or_space (c :: s) then Some (S (length s)) else None).
  { unfold match_here, edges, re_g, plus. cbn [source rmatch forallb].
    destruct (is_comma_or_space c); [|reflexivity].
    rewrite (star_match_to_end _ is_comma_or_space (Some c) s
               (fun _ s' => Some (length (c :: s) - length s'))).
    cbn [andb]. destruct (forallb is_comma_or_space s); [|reflexivity].
    cbv beta. cbn [length]. f_equal; lia. }
  rewrite E. destruct (forallb is_comma_or_space (c :: s)).
  - rewrite segments_skip_all by (intros [q|]; reflexivity). reflexivity.
  - cbn [render]. now rewrite IH.
Qed.

(** [s.replace(/^[,\s]+|[,\s]+$/g, '')] *)
Lemma edges_trim s : replace_all edges [] s = trim s.
Proof.
  unfold replace_all, scan, trim. change (ignoreCase edges) with false.
  destruct s as [|c s]; [reflexivity|].
  cbn [segments after_leading].
  unfold match_here at 1, edges at 1, re_g, plus. cbn [source rmatch].
  destruct (is_comma_or_space c) eqn:Ec.
  - rewrite star_match_greedy by discriminate.
    pose proof (leading_length is_comma_or_space s) as Hl.
    replace (length (c :: s) - length (after_leading is_comma_or_space s))
      with (S (length (leading is_comma_or_space s))) by (cbn [length]; lia).
    rewrite segments_skip by lia. rewrite skipn_leading. cbn [render app].
    destruct (last_of_Some c (firstn (length (leading is_comma_or_space s)) s)) as (p & ->).
    apply edges_end.
  - cbn [render trim_end forallb]. rewrite Ec. cbn [andb].
    now rewrite (edges_end s c).
Qed.

Lemma squeeze_single_spaced s : forall b, single_spaced b (squeeze b s) = true.
Proof.
  induction s as [|c s IH]; intros b; [reflexivity|].
  cbn [squeeze]. destruct (is_space c) eqn:E.
  - destruct b; [apply IH|]. cbn [single_spaced].
    change (is_space 32) with true. cbn [N.eqb Pos.eqb negb andb]. apply IH.
  - cbn [single_spaced]. rewrite E. apply IH.
Qed.

Lemma single_spaced_weaken s b : single_spaced b s = true -> single_spaced false s = true.
Proof.
  destruct s as [|c s]; [reflexivity|]. cbn [single_spaced].
  destruct (is_space c); [|auto]. destruct b; [|auto].
  rewrite andb_false_r. discriminate.
Qed.

Lemma single_spaced_tail front :
  forall b s, single_spaced b (front ++ s) = true -> single_spaced false s = true.
Proof.
  induction front as [|c front IH]; intros b s H; [now apply single_spaced_weaken in H|].
  cbn [app single_spaced] in H. destruct (is_space c).
  - apply andb_true_iff in H. destruct H as [_ H].
    apply IH in H. exact H.
  - now apply IH in H.
Qed.

Lemma single_spaced_pair c d rest :
  single_spaced false (c :: d :: rest) = true -> is_space c = true ->
  c = 32%N /\ is_space d = false.
Proof.
  cbn [single_spaced]. intros H Hc. rewrite Hc in H.
  apply andb_true_iff in H. destruct H as [H1 H2].
  apply andb_true_iff in H1. destruct H1 as [H1 _]. apply N.eqb_eq in H1.
  split; [exact H1|].
  destruct (is_space d); [|reflexivity].
  cbn [negb] in H2. rewrite andb_false_r in H2. discriminate.
Qed.

Lemma single_spaced_one c :
  single_spaced false [c] = true -> is_space c = true -> c = 32%N.
Proof.
  cbn [single_spaced]. intros H Hc. rewrite Hc in H.
  apply andb_true_iff in H. destruct H as [H1 _].
  apply andb_true_iff in H1. destruct H1 as [H1 _]. now apply N.eqb_eq in H1.
Qed.

Lemma trim_end_prefix s : exists post, s = trim_end s ++ post.
Proof.
  induction s as [|c s (post & IH)]; [now exists []|].
  cbn [trim_end]. destruct (forallb is_comma_or_space (c :: s)).
  - now exists (c :: s).
  - exists post. cbn [app]. congruence.
Qed.

Lemma trim_infix s : exists pre post, s = pre ++ trim s ++ post.
Proof.
  unfold trim. destruct (trim_end_prefix (after_leading is_comma_or_space s)) as (post & H).
  exists (leading is_comma_or_space s), post.
  rewrite <- H. symmetry. apply leading_split.
Qed.

Lemma after_leading_head f s c rest : after_leading f s = c :: rest -> f c = false.
Proof.
  induction s as [|d s IH]; [discriminate|]. cbn [after_leading].
  destruct (f d) eqn:E; [exact IH|]. intros H. inversion H; subst. exact E.
Qed.

Lemma trim_end_head s c rest : trim_end s = c :: rest -> exists rest', s = c :: rest'.
Proof.
  destruct s as [|d s]; [discriminate|]. cbn [trim_end].
  destruct (forallb is_comma_or_space (d :: s)); [discriminate|].
  intros H. inversion H; subst. now exists s.
Qed.

Lemma trim_end_nil s : trim_end s = [] -> forallb is_comma_or_space s = true.
Proof.
  destruct s as [|d s]; [reflexivity|]. cbn [trim_end].
  destruct (forallb is_comma_or_space (d :: s)); [reflexivity | discriminate].
Qed.

Lemma trim_end_last s :
  forall front c, trim_end s = front ++ [c] -> is_comma_or_space c = false.
Proof.
  induction s as [|d s IH]; intros front c H; [now destruct front|].
  cbn [trim_end] in H.
  destruct (forallb is_comma_or_space (d :: s)) eqn:E; [now destruct front|].
  destruct front as [|e front]; cbn [app] in H; inversion H; subst.
  - match goal with Hn : trim_end s = [] |- _ => apply trim_end_nil in Hn; rename Hn into Hs end.
    cbn [forallb] in E. rewrite Hs, andb_true_r in E. exact E.
  - eapply IH. eassumption.
Qed.

(** X15: the text [cleanPrompt] returns is tidy, whatever the prompt: it
    neither starts nor ends with a comma or white space; the only white
    space left in it is U+0020, and never two in a row.  (Commas can still
    stand side by side: the comma step passes over the text once.) *)
Theorem cleanPrompt_tidy (s : jsstring) :
  (forall c rest, cleanPrompt s = c :: rest -> is_comma_or_space c = false)
  /\ (forall front c, cleanPrompt s = front ++ [c] -> is_comma_or_space c = false)
  /\ (forall c, In c (cleanPrompt s) -> is_space c = true -> c = 32%N)
  /\ (forall front c d rest,
         cleanPrompt s = front ++ c :: d :: rest -> is_space c = true ->
         is_space d = false).
Proof.
  unfold cleanPrompt.
  generalize (replace_all commas (js ",")
                (replace_all (removal lighting_words) []
                   (replace_all (removal beauty_words) []
                      (replace_all (removal realistic_words) []
                         (replace_all (removal platform_words) []
                            (replace_all (removal resolution_words) [] s)))))) as t.
  intros t. rewrite spaces_squeeze, edges_trim.
  pose proof (squeeze_single_spaced t false) as Hsq.
  destruct (trim_infix (squeeze false t)) as (pre & post & Hin).
  rewrite Hin in Hsq. apply single_spaced_tail in Hsq.
  assert (Hhead : forall c rest,
             trim (squeeze false t) = c :: rest -> is_comma_or_space c = false).
  { intros c rest E. unfold trim in E.
    destruct (trim_end_head _ _ _ E) as (rest' & E'). exact (after_leading_head _ _ _ _ E'). }
  assert (Hlast : forall front c,
             trim (squeeze false t) = front ++ [c] -> is_comma_or_space c = false).
  { intros front c E. unfold trim in E. exact (trim_end_last _ _ _ E). }
  clear Hin. generalize dependent (trim (squeeze false t)). intros out Hsq Hhead Hlast.
  split; [exact Hhead|]. split; [exact Hlast|]. split.
  - intros c Hc Hsp. apply in_split in Hc. destruct Hc as (front & rest & E).
    rewrite E, <- app_assoc in Hsq. apply single_spaced_tail in Hsq.
    cbn [app] in Hsq. destruct (rest ++ post) as [|d after].
    + now apply single_spaced_one.
    + now destruct (single_spaced_pair _ _ _ Hsq Hsp).
  - intros front c d rest E Hsp.
    rewrite E, <- app_assoc in Hsq. apply single_spaced_tail in Hsq.
    cbn [app] in Hsq. now destruct (single_spaced_pair _ _ _ Hsq Hsp).
Qed.

Example cleanPrompt_commas_left : cleanPrompt (js "a,,,b") = js "a,,b".
Proof. vm_compute. reflexivity. Qed.

(** ** Text with nothing to clean *)

Lemma segments_no_hits ic r s :
  forall prev, hits (segments ic r prev s 0) = [] -> segments ic r prev s 0 = map Keep s.
Proof.
  induction s as [|c s IH]; intros prev; cbn [segments].
  - destruct (match_here ic r prev []); [discriminate | reflexivity].
  - destruct (match_here ic r prev (c :: s)); [discriminate|].
    cbn [hits map]. intros H. now rewrite IH.
Qed.

Lemma replace_all_no_match R text s : match_all R s = [] -> replace_all R text s = s.
Proof.
  unfold match_all, replace_all, scan. intros H.
  rewrite (segments_no_hits _ _ _ _ H). apply render_keep.
Qed.

Lemma squeeze_single_spaced_id s :
  single_spaced false s = true -> squeeze false s = s.
Proof.
  assert (H : forall b, single_spaced b s = true ->
                        squeeze b s = s).
  { induction s as [|c s IH]; intros b; [reflexivity|].
    cbn [single_spaced squeeze]. destruct (is_space c).
    - intros H. apply andb_true_iff in H. destruct H as [H1 H2].
      apply andb_true_iff in H1. destruct H1 as [Hc Hb].
      apply N.eqb_eq in Hc. apply negb_true_iff in Hb. subst b c.
      now rewrite (IH true H2).
    - intros H. now rewrite (IH false H). }
  apply H.
Qed.

(** X16: a prompt with nothing to clean comes back as it is.  When none
    of the five removal patterns and neither the comma pattern nor the edge
    pattern has a match in the prompt, and its white space is single
    U+0020 only, [cleanPrompt] returns the prompt itself. *)
Theorem cleanPrompt_nothing_to_clean (s : jsstring) :
  (forall R,
      In R [removal resolution_words; removal platform_words; removal realistic_words;
            removal beauty_words; removal lighting_words; commas; edges] ->
      match_all R s = []) ->
  single_spaced false s = true ->
  cleanPrompt s = s.
Proof.
  intros Hnone Hsp. unfold cleanPrompt.
  rewrite (replace_all_no_match (removal resolution_words) [] s)
    by (apply Hnone; cbn [In]; tauto).
  rewrite (replace_all_no_match (removal platform_words) [] s)
    by (apply Hnone; cbn [In]; tauto).
  rewrite (replace_all_no_match (removal realistic_words) [] s)
    by (apply Hnone; cbn [In]; tauto).
  rewrite (replace_all_no_match (removal beauty_words) [] s)
    by (apply Hnone; cbn [In]; tauto).
  rewrite (replace_all_no_match (removal lighting_words) [] s)
    by (apply Hnone; cbn [In]; tauto).
  rewrite (replace_all_no_match commas (js ",") s) by (apply Hnone; cbn [In]; tauto).
  rewrite spaces_squeeze, (squeeze_single_spaced_id s Hsp).
  apply replace_all_no_match. apply Hnone. cbn [In]. tauto.
Qed.

Lemma cleanPrompt_nothing_to_clean_witness :
  cleanPrompt (js "an old fisherman mending nets, overcast morning")
  = js "an old fisherman mending nets, overcast morning".
Proof.
  apply (cleanPrompt_nothing_to_clean (js "an old fisherman mending nets, overcast morning")).
  - intros R HR. cbn [In] in HR.
    repeat (destruct HR as [<-|HR]; [vm_compute; reflexivity|]). destruct HR.
  - vm_compute. reflexivity.
Defined.

Lemma Rendered_no_hits answer s :
  forall ic r prev out,
    hits (segments ic r prev s 0) = [] ->
    Rendered answer (segments ic r prev s 0) out -> out = s.
Proof.
  intros ic r prev out Hnone. rewrite (segments_no_hits _ _ _ _ Hnone).
  clear Hnone. revert out. induction s as [|c s IH]; intros out H; cbn [map] in H.
  - now inversion H.
  - inversion H; subst. f_equal. now apply IH.
Qed.

(** X17: a prompt with nothing to clean and no generic subject or
    location is kept word for word.  When [cleanPrompt] has nothing to do
    (or [preserveOriginal] is set) and none of the subject and location
    patterns has a match in the prompt, [transformed] is the prompt itself
    followed by the modifiers, all joined with [', ']; the random outcomes
    decide the modifiers only. *)
Theorem transformPrompt_keeps_plain_prompt (text : jsstring) (options : Options)
    (st : Store) :
  vocabulary_kept st ->
  (resolved_preserve options = true \/ cleanPrompt text = text) ->
  match_all generic_woman_man text = [] ->
  match_all generic_person text = [] ->
  (forall generic specifics,
      In (generic, specifics) locationEnhancements ->
      match_all (location_regex generic) text = []) ->
  exists r st',
    transformPrompt (VString text) options st = (Normal r, st')
    /\ original r = text
    /\ modifiersAdded r <> []
    /\ transformed r = join (js ", ") (text :: modifiersAdded r).
Proof.
  intros Hst Hclean Hsubject Hperson Hlocation.
  destruct (transformPrompt_trace text options st Hst)
    as (analysis & st1 & r & st2 & newAnalysis & st' & _ & Heq & _ & _ & _ & _ & _ & _
        & Horig & base & technical & imps & comp & human & Hbase & Htech & _ & _ & _
        & Hmods & Hjoin).
  exists r, st'. split; [exact Heq|]. split; [exact Horig|].
  split.
  { rewrite Hmods. destruct Htech as (camera & lens & lighting & _ & _ & _ & ->).
    discriminate. }
  assert (Hstart : (if resolved_preserve options then text else cleanPrompt text) = text).
  { destruct Hclean as [->|Hc]; [reflexivity|]. now destruct (resolved_preserve options). }
  rewrite Hstart in Hbase.
  destruct Hbase as (with_person & (with_subject & Hs & Hp) & Hloc).
  apply (Rendered_no_hits _ _ _ _ _ _ Hsubject) in Hs. subst with_subject.
  apply (Rendered_no_hits _ _ _ _ _ _ Hperson) in Hp. subst with_person.
  assert (Hb : base = text).
  { destruct Hloc as [->|(generic & specifics & specific & Hin & _ & ->)]; [reflexivity|].
    apply replace_all_no_match. exact (Hlocation generic specifics Hin). }
  now rewrite Hjoin, Hb.
Qed.

Lemma transformPrompt_keeps_plain_prompt_witness :
  exists r st',
    transformPrompt (VString (js "an old fisherman mending nets, overcast morning"))
      no_options (fresh [2; 0; 1])
    = (Normal r, st')
    /\ original r = js "an old fisherman mending nets, overcast morning"
    /\ modifiersAdded r <> []
    /\ transformed r
       = join (js ", ")
           (js "an old fisherman mending nets, overcast morning" :: modifiersAdded r).
Proof.
  apply (transformPrompt_keeps_plain_prompt
           (js "an old fisherman mending nets, overcast morning") no_options
           (fresh [2; 0; 1])).
  - apply fresh_vocabulary_kept.
  - right. vm_compute. reflexivity.
  - vm_compute. reflexivity.
  - vm_compute. reflexivity.
  - intros generic specifics Hin. unfold locationEnhancements in Hin. cbn [In] in Hin.
    repeat (destruct Hin as [Hin|Hin]; [inversion Hin; subst; vm_compute; reflexivity|]).
    destruct Hin.
Defined.

(** ** The callers *)

(** X18: the badge a score gets.  For the analysis of any string from
    any store, with [raw] the AI-prone weight minus the realism weight: the
    command line shows green up to [raw] 4, yellow from 5 to 8, orange from
    9 to 12 and red from 13 on; the two servers show green up to 5, yellow
    from 6 to 11 and red from 12 on, and have no orange; so the command
    line and the servers show the same badge exactly when [raw] is at most
    4, between 6 and 8, or at least 13. *)
Theorem badges_of_an_analysis (s : jsstring) (st : Store) :
  exists r st',
    analyzePrompt (VString s) st = (Normal r, st')
    /\ (getBadge (score r) = green_circle <-> aiScore r - realismScore r <= 4)%Z
    /\ (getBadge (score r) = yellow_circle <-> 5 <= aiScore r - realismScore r <= 8)%Z
    /\ (getBadge (score r) = orange_circle <-> 9 <= aiScore r - realismScore r <= 12)%Z
    /\ (getBadge (score r) = red_circle <-> 13 <= aiScore r - realismScore r)%Z
    /\ (server_badge (score r) = green_circle <-> aiScore r - realismScore r <= 5)%Z
    /\ (server_badge (score r) = yellow_circle <-> 6 <= aiScore r - realismScore r <= 11)%Z
    /\ (server_badge (score r) = red_circle <-> 12 <= aiScore r - realismScore r)%Z
    /\ (server_badge (score r) <> orange_circle)
    /\ (getBadge (score r) = server_badge (score r)
        <-> (aiScore r - realismScore r <= 4
             \/ 6 <= aiScore r - realismScore r <= 8
             \/ 13 <= aiScore r - realismScore r)%Z).
Proof.
  destruct (analyzePrompt_string s st) as (r & st' & Heq & _ & _ & _ & _ & Hsc & _).
  exists r, st'. split; [exact Heq|].
  rewrite Hsc. unfold Math_round.
  generalize (aiScore r - realismScore r)%Z as raw. intros raw.
  unfold getBadge, server_badge.
  repeat match goal with
         | |- context [(?a <=? ?b)%Z] => destruct (Z.leb_spec a b)
         end;
    repeat split; intros; try discriminate; try reflexivity; try lia.
Qed.

Lemma truthy_non_string v :
  truthy v = true -> is_string v = false ->
  no_match_method v = TypeError "prompt.match is not a function".
Proof. destruct v as [| |b|n|s]; try discriminate; reflexivity. Qed.

(** X19: what the HTTP server answers to a POST on [/api/transform],
    [/api/analyze] or [/api/suggest], from the outcome of [parseBody] on.
    A body that [JSON.parse] refuses is answered with status 500 and the
    error [Invalid JSON]; the body [null] with status 500 and the message
    of the TypeError that reading [body.prompt] raises; in both cases
    nothing else happens.  Any other body whose [prompt] is absent, [null],
    [false], 0, NaN or the empty string is answered with status 400 and the
    error [prompt is required], and nothing else happens; a prompt that is
    [true] or another Number passes the check, and the TypeError the
    library throws is answered with status 500 and the error
    [prompt.match is not a function], the vocabulary tables being left as
    they were; every non-empty string, a blank one included, is answered
    with status 200 (from a store whose tables hold their phrases).  A POST
    on any other path is answered with status 404, whatever the body. *)
Theorem post_status (pathname : string) (parsed : ParsedBody) (st : Store) :
  vocabulary_kept st ->
  (In pathname ["/api/transform"; "/api/analyze"; "/api/suggest"] ->
   match parsed with
   | InvalidJSON =>
       post pathname parsed st = (mkResponse 500 (ErrorPayload "Invalid JSON"), st)
   | JsonNull =>
       post pathname parsed st
       = (mkResponse 500
            (ErrorPayload "Cannot read properties of null (reading 'prompt')"), st)
   | JsonFields body =>
       if negb (truthy (field_prompt body))
       then post pathname parsed st
            = (mkResponse 400 (ErrorPayload "prompt is required"), st)
       else if is_string (field_prompt body)
            then status (fst (post pathname parsed st)) = 200
                 /\ vocabulary_kept (snd (post pathname parsed st))
            else fst (post pathname parsed st)
                 = mkResponse 500 (ErrorPayload "prompt.match is not a function")
                 /\ arrays (snd (post pathname parsed st)) = arrays st
                 /\ chance (snd (post pathname parsed st)) = chance st
   end)
  /\ (~ In pathname ["/api/transform"; "/api/analyze"; "/api/suggest"] ->
      post pathname parsed st = (mkResponse 404 (ErrorPayload "Not found"), st)).
Proof.
  intros Hst. split.
  - intros Hin. destruct parsed as [| |body].
    + cbn [In] in Hin. destruct Hin as [<-|[<-|[<-|[]]]]; reflexivity.
    + cbn [In] in Hin. destruct Hin as [<-|[<-|[<-|[]]]]; reflexivity.
    + destruct (truthy (field_prompt body)) eqn:Ht; cbn [negb].
      * destruct (is_string (field_prompt body)) eqn:Hs.
        -- destruct (field_prompt body) as [| |b|n|text] eqn:Hp; try discriminate.
           destruct (transformPrompt_yields text (options_of body) st Hst)
             as (rt & st1 & Et & Hk1 & _).
           destruct (analyzePrompt_yields text st Hst) as (ra & st2 & Ea & Hk2 & _).
           destruct (getSuggestions_yields text st Hst) as (rs & st3 & Es & Hk3 & _).
           cbn [In] in Hin. destruct Hin as [<-|[<-|[<-|[]]]];
             unfold post, with_body; cbn [String.eqb Ascii.eqb Bool.eqb andb];
             rewrite Hp; cbn [truthy]; cbn [truthy] in Ht; rewrite Ht; cbn [negb].
           ++ rewrite Et. split; [reflexivity | exact Hk1].
           ++ rewrite Ea. split; [reflexivity | exact Hk2].
           ++ rewrite Es. split; [reflexivity | exact Hk3].
        -- destruct (analyzePrompt_throws_frame (field_prompt body) st Hs)
             as (st' & Ea & Harr & Hch).
           pose proof (truthy_non_string _ Ht Hs) as Hm.
           assert (Et : transformPrompt (field_prompt body) (options_of body) st
                        = (Throw (no_match_method (field_prompt body)), st')).
           { unfold transformPrompt, bind. now rewrite Ea. }
           assert (Es : getSuggestions (field_prompt body) st
                        = (Throw (no_match_method (field_prompt body)), st')).
           { unfold getSuggestions, bind. now rewrite Ea. }
           cbn [In] in Hin. destruct Hin as [<-|[<-|[<-|[]]]];
             unfold post, with_body; cbn [String.eqb Ascii.eqb Bool.eqb andb];
             rewrite Ht; cbn [negb].
           ++ rewrite Et, Hm. cbn [fst snd message]. auto.
           ++ rewrite Ea, Hm. cbn [fst snd message]. auto.
           ++ rewrite Es, Hm. cbn [fst snd message]. auto.
      * cbn [In] in Hin. destruct Hin as [<-|[<-|[<-|[]]]];
          unfold post, with_body; cbn [String.eqb Ascii.eqb Bool.eqb andb];
          rewrite Ht; reflexivity.
  - intros Hnot. unfold post.
    destruct (String.eqb_spec pathname "/api/transform") as [->|_];
      [exfalso; apply Hnot; cbn [In]; tauto|].
    destruct (String.eqb_spec pathname "/api/analyze") as [->|_];
      [exfalso; apply Hnot; cbn [In]; tauto|].
    destruct (String.eqb_spec pathname "/api/suggest") as [->|_];
      [exfalso; apply Hnot; cbn [In]; tauto|].
    reflexivity.
Qed.

Lemma post_status_witness :
  vocabulary_kept (fresh [])
  /\ post "/api/analyze" (JsonFields (mkFields (VNumber (js "0")) None None None))
          (fresh [])
     = (mkResponse 400 (ErrorPayload "prompt is required"), fresh [])
  /\ fst (post "/api/transform" (JsonFields (mkFields (VBool true) None None None))
            (fresh []))
     = mkResponse 500 (ErrorPayload "prompt.match is not a function")
  /\ status (fst (post "/api/suggest"
                    (JsonFields (mkFields (VString (js " ")) None None None))
                    (fresh [])))
     = 200
  /\ post "/api/transform" JsonNull (fresh [])
     = (mkResponse 500
          (ErrorPayload "Cannot read properties of null (reading 'prompt')"), fresh []).
Proof.
  split; [apply fresh_vocabulary_kept|]. split; [|split; [|split]].
  - exact (proj1 (post_status "/api/analyze"
                    (JsonFields (mkFields (VNumber (js "0")) None None None))
                    (fresh []) (fresh_vocabulary_kept []))
             (or_intror (or_introl eq_refl))).
  - exact (proj1
             (proj1 (post_status "/api/transform"
                       (JsonFields (mkFields (VBool true) None None None))
                       (fresh []) (fresh_vocabulary_kept []))
                (or_introl eq_refl))).
  - exact (proj1
             (proj1 (post_status "/api/suggest"
                       (JsonFields (mkFields (VString (js " ")) None None None))
                       (fresh []) (fresh_vocabulary_kept []))
                (or_intror (or_intror (or_introl eq_refl))))).
  - exact (proj1 (post_status "/api/transform" JsonNull
                    (fresh []) (fresh_vocabulary_kept []))
             (or_introl eq_refl)).
Defined.

(** X20: what the MCP server answers to a [tools/call] message.  The
    tools [transform], [analyze] and [suggest] do not check their prompt:
    for every string, the empty one included, the call answers with a
    result (from a store whose tables hold their phrases); for a prompt that
    is no string, or absent, or when the message carries no arguments, the
    TypeError of the library comes back as the JSON-RPC error -32000 with
    its message, the vocabulary tables being left as they were.  The tool
    [modifiers] lists the arrays in the order they have at that moment and
    changes nothing; any other tool name is answered with the error -32000
    [Unknown tool: ] followed by the name, and changes nothing. *)
Theorem tools_call_reply (name : string) (args : option Fields) (st : Store) :
  vocabulary_kept st ->
  (In name ["transform"; "analyze"; "suggest"] ->
   if is_string (field_prompt (match args with Some a => a | None => no_fields end))
   then (exists result, fst (tools_call name args st) = ResultReply result)
        /\ vocabulary_kept (snd (tools_call name args st))
   else fst (tools_call name args st)
        = ErrorReply (-32000)
            (message
               (no_match_method
                  (field_prompt (match args with Some a => a | None => no_fields end))))
        /\ arrays (snd (tools_call name args st)) = arrays st
        /\ chance (snd (tools_call name args st)) = chance st)
  /\ (name = "modifiers" ->
      tools_call name args st
      = (ResultReply (ModifiersAnswer (map (fun t => (t, arrays st t)) listed_tables)), st))
  /\ (~ In name ["transform"; "analyze"; "suggest"; "modifiers"] ->
      tools_call name args st = (ErrorReply (-32000) ("Unknown tool: " ++ name), st)).
Proof.
  intros Hst. unfold tools_call.
  generalize (match args with Some a => a | None => no_fields end) as fields.
  intros fields. split; [|split].
  - intros Hin. destruct (is_string (field_prompt fields)) eqn:Hs.
    + destruct (field_prompt fields) as [| |b|n|text] eqn:Hp; try discriminate.
      destruct (transformPrompt_yields text (options_of fields) st Hst)
        as (rt & st1 & Et & Hk1 & _).
      destruct (analyzePrompt_yields text st Hst) as (ra & st2 & Ea & Hk2 & _).
      destruct (getSuggestions_yields text st Hst) as (rs & st3 & Es & Hk3 & _).
      cbn [In] in Hin. destruct Hin as [<-|[<-|[<-|[]]]];
        unfold handleTool; cbn [String.eqb Ascii.eqb Bool.eqb andb]; rewrite Hp.
      * rewrite Et. split; [eexists; reflexivity | exact Hk1].
      * rewrite Ea. split; [eexists; reflexivity | exact Hk2].
      * rewrite Es. split; [eexists; reflexivity | exact Hk3].
    + destruct (analyzePrompt_throws_frame (field_prompt fields) st Hs)
        as (st' & Ea & Harr & Hch).
      assert (Et : transformPrompt (field_prompt fields) (options_of fields) st
                   = (Throw (no_match_method (field_prompt fields)), st')).
      { unfold transformPrompt, bind. now rewrite Ea. }
      assert (Es : getSuggestions (field_prompt fields) st
                   = (Throw (no_match_method (field_prompt fields)), st')).
      { unfold getSuggestions, bind. now rewrite Ea. }
      cbn [In] in Hin. destruct Hin as [<-|[<-|[<-|[]]]];
        unfold handleTool; cbn [String.eqb Ascii.eqb Bool.eqb andb].
      * rewrite Et. cbn [fst snd message_of]. auto.
      * rewrite Ea. cbn [fst snd message_of]. auto.
      * rewrite Es. cbn [fst snd message_of]. auto.
  - intros ->. reflexivity.
  - intros Hnot. unfold handleTool.
    destruct (String.eqb_spec name "transform") as [->|_];
      [exfalso; apply Hnot; cbn [In]; tauto|].
    destruct (String.eqb_spec name "analyze") as [->|_];
      [exfalso; apply Hnot; cbn [In]; tauto|].
    destruct (String.eqb_spec name "suggest") as [->|_];
      [exfalso; apply Hnot; cbn [In]; tauto|].
    destruct (String.eqb_spec name "modifiers") as [->|_];
      [exfalso; apply Hnot; cbn [In]; tauto|].
    reflexivity.
Qed.

Lemma tools_call_reply_witness :
  vocabulary_kept (fresh [])
  /\ fst (tools_call "analyze" None (fresh []))
     = ErrorReply (-32000) "Cannot read properties of undefined (reading 'match')"
  /\ (exists result,
         fst (tools_call "transform" (Some (mkFields (VString []) None None None))
                (fresh []))
         = ResultReply result).
Proof.
  split; [apply fresh_vocabulary_kept|]. split.
  - exact (proj1
             (proj1 (tools_call_reply "analyze" None (fresh []) (fresh_vocabulary_kept []))
                (or_intror (or_introl eq_refl)))).
  - exact (proj1
             (proj1 (tools_call_reply "transform"
                       (Some (mkFields (VString []) None None None)) (fresh [])
                       (fresh_vocabulary_kept []))
                (or_introl eq_refl))).
Defined.

(** ** How far the state of the RegExps reaches *)

Lemma fired_not_global st1 st2 v pattern :
  is_global_rule pattern = false -> fired st1 v pattern = fired st2 v pattern.
Proof.
  unfold is_global_rule, fired, run_matcher, test_rule, lift.
  destruct (Pattern.matcher pattern) as [R|d]; [|reflexivity].
  intros Hg. unfold regexp_test. rewrite Hg.
  now destruct (search (ignoreCase R) (source R) None (ToString v)).
Qed.

Lemma fired_same patterns st1 st2 v :
  (forall id, In id (map Pattern.id (filter is_global_rule patterns)) ->
              lastIndex st1 id = lastIndex st2 id) ->
  forall pattern, In pattern patterns -> fired st1 v pattern = fired st2 v pattern.
Proof.
  intros H p Hp. destruct (is_global_rule p) eqn:Hg.
  - apply fired_lastIndex. apply H. apply in_map. apply filter_In. auto.
  - now apply fired_not_global.
Qed.

Lemma analysis_by_fields (r1 r2 : AnalysisResult) :
  score r1 = score r2 -> aiScore r1 = aiScore r2 -> realismScore r1 = realismScore r2 ->
  issues r1 = issues r2 -> issueCount r1 = issueCount r2 -> r1 = r2.
Proof.
  destruct r1 as [a1 b1 c1 d1 e1], r2 as [a2 b2 c2 d2 e2].
  cbn [score aiScore realismScore issues issueCount].
  intros; subst; reflexivity.
Qed.

Lemma analyzePrompt_same v st1 st2 :
  (forall id, In id global_rule_ids -> lastIndex st1 id = lastIndex st2 id) ->
  fst (analyzePrompt v st1) = fst (analyzePrompt v st2).
Proof.
  intros H. destruct (is_string v) eqn:Hv.
  - destruct v as [| |b|n|s]; try discriminate.
    destruct (analyzePrompt_string s st1)
      as (r1 & st1' & E1 & Hi1 & Hc1 & Ha1 & Hr1 & Hs1 & _).
    destruct (analyzePrompt_string s st2)
      as (r2 & st2' & E2 & Hi2 & Hc2 & Ha2 & Hr2 & Hs2 & _).
    rewrite E1, E2. cbn [fst]. f_equal.
    assert (Hf : filter (fired st1 (VString s)) AI_PRONE_PATTERNS
                 = filter (fired st2 (VString s)) AI_PRONE_PATTERNS).
    { apply filter_ext_in. intros p Hp.
      exact (fired_same AI_PRONE_PATTERNS st1 st2 (VString s) H p Hp). }
    rewrite Hf in Hi1, Ha1.
    assert (Hi : issues r1 = issues r2) by congruence.
    assert (Ha : aiScore r1 = aiScore r2) by congruence.
    assert (Hr : realismScore r1 = realismScore r2) by congruence.
    apply analysis_by_fields; try assumption.
    + rewrite Hs1, Hs2, Ha, Hr. reflexivity.
    + rewrite Hc1, Hc2, Hi. reflexivity.
  - destruct (analyzePrompt_throws_frame v st1 Hv) as (s1 & E1 & _).
    destruct (analyzePrompt_throws_frame v st2 Hv) as (s2 & E2 & _).
    now rewrite E1, E2.
Qed.

Lemma run_matcher_agree pattern v st1 st2 :
  (is_global_rule pattern = true ->
   lastIndex st1 (Pattern.id pattern) = lastIndex st2 (Pattern.id pattern)) ->
  fst (run_matcher pattern v st1) = fst (run_matcher pattern v st2).
Proof.
  unfold is_global_rule, run_matcher, test_rule, lift.
  destruct (Pattern.matcher pattern) as [R|d]; [|reflexivity].
  intros H. destruct (global R) eqn:Hg.
  - rewrite (H eq_refl). now destruct (regexp_test R _ _).
  - unfold regexp_test. rewrite Hg.
    now destruct (search (ignoreCase R) (source R) None (ToString v)).
Qed.

Lemma check_patterns_agree patterns v :
  NoDup (map Pattern.id patterns) ->
  forall acc ai st1 st2,
    (forall p, In p patterns -> is_global_rule p = true ->
               lastIndex st1 (Pattern.id p) = lastIndex st2 (Pattern.id p)) ->
    fst (check_patterns patterns v acc ai st1) = fst (check_patterns patterns v acc ai st2)
    /\ forall p, In p patterns -> is_global_rule p = true ->
                 lastIndex (snd (check_patterns patterns v acc ai st1)) (Pattern.id p)
                 = lastIndex (snd (check_patterns patterns v acc ai st2)) (Pattern.id p).
Proof.
  induction patterns as [|q qs IH]; intros Hnd acc ai st1 st2 H;
    [split; [reflexivity | intros p []]|].
  inversion Hnd as [|? ? Hnotin Hnd']; subst.
  cbn [check_patterns]. unfold bind.
  pose proof (run_matcher_agree q v st1 st2 (H q (or_introl eq_refl))) as Hfst.
  destruct (run_matcher_frame q v st1) as (_ & _ & Hl1).
  destruct (run_matcher_frame q v st2) as (_ & _ & Hl2).
  pose proof (run_matcher_not_global q v st1) as Hn1.
  pose proof (run_matcher_not_global q v st2) as Hn2.
  pose proof (fun E => run_matcher_lastIndex_same q v st1 st2 E) as Hsame.
  destruct (run_matcher q v st1) as [c1 s1]. destruct (run_matcher q v st2) as [c2 s2].
  cbn [fst snd] in *. subst c2.
  assert (Hhead : is_global_rule q = true ->
                  lastIndex s1 (Pattern.id q) = lastIndex s2 (Pattern.id q)).
  { intros Hg. apply Hsame. apply H; [now left | exact Hg]. }
  assert (Hrest : forall p, In p qs -> is_global_rule p = true ->
                            lastIndex s1 (Pattern.id p) = lastIndex s2 (Pattern.id p)).
  { intros p Hp Hg.
    assert (Hne : Pattern.id p <> Pattern.id q).
    { intros E. apply Hnotin. rewrite <- E. now apply in_map. }
    rewrite (Hl1 _ Hne), (Hl2 _ Hne). apply H; [now right | exact Hg]. }
  destruct c1 as [b|e].
  - assert (Hnext : forall acc' ai',
               fst (check_patterns qs v acc' ai' s1) = fst (check_patterns qs v acc' ai' s2)
               /\ forall p, In p (q :: qs) -> is_global_rule p = true ->
                            lastIndex (snd (check_patterns qs v acc' ai' s1)) (Pattern.id p)
                            = lastIndex (snd (check_patterns qs v acc' ai' s2)) (Pattern.id p)).
    { intros acc' ai'. destruct (IH Hnd' acc' ai' s1 s2 Hrest) as [Hf Hl].
      split; [exact Hf|]. intros p [<-|Hp] Hg; [|now apply Hl].
      destruct (check_patterns_frame qs v acc' ai' s1) as (_ & _ & Hk1).
      destruct (check_patterns_frame qs v acc' ai' s2) as (_ & _ & Hk2).
      assert (Hout : ~ In (Pattern.id q) (map Pattern.id (filter is_global_rule qs))).
      { intros Hi. apply Hnotin. apply in_map_iff in Hi. destruct Hi as (x & Ex & Hx).
        apply filter_In in Hx. rewrite <- Ex. apply in_map. tauto. }
      rewrite (Hk1 _ Hout), (Hk2 _ Hout). now apply Hhead. }
    destruct b; apply Hnext.
  - cbn [fst snd]. split; [reflexivity|].
    intros p [<-|Hp] Hg; [now apply Hhead | now apply Hrest].
Qed.

(** X21: of the state of the program, [analyzePrompt] reads the
    [lastIndex] of the eight rules with the [g] flag and nothing else: from
    two states that agree on these, the same value gets the same answer
    (the same analysis, or the same TypeError), and the two states still
    agree on them afterwards, so that every further call answers the same
    as well. *)
Theorem analyzePrompt_agreeing_states (v : jsval) (st1 st2 : Store) :
  (forall id, In id global_rule_ids -> lastIndex st1 id = lastIndex st2 id) ->
  fst (analyzePrompt v st1) = fst (analyzePrompt v st2)
  /\ forall id, In id global_rule_ids ->
                lastIndex (snd (analyzePrompt v st1)) id
                = lastIndex (snd (analyzePrompt v st2)) id.
Proof.
  intros H. split; [now apply analyzePrompt_same|].
  assert (Hsnd : forall st, snd (analyzePrompt v st)
                            = snd (check_patterns AI_PRONE_PATTERNS v [] 0%Z st)).
  { intros st. unfold analyzePrompt, bind.
    destruct (check_patterns AI_PRONE_PATTERNS v [] 0%Z st) as [[[iss ai]|e] s1];
      reflexivity. }
  rewrite !Hsnd.
  assert (Hrules : forall p, In p AI_PRONE_PATTERNS -> is_global_rule p = true ->
                             lastIndex st1 (Pattern.id p) = lastIndex st2 (Pattern.id p)).
  { intros p Hp Hg. apply H. unfold global_rule_ids. apply in_map. apply filter_In. auto. }
  destruct (check_patterns_agree AI_PRONE_PATTERNS v rule_ids_distinct [] 0%Z st1 st2 Hrules)
    as [_ Hl].
  intros id Hid. unfold global_rule_ids in Hid.
  apply in_map_iff in Hid. destruct Hid as (p & <- & Hp).
  apply filter_In in Hp. destruct Hp as [Hin Hg]. now apply Hl.
Qed.

Lemma analyzePrompt_agreeing_states_witness :
  (forall id, In id global_rule_ids ->
              lastIndex (store_after "a cat") id = lastIndex (fresh [3; 1]) id)
  /\ fst (analyzePrompt (VString (js "beautiful")) (store_after "a cat"))
     = fst (analyzePrompt (VString (js "beautiful")) (fresh [3; 1]))
  /\ forall id, In id global_rule_ids ->
                lastIndex (snd (analyzePrompt (VString (js "beautiful"))
                                  (store_after "a cat"))) id
                = lastIndex (snd (analyzePrompt (VString (js "beautiful"))
                                    (fresh [3; 1]))) id.
Proof.
  assert (H : forall id, In id global_rule_ids ->
                         lastIndex (store_after "a cat") id = lastIndex (fresh [3; 1]) id).
  { intros id Hid. vm_compute in Hid.
    repeat (destruct Hid as [<-|Hid]; [vm_compute; reflexivity|]). destruct Hid. }
  split; [exact H|].
  exact (analyzePrompt_agreeing_states (VString (js "beautiful"))
           (store_after "a cat") (fresh [3; 1]) H).
Defined.

Lemma lastIndex_after_miss s st pattern :
  In pattern AI_PRONE_PATTERNS -> is_global_rule pattern = true ->
  fired st (VString s) pattern = false ->
  lastIndex (snd (analyzePrompt (VString s) st)) (Pattern.id pattern) = 0.
Proof.
  intros Hin Hg Hf.
  assert (Hst' : snd (analyzePrompt (VString s) st)
                 = snd (check_patterns AI_PRONE_PATTERNS (VString s) [] 0%Z st)).
  { unfold analyzePrompt, bind.
    destruct (check_patterns AI_PRONE_PATTERNS (VString s) [] 0%Z st)
      as [[[iss ai]|e] st1]; reflexivity. }
  rewrite Hst', (check_patterns_lastIndex AI_PRONE_PATTERNS s rules_string_safe
                   rule_ids_distinct [] 0%Z st pattern Hin).
  clear Hst'. revert Hf.
  unfold fired, run_matcher, test_rule, lift, is_global_rule in *.
  destruct (Pattern.matcher pattern) as [R|d]; [|discriminate].
  cbn [ToString].
  destruct (regexp_test_lastIndex R (lastIndex st (Pattern.id pattern)) s Hg) as [_ Hzero].
  destruct (regexp_test R (lastIndex st (Pattern.id pattern)) s) as [b i].
  rewrite Hg. cbn [fst snd lastIndex set_lastIndex] in *. rewrite String.eqb_refl.
  exact Hzero.
Qed.

Lemma global_rules_miss_empty st pattern :
  In pattern AI_PRONE_PATTERNS -> is_global_rule pattern = true ->
  fired st (VString []) pattern = false.
Proof.
  intros Hin Hg.
  rewrite (proj1 (Forall_forall _ _) fired_empty_any_store pattern Hin st).
  assert (H : Forall (fun p => is_global_rule p = true ->
                              fired (fresh []) (VString []) p = false)
                     AI_PRONE_PATTERNS).
  { unfold AI_PRONE_PATTERNS.
    repeat (apply Forall_cons;
            [intros Hg'; first [discriminate Hg' | vm_compute; reflexivity]|]).
    apply Forall_nil. }
  exact (proj1 (Forall_forall _ _) H pattern Hin Hg).
Qed.

(** X22: a call that reports no issue of a rule with the [g] flag puts
    the program back in order: after it every call, whatever it is handed,
    answers as it does in a freshly loaded program.  A call on the empty
    string is such a call, from every state. *)
Theorem analyzePrompt_clean_call_resets (s : jsstring) (st : Store) :
  (exists r st',
      analyzePrompt (VString s) st = (Normal r, st')
      /\ ((forall id, In id global_rule_ids -> ~ In id (map Issue.id (issues r))) ->
          forall v chance0,
            fst (analyzePrompt v st') = fst (analyzePrompt v (fresh chance0))))
  /\ forall v chance0,
       fst (analyzePrompt v (snd (analyzePrompt (VString []) st)))
       = fst (analyzePrompt v (fresh chance0)).
Proof.
  split.
  - destruct (analyzePrompt_string s st) as (r & st' & Heq & His & _).
    exists r, st'. split; [exact Heq|].
    intros Hclean v chance0. apply analyzePrompt_same.
    intros id Hid. change (lastIndex (fresh chance0) id) with 0.
    pose proof Hid as Hid'. unfold global_rule_ids in Hid'.
    apply in_map_iff in Hid'. destruct Hid' as (p & <- & Hp).
    apply filter_In in Hp. destruct Hp as [Hin Hg].
    replace st' with (snd (analyzePrompt (VString s) st)) by now rewrite Heq.
    apply lastIndex_after_miss; [exact Hin | exact Hg|].
    destruct (fired st (VString s) p) eqn:Ef; [exfalso | reflexivity].
    apply (Hclean _ Hid). rewrite His. now apply issue_id_of_kept.
  - intros v chance0. apply analyzePrompt_same.
    intros id Hid. change (lastIndex (fresh chance0) id) with 0.
    unfold global_rule_ids in Hid.
    apply in_map_iff in Hid. destruct Hid as (p & <- & Hp).
    apply filter_In in Hp. destruct Hp as [Hin Hg].
    apply lastIndex_after_miss; [exact Hin | exact Hg|].
    now apply global_rules_miss_empty.
Qed.

(** ** The matcher finds every match *)

Lemma star_match_fallback (A : Type) f prev s (k : option N -> jsstring -> option A) :
  k prev s <> None -> star_match f prev s k <> None.
Proof.
  intros Hk. destruct s as [|c s]; [exact Hk|]. cbn [star_match].
  destruct (f c); [|exact Hk].
  destruct (star_match f (Some c) s k); [discriminate | exact Hk].
Qed.

Lemma star_match_complete (A : Type) f w :
  forall prev rest (k : option N -> jsstring -> option A),
    forallb f w = true -> k (last_of prev w) rest <> None ->
    star_match f prev (w ++ rest) k <> None.
Proof.
  induction w as [|c w IH]; intros prev rest k Hw Hk.
  - now apply star_match_fallback.
  - cbn [forallb] in Hw. apply andb_true_iff in Hw. destruct Hw as [Hc Hw].
    cbn [app star_match]. rewrite Hc.
    pose proof (IH (Some c) rest k Hw Hk) as H.
    destruct (star_match f (Some c) (w ++ rest) k); [discriminate | contradiction].
Qed.

Lemma rmatch_complete ic r :
  lookahead_free r = true ->
  forall (A : Type) prev w rest (k : option N -> jsstring -> option A),
    Matches ic r prev w rest -> k (last_of prev w) rest <> None ->
    rmatch ic r prev (w ++ rest) k <> None.
Proof.
  induction r as [|p|f|a IHa b IHb|a IHa b IHb|a IHa|f| | | |a IHa];
    intros Hfree A prev w rest k Hm Hk; cbn [lookahead_free] in Hfree;
    cbn [Matches] in Hm; cbn [rmatch].
  - subst w. exact Hk.
  - destruct Hm as (c & -> & Hc). cbn [app]. rewrite Hc. exact Hk.
  - destruct Hm as (c & -> & Hc). cbn [app]. rewrite Hc. exact Hk.
  - apply andb_true_iff in Hfree. destruct Hfree as [Ha Hb].
    destruct Hm as (w1 & w2 & -> & H1 & H2). rewrite <- app_assoc.
    apply (IHa Ha _ prev w1 (w2 ++ rest)); [exact H1|].
    apply (IHb Hb _ (last_of prev w1) w2 rest); [exact H2|].
    now rewrite <- last_of_app.
  - apply andb_true_iff in Hfree. destruct Hfree as [Ha Hb].
    destruct Hm as [H1|H2].
    + pose proof (IHa Ha _ prev w rest k H1 Hk) as H.
      destruct (rmatch ic a prev (w ++ rest) k); [discriminate | contradiction].
    + destruct (rmatch ic a prev (w ++ rest) k); [discriminate|].
      exact (IHb Hb _ prev w rest k H2 Hk).
  - destruct Hm as [H1| ->].
    + pose proof (IHa Hfree _ prev w rest k H1 Hk) as H.
      destruct (rmatch ic a prev (w ++ rest) k); [discriminate | contradiction].
    + destruct (rmatch ic a prev ([] ++ rest) k); [discriminate | exact Hk].
  - now apply star_match_complete.
  - destruct Hm as [-> Hx]. cbn [app]. rewrite Hx. exact Hk.
  - destruct Hm as [-> ->]. exact Hk.
  - destruct Hm as [-> ->]. exact Hk.
  - discriminate.
Qed.

Lemma match_here_complete ic r prev w rest :
  lookahead_free r = true -> Matches ic r prev w rest ->
  match_here ic r prev (w ++ rest) <> None.
Proof.
  intros Hfree Hm. unfold match_here.
  apply (rmatch_complete ic r Hfree); [exact Hm | discriminate].
Qed.

Lemma search_here ic r prev s :
  match_here ic r prev s <> None -> search ic r prev s <> None.
Proof.
  intros H. destruct s as [|c s]; cbn [search];
    destruct (match_here ic r prev _); try discriminate; contradiction.
Qed.

Lemma search_sound ic r :
  forall s prev i len,
    search ic r prev s = Some (i, len) ->
    i <= length s
    /\ match_here ic r (last_of prev (firstn i s)) (skipn i s) = Some len.
Proof.
  induction s as [|c s IH]; intros prev i len H; cbn [search] in H.
  - destruct (match_here ic r prev []) as [l|] eqn:E; [|discriminate].
    inversion H; subst. split; [cbn [length]; lia | exact E].
  - destruct (match_here ic r prev (c :: s)) as [l|] eqn:E.
    + inversion H; subst. split; [lia | exact E].
    + destruct (search ic r (Some c) s) as [[j l]|] eqn:E'; [|discriminate].
      inversion H; subst. destruct (IH _ _ _ E') as [Hj Hm].
      split; [cbn [length]; lia | exact Hm].
Qed.

Lemma Matches_alts_elim ic rs :
  rs <> [] ->
  forall prev w rest,
    Matches ic (alts rs) prev w rest -> exists r, In r rs /\ Matches ic r prev w rest.
Proof.
  induction rs as [|r rs IH]; intros Hne prev w rest H; [congruence|].
  destruct rs as [|r' rs].
  - exists r. split; [now left | exact H].
  - change (alts (r :: r' :: rs)) with (Alt r (alts (r' :: rs))) in H.
    cbn [Matches] in H. destruct H as [H|H].
    + exists r. split; [now left | exact H].
    + destruct (IH ltac:(discriminate) _ _ _ H) as (x & Hx & Hm).
      exists x. split; [now right | exact Hm].
Qed.

Lemma Matches_alts_intro ic rs r :
  In r rs ->
  forall prev w rest, Matches ic r prev w rest -> Matches ic (alts rs) prev w rest.
Proof.
  induction rs as [|r0 rs IH]; intros Hin prev w rest H; [destruct Hin|].
  destruct rs as [|r' rs].
  - destruct Hin as [->|[]]. exact H.
  - change (alts (r0 :: r' :: rs)) with (Alt r0 (alts (r' :: rs))).
    cbn [Matches]. destruct Hin as [->|Hin]; [now left|].
    right. now apply IH.
Qed.

Lemma words_included ic ws ws' prev w rest :
  ws <> [] -> incl ws ws' ->
  Matches ic (words ws) prev w rest -> Matches ic (words ws') prev w rest.
Proof.
  intros Hne Hincl H. unfold words in *.
  apply Matches_alts_elim in H; [|now destruct ws].
  destruct H as (r & Hr & Hm). apply in_map_iff in Hr. destruct Hr as (x & <- & Hx).
  apply (Matches_alts_intro ic (map lit ws') (lit x)); [|exact Hm].
  apply in_map. now apply Hincl.
Qed.

Lemma article_ends_outside_a_word ic prev w rest :
  Matches ic (words ["a "; "an "]) prev w rest ->
  w <> [] /\ word_before (last_of prev w) = false.
Proof.
  intros H. unfold words in H. cbn [map alts] in H. cbn [Matches] in H.
  destruct H as [H|H]; unfold lit in H; cbv [js] in H;
    cbn [list_ascii_of_string map lit_chars Matches] in H.
  - destruct H as (w1 & w2 & -> & (c1 & -> & _) & (c2 & -> & Hc)).
    split; [discriminate|]. cbn [app]. unfold last_of. cbn [fold_left word_before].
    now rewrite (char_eqb_word _ _ _ Hc).
  - destruct H as (w1 & w2 & -> & (c1 & -> & _) & (w3 & w4 & -> & (c2 & -> & _)
                                                     & (c3 & -> & Hc))).
    split; [discriminate|]. cbn [app]. unfold last_of. cbn [fold_left word_before].
    now rewrite (char_eqb_word _ _ _ Hc).
Qed.

(** ** A generic subject is a human subject *)

Lemma last_of_firstn_None i (s : jsstring) :
  i <= length s -> last_of None (firstn i s) = None -> i = 0.
Proof.
  destruct i as [|i]; [reflexivity|]. destruct s as [|c s]; [cbn [length]; lia|].
  intros _ H. cbn [firstn] in H.
  change (last_of None (c :: firstn i s)) with (last_of (Some c) (firstn i s)) in H.
  destruct (last_of_Some c (firstn i s)) as (p & Hp). congruence.
Qed.

Lemma generic_subject_is_human st s pattern :
  In pattern AI_PRONE_PATTERNS -> Pattern.id pattern = "generic-subject" ->
  fired st (VString s) pattern = true -> hasHumanSubject s = true.
Proof.
  intros Hin Hid Hf.
  assert (Hp : nth_error AI_PRONE_PATTERNS 0 = Some pattern).
  { unfold AI_PRONE_PATTERNS in Hin |- *. cbn [In] in Hin. cbn [nth_error].
    destruct Hin as [<-|Hin]; [reflexivity|]. exfalso.
    repeat (destruct Hin as [<-|Hin]; [discriminate Hid|]). exact Hin. }
  unfold AI_PRONE_PATTERNS in Hp. cbn [nth_error] in Hp. inversion Hp; subst pattern.
  clear Hp Hin Hid.
  unfold fired, run_matcher, test_rule in Hf.
  cbn [Pattern.matcher Pattern.id ToString] in Hf.
  unfold regexp_test, re_i in Hf. cbn [global ignoreCase source] in Hf.
  match type of Hf with
  | context [search true ?r None s] =>
      destruct (search true r None s) as [[i len]|] eqn:Es; [|discriminate Hf]
  end.
  clear Hf. apply search_sound in Es. destruct Es as [Hi Hm].
  apply match_here_sound in Hm. destruct Hm as (w & rest & Hs & Hm & _).
  cbn [Matches] in Hm.
  destruct Hm as (w0 & wa & -> & (-> & Hstart) & w1 & wb & -> & Hart
                  & w2 & wc & -> & Hnoun & w3 & w4 & -> & (-> & Hbnd) & ->).
  apply last_of_firstn_None in Hstart; [|exact Hi]. subst i.
  cbn [firstn skipn last_of fold_left app] in *. rewrite !app_nil_r in *.
  change (fold_left (fun (_ : option N) (c : N) => Some c) w1 None)
    with (last_of None w1) in *.
  subst s.
  assert (Hbefore : word_before (last_of None w1) = false).
  { destruct Hart as [Hart| ->]; [|reflexivity].
    exact (proj2 (article_ends_outside_a_word _ _ _ _ Hart)). }
  assert (Hfirst : exists c w', w2 = c :: w' /\ is_word c = true).
  { eapply first_word_sound; [|exact Hnoun]. reflexivity. }
  destruct Hfirst as (c & w' & Hw2 & Hc).
  assert (Hhuman : Matches true
                     (bounded (words ["woman"; "man"; "person"; "girl"; "boy"; "child";
                                      "people"; "portrait"; "face"; "model"; "figure"]))
                     (last_of None w1) w2 rest).
  { unfold bounded. cbn [Matches].
    exists [], w2. split; [reflexivity|]. split.
    { split; [reflexivity|]. rewrite Hbefore, Hw2. cbn [app word_after]. now rewrite Hc. }
    exists w2, []. split; [now rewrite app_nil_r|]. split.
    - cbn [app last_of fold_left].
      eapply words_included; [| |exact Hnoun]; [discriminate|].
      intros x Hx. cbn [In] in Hx |- *. tauto.
    - split; [reflexivity|]. exact Hbnd. }
  apply match_here_complete in Hhuman; [|reflexivity].
  apply search_here in Hhuman.
  assert (Hsearch : search true
                      (bounded (words ["woman"; "man"; "person"; "girl"; "boy"; "child";
                                       "people"; "portrait"; "face"; "model"; "figure"]))
                      None (w1 ++ w2 ++ rest) <> None).
  { apply (search_resumed true _ (length w1) (w1 ++ w2 ++ rest) None).
    - rewrite length_app. lia.
    - rewrite firstn_app, firstn_all, Nat.sub_diag, app_nil_r.
      rewrite skipn_app, skipn_all, Nat.sub_diag. exact Hhuman. }
  rewrite <- app_assoc.
  unfold hasHumanSubject, regexp_test, re_i. cbn [global ignoreCase source].
  match goal with
  | |- context [search true ?r None ?t] => destruct (search true r None t)
  end; [reflexivity | contradiction].
Qed.

(** X23: the scorer and the transformer agree on subjects.  Whenever
    the analysis of a prompt reports the rule [generic-subject],
    [hasHumanSubject] holds of the prompt, so [transformPrompt] ends its
    modifiers with two different phrases of [HUMAN_DETAILS]. *)
Theorem generic_subject_gets_human_details (text : jsstring) (options : Options)
    (st : Store) :
  vocabulary_kept st ->
  exists analysis st1 r st',
    analyzePrompt (VString text) st = (Normal analysis, st1)
    /\ transformPrompt (VString text) options st = (Normal r, st')
    /\ (In "generic-subject" (map Issue.id (issues analysis)) ->
        hasHumanSubject text = true
        /\ exists front first second,
             modifiersAdded r = front ++ [first; second]
             /\ first <> second
             /\ In first (initial_arrays HUMAN_DETAILS)
             /\ In second (initial_arrays HUMAN_DETAILS)).
Proof.
  intros Hst.
  destruct (transformPrompt_trace text options st Hst)
    as (analysis & st1 & r & st2 & newAnalysis & st' & Heq & Hr & _ & _ & _ & _ & _ & _
        & _ & base & technical & imps & comp & human & _ & _ & _ & _
        & (Hnd & Hin & Hlen) & Hmods & _).
  exists analysis, st1, r, st'. split; [exact Heq|]. split; [exact Hr|].
  intros Hissue.
  assert (Hh : hasHumanSubject text = true).
  { destruct (analyzePrompt_string text st) as (a & s1 & Ea & His & _).
    rewrite Heq in Ea. inversion Ea; subst a s1.
    rewrite His, map_map in Hissue. apply in_map_iff in Hissue.
    destruct Hissue as (p & Hid & Hp). apply filter_In in Hp. destruct Hp as [Hp Hf].
    exact (generic_subject_is_human st text p Hp Hid Hf). }
  split; [exact Hh|]. rewrite Hh in Hlen.
  destruct human as [|a [|b [|c rest]]]; try discriminate.
  exists (technical ++ imps ++ comp), a, b.
  split; [now rewrite Hmods, <- !app_assoc|].
  split.
  - inversion Hnd as [|? ? Hna _]; subst. intros ->. apply Hna. now left.
  - split; apply Hin; cbn [In]; tauto.
Qed.

Lemma generic_subject_gets_human_details_witness :
  vocabulary_kept (fresh [1])
  /\ exists analysis st1 r st',
       analyzePrompt (VString (js "a girl on a swing")) (fresh [1]) = (Normal analysis, st1)
       /\ transformPrompt (VString (js "a girl on a swing")) no_options (fresh [1])
          = (Normal r, st')
       /\ (In "generic-subject" (map Issue.id (issues analysis)) ->
           hasHumanSubject (js "a girl on a swing") = true
           /\ exists front first second,
                modifiersAdded r = front ++ [first; second]
                /\ first <> second
                /\ In first (initial_arrays HUMAN_DETAILS)
                /\ In second (initial_arrays HUMAN_DETAILS)).
Proof.
  split; [apply fresh_vocabulary_kept|].
  exact (generic_subject_gets_human_details (js "a girl on a swing") no_options (fresh [1])
           (fresh_vocabulary_kept [1])).
Defined.

(** ** What the scorer reports, the clean-up removes *)

Lemma search_none_segments ic r s :
  forall prev, search ic r prev s = None -> segments ic r prev s 0 = map Keep s.
Proof.
  induction s as [|c s IH]; intros prev H; cbn [search] in H; cbn [segments].
  - destruct (match_here ic r prev []); [discriminate | reflexivity].
  - destruct (match_here ic r prev (c :: s)); [discriminate|].
    destruct (search ic r (Some c) s) as [[j l]|] eqn:E; [discriminate|].
    cbn [map]. now rewrite IH.
Qed.

Lemma search_transfer ic r1 r2 s :
  (forall prev t, match_here ic r1 prev t <> None -> match_here ic r2 prev t <> None) ->
  forall prev, search ic r1 prev s <> None -> search ic r2 prev s <> None.
Proof.
  intros H. induction s as [|c s IH]; intros prev Hs; cbn [search] in *.
  - destruct (match_here ic r1 prev []) eqn:E1; [|contradiction].
    assert (H2 : match_here ic r2 prev [] <> None) by (apply H; congruence).
    destruct (match_here ic r2 prev []); [discriminate | contradiction].
  - destruct (match_here ic r1 prev (c :: s)) eqn:E1.
    + assert (H2 : match_here ic r2 prev (c :: s) <> None) by (apply H; congruence).
      destruct (match_here ic r2 prev (c :: s)); [discriminate | contradiction].
    + destruct (match_here ic r2 prev (c :: s)); [discriminate|].
      assert (H1 : search ic r1 (Some c) s <> None).
      { destruct (search ic r1 (Some c) s) as [[j l]|]; [discriminate | contradiction]. }
      apply IH in H1.
      destruct (search ic r2 (Some c) s) as [[j l]|]; [discriminate | contradiction].
Qed.

(** The pattern of a rule and the pattern of its removal match at the
    same places. *)
Lemma rule_to_removal body prev t :
  lookahead_free body = true ->
  match_here true (bounded body) prev t <> None ->
  match_here true (source (removal body)) prev t <> None.
Proof.
  intros Hfree H.
  destruct (match_here true (bounded body) prev t) as [len|] eqn:E; [clear H|contradiction].
  apply match_here_sound in E. destruct E as (w & rest & -> & Hm & _).
  unfold bounded in Hm. cbn [Matches] in Hm.
  destruct Hm as (w1 & w2 & -> & (-> & Hb1) & wb & w3 & -> & Hbody & (-> & Hb2)).
  apply match_here_complete.
  - unfold removal, re_gi. cbn [source lookahead_free]. now rewrite Hfree.
  - unfold removal, re_gi. cbn [source Matches].
    exists [], (wb ++ []). split; [reflexivity|]. split; [split; [reflexivity | exact Hb1]|].
    exists wb, []. split; [reflexivity|]. split; [exact Hbody|].
    exists [], []. split; [reflexivity|]. split; [split; [reflexivity | exact Hb2]|].
    exists [], []. split; [reflexivity|]. split; [now right | reflexivity].
Qed.

Lemma removal_to_rule body prev t :
  lookahead_free body = true ->
  match_here true (source (removal body)) prev t <> None ->
  match_here true (bounded body) prev t <> None.
Proof.
  intros Hfree H.
  destruct (match_here true (source (removal body)) prev t) as [len|] eqn:E;
    [clear H|contradiction].
  apply match_here_sound in E. destruct E as (w & rest & -> & Hm & _).
  unfold removal, re_gi in Hm. cbn [source Matches] in Hm.
  destruct Hm as (w1 & w2 & -> & (-> & Hb1) & wb & w3 & -> & Hbody
                  & w4 & w5 & -> & (-> & Hb2) & Htail).
  cbn [app] in *.
  replace ((wb ++ w5) ++ rest) with (wb ++ (w5 ++ rest)) by now rewrite app_assoc.
  apply match_here_complete.
  - unfold bounded. cbn [lookahead_free]. now rewrite Hfree.
  - unfold bounded. cbn [Matches].
    exists [], wb. split; [reflexivity|]. split.
    { split; [reflexivity|]. cbn [app]. now rewrite <- app_assoc in Hb1. }
    exists wb, []. split; [now rewrite app_nil_r|]. split.
    + cbn [app last_of fold_left]. cbn [last_of fold_left] in Hbody. exact Hbody.
    + split; [reflexivity|]. exact Hb2.
Qed.

Lemma removable_rule pattern :
  In pattern AI_PRONE_PATTERNS -> In (Pattern.id pattern) removable_rule_ids ->
  exists body,
    In body removable_words /\ Pattern.matcher pattern = Regex (re_gi (bounded body)).
Proof.
  intros Hin Hid. unfold AI_PRONE_PATTERNS in Hin. cbn [In] in Hin.
  unfold removable_rule_ids in Hid. unfold removable_words.
  repeat (destruct Hin as [<-|Hin];
          [cbn [Pattern.id In] in Hid; cbn [Pattern.matcher];
           first [ exfalso; repeat (destruct Hid as [Hid|Hid]; [discriminate Hid|]);
                   exact Hid
                 | eexists; split; [|reflexivity]; cbn [In]; tauto ]|]).
  destruct Hin.
Qed.

Lemma removable_words_shape body :
  In body removable_words ->
  lookahead_free body = true /\ first_word body = true /\ last_word body = true.
Proof.
  unfold removable_words. cbn [In].
  intros [<-|[<-|[<-|[<-|[<-|[]]]]]]; repeat split; reflexivity.
Qed.

Lemma fired_rule_search st s pattern body :
  Pattern.matcher pattern = Regex (re_gi (bounded body)) ->
  fired st (VString s) pattern = true ->
  search true (bounded body) None s <> None.
Proof.
  intros Hm Hf. apply (fired_from_fresh st []) in Hf. revert Hf.
  unfold fired, run_matcher, test_rule. rewrite Hm.
  change (lastIndex (fresh []) (Pattern.id pattern)) with 0.
  unfold regexp_test, re_gi. cbn [global ignoreCase source ToString].
  change (Nat.ltb (length s) 0) with false. cbn [prev_at skipn].
  destruct (search true (bounded body) None s) as [[i len]|]; [discriminate|].
  cbn [fst]. discriminate.
Qed.

Lemma miss_rule_search chance0 s pattern body :
  Pattern.matcher pattern = Regex (re_gi (bounded body)) ->
  fired (fresh chance0) (VString s) pattern = false ->
  search true (bounded body) None s = None.
Proof.
  intros Hm. unfold fired, run_matcher, test_rule. rewrite Hm.
  change (lastIndex (fresh chance0) (Pattern.id pattern)) with 0.
  unfold regexp_test, re_gi. cbn [global ignoreCase source ToString].
  change (Nat.ltb (length s) 0) with false. cbn [prev_at skipn].
  destruct (search true (bounded body) None s) as [[i len]|]; [|reflexivity].
  cbn [fst]. discriminate.
Qed.

(** ** Replacements that do not lengthen *)

Lemma match_here_length ic r prev t len :
  match_here ic r prev t = Some len -> len <= length t.
Proof.
  intros H. apply match_here_sound in H. destruct H as (w & rest & -> & _ & -> & _).
  rewrite length_app. lia.
Qed.

Lemma render_length ic r text :
  (forall prev t len, match_here ic r prev t = Some len -> length text <= len) ->
  forall s prev skip,
    skip <= length s ->
    length (render text (segments ic r prev s skip)) + skip <= length s.
Proof.
  intros Hlen. induction s as [|c s IH]; intros prev skip Hskip.
  - cbn [length] in Hskip. assert (skip = 0) by lia. subst skip. cbn [segments].
    destruct (match_here ic r prev []) as [len|] eqn:E; [|cbn [render length]; lia].
    pose proof (Hlen _ _ _ E) as Ht. pose proof (match_here_length _ _ _ _ _ E) as Hl.
    cbn [length] in Hl. cbn [render]. rewrite length_app. cbn [length]. lia.
  - destruct skip as [|n]; cbn [segments].
    + destruct (match_here ic r prev (c :: s)) as [len|] eqn:E.
      * pose proof (Hlen _ _ _ E) as Ht. pose proof (match_here_length _ _ _ _ _ E) as Hl.
        cbn [length] in Hl. cbn [render]. rewrite length_app.
        destruct len as [|l].
        -- cbn [render length]. specialize (IH (Some c) 0 ltac:(lia)). lia.
        -- specialize (IH (Some c) l ltac:(lia)). cbn [length]. lia.
      * cbn [render length]. specialize (IH (Some c) 0 ltac:(lia)). lia.
    + cbn [length] in Hskip. specialize (IH (Some c) n ltac:(lia)). cbn [length]. lia.
Qed.

Lemma render_shorter ic r text :
  (forall prev t len, match_here ic r prev t = Some len -> length text < len) ->
  forall s prev,
    search ic r prev s <> None ->
    length (render text (segments ic r prev s 0)) < length s.
Proof.
  intros Hlen.
  assert (Hle : forall prev t len, match_here ic r prev t = Some len -> length text <= len).
  { intros prev t len E. apply Hlen in E. lia. }
  induction s as [|c s IH]; intros prev Hs; cbn [search] in Hs; cbn [segments].
  - destruct (match_here ic r prev []) as [len|] eqn:E; [|contradiction].
    pose proof (Hlen _ _ _ E) as Ht. pose proof (match_here_length _ _ _ _ _ E) as Hl.
    cbn [length] in Hl. lia.
  - destruct (match_here ic r prev (c :: s)) as [len|] eqn:E.
    + pose proof (Hlen _ _ _ E) as Ht. pose proof (match_here_length _ _ _ _ _ E) as Hl.
      cbn [length] in Hl. cbn [render]. rewrite length_app.
      destruct len as [|l]; [lia|].
      pose proof (render_length ic r text Hle s (Some c) l ltac:(lia)). cbn [length]. lia.
    + assert (H1 : search ic r (Some c) s <> None).
      { destruct (search ic r (Some c) s) as [[j l]|]; [discriminate | contradiction]. }
      apply IH in H1. cbn [render length]. lia.
Qed.

Lemma replace_all_length R text s :
  (forall prev t len,
      match_here (ignoreCase R) (source R) prev t = Some len -> length text <= len) ->
  length (replace_all R text s) <= length s.
Proof.
  intros H. unfold replace_all, scan.
  pose proof (render_length _ _ text H s None 0 ltac:(lia)). lia.
Qed.

Lemma removal_match_nonempty body prev t len :
  first_word body = true -> last_word body = true ->
  match_here (ignoreCase (removal body)) (source (removal body)) prev t = Some len ->
  0 < len.
Proof.
  intros Hf Hl E. apply match_here_sound in E. destruct E as (w & rest & -> & Hm & -> & _).
  destruct (framed_match _ _ _ _ _ _ Hf Hl tail_ok_separator Hm)
    as (wb & wt & c & -> & _ & _ & Hne & _).
  rewrite length_app. destruct wb; [congruence | cbn [length]; lia].
Qed.

Lemma commas_match_length prev t len :
  match_here (ignoreCase commas) (source commas) prev t = Some len -> 1 <= len.
Proof.
  intros E. apply match_here_sound in E. destruct E as (w & rest & -> & Hm & -> & _).
  unfold commas, re_g in Hm. cbn [source ignoreCase Matches] in Hm.
  destruct Hm as (w1 & w2 & -> & (c & -> & _) & _). cbn [app length]. lia.
Qed.

Lemma squeeze_length s : forall b, length (squeeze b s) <= length s.
Proof.
  induction s as [|c s IH]; intros b; [reflexivity|]. cbn [squeeze].
  pose proof (IH true) as Ht. pose proof (IH false) as Hf.
  destruct (is_space c); [destruct b|]; cbn [length]; lia.
Qed.

(** The removals of [cleanPrompt], one after the other. *)
Lemma cleanPrompt_steps s :
  cleanPrompt s
  = replace_all edges []
      (replace_all spaces (js " ")
         (replace_all commas (js ",")
            (fold_left (fun t body => replace_all (removal body) [] t) removable_words s))).
Proof. reflexivity. Qed.

Lemma removals_length bodies :
  Forall (fun body => first_word body = true /\ last_word body = true) bodies ->
  forall s,
    length (fold_left (fun t body => replace_all (removal body) [] t) bodies s) <= length s.
Proof.
  induction 1 as [|body bodies [Hf Hl] _ IH]; intros s; [reflexivity|].
  cbn [fold_left]. etransitivity; [apply IH|].
  apply replace_all_length. intros prev t len E. cbn [length]. lia.
Qed.

Lemma removals_shorter bodies :
  Forall (fun body => first_word body = true /\ last_word body = true) bodies ->
  forall s,
    (exists body, In body bodies
                  /\ search true (source (removal body)) None s <> None) ->
    length (fold_left (fun t body => replace_all (removal body) [] t) bodies s) < length s.
Proof.
  induction 1 as [|body bodies [Hf Hl] Hall IH]; intros s (b & Hb & Hs); [destruct Hb|].
  cbn [fold_left].
  destruct (search true (source (removal body)) None s) as [[j l]|] eqn:E.
  - eapply Nat.le_lt_trans; [apply (removals_length bodies Hall)|].
    unfold replace_all, scan. apply render_shorter.
    + intros prev t len Em. cbn [length].
      exact (removal_match_nonempty body prev t len Hf Hl Em).
    + change (ignoreCase (removal body)) with true. rewrite E. discriminate.
  - assert (Hid : replace_all (removal body) [] s = s).
    { unfold replace_all, scan. change (ignoreCase (removal body)) with true.
      rewrite (search_none_segments _ _ _ _ E). apply render_keep. }
    rewrite Hid. apply IH. exists b. split; [|exact Hs].
    destruct Hb as [<-|Hb]; [|exact Hb]. congruence.
Qed.

Lemma removals_idle bodies s :
  (forall body, In body bodies -> search true (source (removal body)) None s = None) ->
  fold_left (fun t body => replace_all (removal body) [] t) bodies s = s.
Proof.
  induction bodies as [|body bodies IH]; intros H; [reflexivity|].
  cbn [fold_left].
  assert (Hid : replace_all (removal body) [] s = s).
  { unfold replace_all, scan. change (ignoreCase (removal body)) with true.
    rewrite (search_none_segments _ _ _ _ (H body (or_introl eq_refl))). apply render_keep. }
  rewrite Hid. apply IH. intros b Hb. apply H. now right.
Qed.

Lemma removable_words_framed :
  Forall (fun body => first_word body = true /\ last_word body = true) removable_words.
Proof.
  apply Forall_forall. intros body Hb.
  destruct (removable_words_shape body Hb) as (_ & Hf & Hl). auto.
Qed.

(** X24: what the scorer reports, the clean-up removes.  Whenever an
    analysis, from any state, reports one of the rules [8k-4k],
    [trending-artstation], [hyper-realistic], [beautiful-modifier] or
    [cinematic-lighting], [cleanPrompt] returns a text that is strictly
    shorter than the prompt; and when the analysis of a freshly loaded
    program reports none of them, the five removals of [cleanPrompt] leave
    the prompt alone, and only the comma, white-space and edge steps act. *)
Theorem cleanPrompt_removes_what_is_reported (s : jsstring) (st : Store)
    (chance0 : list nat) :
  (exists r st',
      analyzePrompt (VString s) st = (Normal r, st')
      /\ ((exists id, In id removable_rule_ids /\ In id (map Issue.id (issues r))) ->
          length (cleanPrompt s) < length s))
  /\ (exists r st',
         analyzePrompt (VString s) (fresh chance0) = (Normal r, st')
         /\ ((forall id, In id removable_rule_ids -> ~ In id (map Issue.id (issues r))) ->
             cleanPrompt s
             = replace_all edges []
                 (replace_all spaces (js " ") (replace_all commas (js ",") s)))).
Proof.
  split.
  - destruct (analyzePrompt_string s st) as (r & st' & Heq & His & _).
    exists r, st'. split; [exact Heq|]. intros (id & Hid & Hrep).
    rewrite His, map_map in Hrep. apply in_map_iff in Hrep.
    destruct Hrep as (p & <- & Hp). apply filter_In in Hp. destruct Hp as [Hin Hf].
    destruct (removable_rule p Hin Hid) as (body & Hb & Hm).
    destruct (removable_words_shape body Hb) as (Hfree & _ & _).
    pose proof (fired_rule_search st s p body Hm Hf) as Hs.
    apply (search_transfer true (bounded body) (source (removal body)) s
             (fun prev t => rule_to_removal body prev t Hfree)) in Hs.
    rewrite cleanPrompt_steps.
    eapply Nat.le_lt_trans;
      [apply replace_all_length; intros prev t len _; cbn [length]; lia|].
    rewrite spaces_squeeze.
    eapply Nat.le_lt_trans; [apply squeeze_length|].
    eapply Nat.le_lt_trans;
      [apply replace_all_length; intros prev t len E; cbn [length];
       exact (commas_match_length prev t len E)|].
    apply (removals_shorter removable_words removable_words_framed).
    exists body. auto.
  - destruct (analyzePrompt_string s (fresh chance0)) as (r & st' & Heq & His & _).
    exists r, st'. split; [exact Heq|]. intros Hnone.
    rewrite cleanPrompt_steps. rewrite removals_idle; [reflexivity|].
    intros body Hb.
    destruct (removable_words_shape body Hb) as (Hfree & _ & _).
    destruct (search true (source (removal body)) None s) as [[j l]|] eqn:E;
      [exfalso | reflexivity].
    assert (Hs : search true (source (removal body)) None s <> None) by (rewrite E; discriminate).
    apply (search_transfer true (source (removal body)) (bounded body) s
             (fun prev t => removal_to_rule body prev t Hfree)) in Hs.
    assert (Hrule : exists p, In p AI_PRONE_PATTERNS
                              /\ In (Pattern.id p) removable_rule_ids
                              /\ Pattern.matcher p = Regex (re_gi (bounded body))).
    { unfold removable_words in Hb. cbn [In] in Hb. unfold AI_PRONE_PATTERNS.
      destruct Hb as [<-|[<-|[<-|[<-|[<-|[]]]]]].
      - eexists (Pattern.mk "8k-4k" _ _ _ _ _).
        split; [cbn [In]; do 4 right; left; reflexivity|].
        split; [cbn; tauto | reflexivity].
      - eexists (Pattern.mk "trending-artstation" _ _ _ _ _).
        split; [cbn [In]; do 5 right; left; reflexivity|].
        split; [cbn; tauto | reflexivity].
      - eexists (Pattern.mk "hyper-realistic" _ _ _ _ _).
        split; [cbn [In]; do 3 right; left; reflexivity|].
        split; [cbn; tauto | reflexivity].
      - eexists (Pattern.mk "beautiful-modifier" _ _ _ _ _).
        split; [cbn [In]; do 2 right; left; reflexivity|].
        split; [cbn; tauto | reflexivity].
      - eexists (Pattern.mk "cinematic-lighting" _ _ _ _ _).
        split; [cbn [In]; do 6 right; left; reflexivity|].
        split; [cbn; tauto | reflexivity]. }
    destruct Hrule as (p & Hp & Hid & Hm).
    apply (Hnone _ Hid). rewrite His. apply issue_id_of_kept; [exact Hp|].
    destruct (fired (fresh chance0) (VString s) p) eqn:Ef; [reflexivity|].
    apply (miss_rule_search chance0 s p body Hm) in Ef. contradiction.
Qed.
